(** * Shelly BLE RPC tester: a model of [shelly-ble-rpc.js]

    The transport of [sendRpcAndReceive] is embedded as a state-and-exception
    monad over an explicit record of the exchange's mutable state.  The peer
    (the BLE device together with the noble stack) is a function that answers
    the n-th suspension point of the program: what a read returns, whether a
    write or subscription is acknowledged, which notifications are delivered
    on RX_CTL while the program is suspended, and how long the operation took.

    What the model assumes of the platform:
    - [Date.now()] is the [clock] field; it moves only at suspension points
      and never goes back; [sleep(ms)] takes at least [ms];
    - every operation is answered: a read or write whose callback is never
      called is not modelled;
    - text is held in UTF-8 form: a string is the UTF-8 encoding of the
      JavaScript string, so encoding a text gives its bytes, and decoding a
      buffer gives the bytes back with every ill-formed sequence replaced by
      U+FFFD, as Node does; strings with unpaired surrogates are not
      represented;
    - numbers are the integers, printed in full, which is what JavaScript
      does with an integer of magnitude below 2^53; fractions and larger
      numbers are not represented;
    - [toLowerCase] maps the letters A to Z and nothing else, which is what
      JavaScript does with a string of ASCII characters;
    - [JSON.parse] is a parameter;
    - [while] loops and the chunking loop take fuel, and running out of fuel
      is an outcome of its own, distinct from returning and from throwing;
    - [console.log] output is left out; [console.error] output is part of
      the trace.

    The code around the exchange (the UUID constants, [parseArgs],
    [tryParseJson], the listeners of [scanForDevices] and [discoverShelly],
    [findCharsByUuid], [promptUserSelection] and the choice of the
    peripheral in [main]) is embedded as pure functions: a scan is the list
    of the peripherals noble reports, in order, and the answers typed at a
    prompt are arguments. *)

From Stdlib Require Import ZArith List String Ascii Bool Lia DecimalString DecimalPos ListSet.
From Stdlib Require Import Strings.Byte.
Import ListNotations.
Open Scope string_scope.
Open Scope list_scope.
Open Scope Z_scope.
Set Warnings "-register-all".

(** ** Buffers *)

Definition bytes := list byte.

Definition byteZ (b : byte) : Z := Z.of_N (Byte.to_N b).

Definition byte_of_Z (z : Z) : byte :=
  match Byte.of_N (Z.to_N (z mod 256)) with
  | Some b => b
  | None => x00
  end.

(** [buf.length] *)
Definition blen (b : bytes) : Z := Z.of_nat (List.length b).

(** [buf.readUInt32BE(0)]; [None] is the RangeError of a buffer shorter than
    four bytes. *)
Definition readUInt32BE (b : bytes) : option Z :=
  match b with
  | b0 :: b1 :: b2 :: b3 :: _ =>
      Some (Z.lor (Z.shiftl (byteZ b0) 24)
           (Z.lor (Z.shiftl (byteZ b1) 16)
           (Z.lor (Z.shiftl (byteZ b2) 8) (byteZ b3))))
  | _ => None
  end.

(** [const b = Buffer.alloc(4); b.writeUInt32BE(n, 0)]; [None] is the
    RangeError of a value outside [0, 2^32). *)
Definition writeUInt32BE (n : Z) : option bytes :=
  if (0 <=? n) && (n <? 2 ^ 32) then
    Some [ byte_of_Z (Z.shiftr n 24); byte_of_Z (Z.shiftr n 16);
           byte_of_Z (Z.shiftr n 8); byte_of_Z n ]
  else None.

(** [buf.slice(start, end)] for [0 <= start <= end]; the end is clamped to
    the buffer's length. *)
Definition slice (b : bytes) (start stop : nat) : bytes :=
  firstn (stop - start) (skipn start b).

(** ** JSON values and [JSON.stringify]

    Strings are kept in their UTF-8 form (a Rocq [string] is a sequence of
    bytes), so [Buffer.from(s, 'utf8')] is the list of the string's bytes.
    Numbers are the integers, and [JSON.stringify] prints all their digits:
    this is JavaScript's output for the integers of magnitude below 2^53
    (a larger number is printed from its shortest digits, in exponent form
    from 1e21 on), and a number with a fraction has no value here.  An
    object is the list of its own properties in enumeration order. *)

Inductive JSON : Type :=
| JNull
| JBool (b : bool)
| JNum (n : Z)
| JStr (s : string)
| JArr (items : list JSON)
| JObj (fields : list (string * JSON)).

(** JavaScript truthiness, as used by [paramsObject || {}]. *)
Definition truthy (v : JSON) : bool :=
  match v with
  | JNull => false
  | JBool b => b
  | JNum n => negb (n =? 0)
  | JStr s => negb (String.eqb s "")
  | JArr _ => true
  | JObj _ => true
  end.

Definition hexdigit (n : N) : ascii :=
  match n with
  | 0%N => "0" | 1%N => "1" | 2%N => "2" | 3%N => "3" | 4%N => "4"
  | 5%N => "5" | 6%N => "6" | 7%N => "7" | 8%N => "8" | 9%N => "9"
  | 10%N => "a" | 11%N => "b" | 12%N => "c" | 13%N => "d" | 14%N => "e"
  | _ => "f"
  end%char.

Definition dquote : string := String (ascii_of_N 34) "".
Definition backslash : ascii := ascii_of_N 92.

(** The escape of one code unit inside a JSON string literal. *)
Definition quote_char (c : ascii) : string :=
  let n := N_of_ascii c in
  if (n =? 34)%N then String backslash dquote
  else if (n =? 92)%N then String backslash (String backslash "")
  else if (n =? 8)%N then String backslash "b"
  else if (n =? 12)%N then String backslash "f"
  else if (n =? 10)%N then String backslash "n"
  else if (n =? 13)%N then String backslash "r"
  else if (n =? 9)%N then String backslash "t"
  else if (n <? 32)%N then
    String backslash "u00" ++ String (hexdigit (n / 16)) (String (hexdigit (n mod 16)) "")
  else String c "".

Fixpoint quote_body (s : string) : string :=
  match s with
  | EmptyString => ""
  | String c rest => quote_char c ++ quote_body rest
  end.

Definition quote (s : string) : string := dquote ++ quote_body s ++ dquote.

Definition string_of_Z (n : Z) : string := NilZero.string_of_int (Z.to_int n).

Section Stringify.
Variable stringify : JSON -> string.

Fixpoint stringify_items (l : list JSON) : string :=
  match l with
  | [] => ""
  | [v] => stringify v
  | v :: rest => stringify v ++ "," ++ stringify_items rest
  end.

Fixpoint stringify_fields (l : list (string * JSON)) : string :=
  match l with
  | [] => ""
  | [(k, v)] => quote k ++ ":" ++ stringify v
  | (k, v) :: rest => quote k ++ ":" ++ stringify v ++ "," ++ stringify_fields rest
  end.

End Stringify.

(** [JSON.stringify(v)] without indentation, for values whose numbers are
    safe integers. *)
Fixpoint JSON_stringify (v : JSON) : string :=
  match v with
  | JNull => "null"
  | JBool true => "true"
  | JBool false => "false"
  | JNum n => string_of_Z n
  | JStr s => quote s
  | JArr items => "[" ++ stringify_items JSON_stringify items ++ "]"
  | JObj fields => "{" ++ stringify_fields JSON_stringify fields ++ "}"
  end.

(** [Buffer.from(text, 'utf8')] on text held in UTF-8 form. *)
Definition Buffer_from (text : string) : bytes := list_byte_of_string text.

(** *** [buf.toString('utf8')]

    Node decodes as the WHATWG UTF-8 decoder does.  A well-formed sequence
    gives its character.  Every maximal ill-formed part gives U+FFFD: a byte
    that cannot start a sequence (0x80-0xC1, 0xF5-0xFF), or the bytes of a
    sequence cut short by the end of the buffer or by a byte that cannot
    continue it; that byte is then decoded again as a first byte.  Overlong
    forms, surrogates and code points above U+10FFFF are excluded by the
    range of the first continuation byte.  A byte order mark is kept.

    The text being held in UTF-8 form, a well-formed sequence is passed on
    as it is and U+FFFD is its three bytes EF BF BD. *)

Definition REPLACEMENT_CHARACTER : bytes := [xef; xbf; xbd].

(** What a first byte above 0x7F announces: the number of continuation
    bytes and the range of the first of them; [None] for a byte that starts
    no sequence. *)
Definition utf8_lead (n : Z) : option (nat * Z * Z) :=
  if (0xC2 <=? n) && (n <=? 0xDF) then Some (1%nat, 0x80, 0xBF)
  else if n =? 0xE0 then Some (2%nat, 0xA0, 0xBF)
  else if n =? 0xED then Some (2%nat, 0x80, 0x9F)
  else if (0xE1 <=? n) && (n <=? 0xEF) then Some (2%nat, 0x80, 0xBF)
  else if n =? 0xF0 then Some (3%nat, 0x90, 0xBF)
  else if n =? 0xF4 then Some (3%nat, 0x80, 0x8F)
  else if (0xF1 <=? n) && (n <=? 0xF3) then Some (3%nat, 0x80, 0xBF)
  else None.

(** The decoder: [seen] holds the bytes of the sequence being read,
    [needed] is the number of continuation bytes still to come and
    [lower, upper] the range of the next one. *)
Fixpoint utf8_decode (seen : bytes) (needed : nat) (lower upper : Z) (input : bytes) : bytes :=
  match input with
  | [] =>
      match needed with
      | O => []
      | S _ => REPLACEMENT_CHARACTER
      end
  | b :: rest =>
      let first (_ : unit) :=
        if byteZ b <? 0x80 then b :: utf8_decode [] 0 0x80 0xBF rest
        else
          match utf8_lead (byteZ b) with
          | Some (k, lo, hi) => utf8_decode [b] k lo hi rest
          | None => REPLACEMENT_CHARACTER ++ utf8_decode [] 0 0x80 0xBF rest
          end in
      match needed with
      | O => first tt
      | S k =>
          if (lower <=? byteZ b) && (byteZ b <=? upper) then
            match k with
            | O => seen ++ b :: utf8_decode [] 0 0x80 0xBF rest
            | S _ => utf8_decode (seen ++ [b]) k 0x80 0xBF rest
            end
          else REPLACEMENT_CHARACTER ++ first tt
      end
  end.

Definition Buffer_toString (b : bytes) : string :=
  string_of_list_byte (utf8_decode [] 0 0x80 0xBF b).

(** ** The peer *)

Inductive Chan : Type := DataChar | TxCtlChar | RxCtlChar.

(** What the program does to the outside world, in program order.
    [AWrite c data withoutResponse] is noble's
    [c.write(data, withoutResponse, cb)]. *)
Inductive Action : Type :=
| AConnect
| ADiscoverServices
| ADiscoverCharacteristics
| ARead (c : Chan)
| AWrite (c : Chan) (data : bytes) (withoutResponse : bool)
| ASleep (ms : Z)
| ASubscribe
| AUnsubscribe
| ADisconnect
| AConsoleError (text : string).

(** The callback of [characteristic.read]: an error, or the data (which the
    program guards against being null). *)
Inductive ReadResult : Type :=
| ReadFail
| ReadData (data : option bytes).

(** The answer to one suspension point: the result if it is a read, the
    acknowledgement if it is a write, a connect, a discovery or a
    subscription, whether a discovery lists what the program looks for, the
    RX_CTL notifications delivered meanwhile, and the time it took beyond a
    requested sleep. *)
Record Reply : Type := mkReply {
  r_read : ReadResult;
  r_ok : bool;
  r_found : bool;
  r_notify : list (option bytes);
  r_delay : N
}.

Definition Peer : Type := nat -> Reply.

(** What is thrown: [ParseFailed detail] is
    [new Error(`Failed to parse JSON response: ${detail}`)], where [detail]
    is the message of the parser's SyntaxError. *)
Inductive Error : Type :=
| IoError
| RangeError
| ServiceNotFound
| CharacteristicsMissing
| EmptyResponse
| ParseFailed (detail : string).

(** ** The exchange state and its monad *)

Record State : Type := mkState {
  clock : Z;
  awaits : nat;
  listening : bool;
  expectedLength : Z;
  trace : list Action
}.

Inductive Outcome (A : Type) : Type :=
| Ret (a : A)
| Raise (e : Error)
| OutOfFuel.
Arguments Ret {A} a.
Arguments Raise {A} e.
Arguments OutOfFuel {A}.

Definition M (A : Type) : Type := State -> Outcome A * State.

Definition ret {A} (a : A) : M A := fun s => (Ret a, s).
Definition raise {A} (e : Error) : M A := fun s => (Raise e, s).
Definition out_of_fuel {A} : M A := fun s => (OutOfFuel, s).

Definition bind {A B} (m : M A) (k : A -> M B) : M B :=
  fun s =>
    match m s with
    | (Ret a, s') => k a s'
    | (Raise e, s') => (Raise e, s')
    | (OutOfFuel, s') => (OutOfFuel, s')
    end.

Notation "x <- m ;; k" := (bind m (fun x => k))
  (at level 61, m at next level, right associativity).
Notation "m ;; k" := (bind m (fun _ => k))
  (at level 61, right associativity).

(** [try { m } catch (e) { h e }] *)
Definition try_catch {A} (m : M A) (h : Error -> M A) : M A :=
  fun s =>
    match m s with
    | (Raise e, s') => h e s'
    | r => r
    end.

(** [try { m } finally { fin }] for a finalizer that does not throw. *)
Definition try_finally {A} (m : M A) (fin : State -> State) : M A :=
  fun s =>
    match m s with
    | (OutOfFuel, s') => (OutOfFuel, s')
    | (r, s') => (r, fin s')
    end.

Definition lift_opt {A} (o : option A) : M A :=
  match o with
  | Some a => ret a
  | None => raise RangeError
  end.

Definition Date_now : M Z := fun s => (Ret (clock s), s).
Definition get_expectedLength : M Z := fun s => (Ret (expectedLength s), s).

Definition set_expectedLength (v : Z) : M unit :=
  fun s => (Ret tt, mkState (clock s) (awaits s) (listening s) v (trace s)).

Definition set_listening (b : bool) : M unit :=
  fun s => (Ret tt, mkState (clock s) (awaits s) b (expectedLength s) (trace s)).

Definition emit (a : Action) : M unit :=
  fun s => (Ret tt, mkState (clock s) (awaits s) (listening s) (expectedLength s)
                            (trace s ++ [a])).

(** The notification handler installed by [sendRpcAndReceive]:
    [(buf) => { if (!buf || buf.length < 4) return;
                expectedLength = buf.readUInt32BE(0); }] *)
Definition onData (el : Z) (buf : option bytes) : Z :=
  match buf with
  | None => el
  | Some b =>
      if blen b <? 4 then el
      else match readUInt32BE b with
           | Some v => v
           | None => el
           end
  end.

Section Exchange.

Variable peer : Peer.

(** [JSON.parse]: the SyntaxError's message, or the value. *)
Variable JSON_parse : string -> string + JSON.

(** An [await] on an asynchronous operation: the program is suspended, the
    notifications that arrive meanwhile run the handler if it is installed,
    the clock moves on, and the program resumes with the peer's reply. *)
Definition suspend (a : Action) (ms : Z) : M Reply :=
  fun s =>
    let r := peer (awaits s) in
    (Ret r,
     mkState (clock s + ms + Z.of_N (r_delay r))
             (S (awaits s))
             (listening s)
             (if listening s
              then fold_left onData (r_notify r) (expectedLength s)
              else expectedLength s)
             (trace s ++ [a])).

Definition sleep (ms : Z) : M unit := suspend (ASleep ms) ms ;; ret tt.

Definition readCharacteristic (c : Chan) : M (option bytes) :=
  r <- suspend (ARead c) 0 ;;
  match r_read r with
  | ReadFail => raise IoError
  | ReadData d => ret d
  end.

(** [characteristic.write(data, withoutResponse, cb)] as a promise. *)
Definition char_write (c : Chan) (data : bytes) (withoutResponse : bool) : M unit :=
  r <- suspend (AWrite c data withoutResponse) 0 ;;
  if r_ok r then ret tt else raise IoError.

Definition writeWithResponse (c : Chan) (data : bytes) : M unit :=
  char_write c data false.

(** The handler is attached in the callback of [subscribe], so nothing that
    arrives during this suspension reaches it. *)
Definition subscribeNotifications : M unit :=
  r <- suspend ASubscribe 0 ;;
  if r_ok r then set_listening true else raise IoError.

Definition unsubscribeRxNotify : M unit :=
  set_listening false ;; emit AUnsubscribe.

(** *** flushChannels *)

Definition chunk_length (chunk : option bytes) : Z :=
  match chunk with
  | Some c => blen c
  | None => 0
  end.

Fixpoint drain (fuel : nat) (len drained deadline : Z) : M unit :=
  match fuel with
  | O => out_of_fuel
  | S fuel' =>
      now <- Date_now ;;
      if (drained <? len) && (now <? deadline) then
        chunk <- readCharacteristic DataChar ;;
        let cLen := chunk_length chunk in
        if cLen =? 0 then ret tt
        else drain fuel' len (drained + cLen) deadline
      else ret tt
  end.

Definition flushChannels (fuel : nat) : M unit :=
  try_catch
    (lenBuf <- readCharacteristic RxCtlChar ;;
     match lenBuf with
     | Some b =>
         if 4 <=? blen b then
           len <- lift_opt (readUInt32BE b) ;;
           if 0 <? len then
             now <- Date_now ;;
             drain fuel len 0 (now + 1000)
           else ret tt
         else ret tt
     | None => ret tt
     end)
    (fun _ => ret tt).

(** *** Building and sending the request *)

(** [paramsObject || {}] *)
Definition params_or_empty (paramsObject : option JSON) : JSON :=
  match paramsObject with
  | Some v => if truthy v then v else JObj []
  | None => JObj []
  end.

Definition requestObject (id : Z) (method : string) (paramsObject : option JSON) : JSON :=
  JObj [ ("id", JNum id); ("src", JStr "user_1"); ("method", JStr method);
         ("params", params_or_empty paramsObject) ].

Definition requestBytes (id : Z) (method : string) (paramsObject : option JSON) : bytes :=
  Buffer_from (JSON_stringify (requestObject id method paramsObject)).

Definition MTU_CHUNK : nat := 20.

(** [for (let offset = 0; offset < buf.length; offset += mtu) {
       const chunk = buf.slice(offset, offset + mtu);
       await send(chunk); await sleep(gap); }] *)
Fixpoint write_chunks (fuel : nat) (send : bytes -> M unit) (gap : Z)
    (mtu : nat) (buf : bytes) (offset : nat) : M unit :=
  match fuel with
  | O => out_of_fuel
  | S fuel' =>
      if (offset <? List.length buf)%nat then
        send (slice buf offset (offset + mtu)) ;;
        sleep gap ;;
        write_chunks fuel' send gap mtu buf (offset + mtu)%nat
      else ret tt
  end.

(** Lines 275-291 and 326-338, which differ in the settle delay, the call
    that writes a chunk and the pause after it: the length of the request on
    TX_CTL, the settle delay, then the chunks on the data characteristic. *)
Definition send_frame (fuel : nat) (req : bytes) (settle : Z)
    (send : bytes -> M unit) (gap : Z) (mtu : nat) : M unit :=
  lenBuf <- lift_opt (writeUInt32BE (blen req)) ;;
  writeWithResponse TxCtlChar lenBuf ;;
  sleep settle ;;
  write_chunks fuel send gap mtu req 0.

(** Lines 262-291: the first transmission; a chunk is written with
    [writeWithResponse(dataChar, chunk)]. *)
Definition send_primary (fuel : nat) (method : string) (paramsObject : option JSON) : M unit :=
  id <- Date_now ;;
  send_frame fuel (requestBytes id method paramsObject) 1000
             (fun chunk => writeWithResponse DataChar chunk) 15 MTU_CHUNK.

(** Lines 318-338: the second transmission; a chunk is written with
    [dataChar.write(chunk, false, cb)]. *)
Definition send_retry (fuel : nat) (method : string) (paramsObject : option JSON) : M unit :=
  id <- Date_now ;;
  send_frame fuel (requestBytes id method paramsObject) 500
             (fun chunk => char_write DataChar chunk false) 25 MTU_CHUNK.

(** *** Learning the response length *)

(** The body of the [try] in the polling loop of lines 295-307; the result
    says whether the loop is left by [break]. *)
Definition poll_primary_once : M bool :=
  try_catch
    (lenBuf <- readCharacteristic RxCtlChar ;;
     match lenBuf with
     | Some b =>
         if 4 <=? blen b then
           v <- lift_opt (readUInt32BE b) ;;
           set_expectedLength v ;;
           el <- get_expectedLength ;;
           ret (0 <? el)
         else ret false
     | None => ret false
     end)
    (fun _ => ret false).

(** [for (let i = 1; i <= 30 && expectedLength === 0; i++) ...], by the
    number of iterations left. *)
Fixpoint poll_primary (left : nat) : M unit :=
  match left with
  | O => ret tt
  | S left' =>
      el <- get_expectedLength ;;
      if el =? 0 then
        stop <- poll_primary_once ;;
        if (stop : bool) then ret tt
        else sleep 250 ;; poll_primary left'
      else ret tt
  end.

(** The body of the [try] in the polling loop of lines 340-349. *)
Definition poll_retry_once : M unit :=
  try_catch
    (lb <- readCharacteristic RxCtlChar ;;
     match lb with
     | Some b =>
         if 4 <=? blen b then
           v <- lift_opt (readUInt32BE b) ;;
           set_expectedLength v
         else ret tt
     | None => ret tt
     end)
    (fun _ => ret tt).

(** [for (let i = 1; i <= 20 && expectedLength === 0; i++) ...] *)
Fixpoint poll_retry (left : nat) : M unit :=
  match left with
  | O => ret tt
  | S left' =>
      el <- get_expectedLength ;;
      if el =? 0 then
        poll_retry_once ;;
        sleep 100 ;;
        poll_retry left'
      else ret tt
  end.

(** Lines 251-307: flush, subscribe, first transmission, polling. *)
Definition attempt_primary (fuel : nat) (method : string) (paramsObject : option JSON) : M unit :=
  flushChannels fuel ;;
  set_expectedLength 0 ;;
  subscribeNotifications ;;
  send_primary fuel method paramsObject ;;
  poll_primary 30.

(** Lines 314-349: the body of the fallback resend. *)
Definition resend (fuel : nat) (method : string) (paramsObject : option JSON) : M bytes :=
  set_expectedLength 0 ;;
  send_retry fuel method paramsObject ;;
  poll_retry 20 ;;
  ret [].

(** Lines 309-350: [if (expectedLength === 0 && received.length === 0)]. *)
Definition retry_if_silent (fuel : nat) (method : string) (paramsObject : option JSON)
    (received : bytes) : M bytes :=
  el <- get_expectedLength ;;
  if (el =? 0) && (blen received =? 0) then resend fuel method paramsObject
  else ret received.

(** *** Reading the response *)

Definition chunk_bytes (chunk : option bytes) : bytes :=
  match chunk with
  | Some c => c
  | None => []
  end.

(** [Math.min(200 + consecutiveEmpty * 50, 500)] *)
Definition backoff (consecutiveEmpty : Z) : Z :=
  Z.min (200 + consecutiveEmpty * 50) 500.

(** One pass through the [try] of lines 372-390: the new values of
    [received] and [consecutiveEmpty]. *)
Definition read_once (received : bytes) (consecutiveEmpty : Z) : M (bytes * Z) :=
  try_catch
    (chunk <- readCharacteristic DataChar ;;
     if 0 <? chunk_length chunk then
       ret (received ++ chunk_bytes chunk, 0)
     else
       sleep (backoff (consecutiveEmpty + 1)) ;;
       ret (received, consecutiveEmpty + 1))
    (fun _ => sleep 250 ;; ret (received, consecutiveEmpty)).

(** The [while] of lines 364-391. *)
Fixpoint read_loop (fuel : nat) (bestEffort : bool) (startedData maxDurationMs : Z)
    (received : bytes) (consecutiveEmpty : Z) : M bytes :=
  match fuel with
  | O => out_of_fuel
  | S fuel' =>
      el <- get_expectedLength ;;
      now <- Date_now ;;
      if (negb bestEffort && (blen received <? el))
         || (bestEffort && (now - startedData <? maxDurationMs))
      then
        if maxDurationMs <? now - startedData then ret received
        else
          st <- read_once received consecutiveEmpty ;;
          read_loop fuel' bestEffort startedData maxDurationMs (fst st) (snd st)
      else ret received
  end.

(** Lines 353-392. *)
Definition receive (fuel : nat) (received : bytes) : M bytes :=
  el <- get_expectedLength ;;
  let bestEffort := el =? 0 in
  startedData <- Date_now ;;
  let maxDurationMs := if bestEffort then 5000 else 20000 in
  read_loop fuel bestEffort startedData maxDurationMs received 0.

(** Lines 251-397: everything up to the accumulated response bytes. *)
Definition transfer (fuel : nat) (method : string) (paramsObject : option JSON) : M bytes :=
  attempt_primary fuel method paramsObject ;;
  received <- retry_if_silent fuel method paramsObject [] ;;
  received <- receive fuel received ;;
  unsubscribeRxNotify ;;
  ret received.

(** *** Decoding *)

(** The UTF-8 forms of the characters [String.prototype.trim] removes:
    WhiteSpace (TAB, VT, FF, SP, NBSP, ZWNBSP and the space separators) and
    LineTerminator (LF, CR, LS, PS). *)
Definition WhiteSpace : list (list ascii) :=
  map (map ascii_of_N)
    [ [9]; [10]; [11]; [12]; [13]; [32]; [194; 160]; [225; 154; 128];
      [226; 128; 128]; [226; 128; 129]; [226; 128; 130]; [226; 128; 131];
      [226; 128; 132]; [226; 128; 133]; [226; 128; 134]; [226; 128; 135];
      [226; 128; 136]; [226; 128; 137]; [226; 128; 138]; [226; 128; 168];
      [226; 128; 169]; [226; 128; 175]; [226; 129; 159]; [227; 128; 128];
      [239; 187; 191] ]%N.

Fixpoint strip_prefix (p s : list ascii) : option (list ascii) :=
  match p with
  | [] => Some s
  | c :: p' =>
      match s with
      | [] => None
      | d :: s' => if Ascii.eqb c d then strip_prefix p' s' else None
      end
  end.

Fixpoint strip_one (patterns : list (list ascii)) (s : list ascii) : option (list ascii) :=
  match patterns with
  | [] => None
  | p :: rest =>
      match strip_prefix p s with
      | Some s' => Some s'
      | None => strip_one rest s
      end
  end.

Fixpoint strip_all (fuel : nat) (patterns : list (list ascii)) (s : list ascii) : list ascii :=
  match fuel with
  | O => s
  | S fuel' =>
      match strip_one patterns s with
      | Some s' => strip_all fuel' patterns s'
      | None => s
      end
  end.

Definition trimStart (s : list ascii) : list ascii :=
  strip_all (List.length s) WhiteSpace s.

Definition trimEnd (s : list ascii) : list ascii :=
  rev (strip_all (List.length s) (map (@rev ascii) WhiteSpace) (rev s)).

(** [s.trim()] *)
Definition String_trim (s : string) : string :=
  string_of_list_ascii (trimEnd (trimStart (list_ascii_of_string s))).

(** Lines 400-413. *)
Definition decode_response (received : bytes) : M JSON :=
  let jsonText := Buffer_toString received in
  if String.eqb (String_trim jsonText) "" then raise EmptyResponse
  else
    match JSON_parse jsonText with
    | inr parsed => ret parsed
    | inl message =>
        emit (AConsoleError "JSON parse error. Full response text:") ;;
        emit (AConsoleError (JSON_stringify (JStr jsonText))) ;;
        raise (ParseFailed message)
    end.

(** Lines 251-413. *)
Definition exchange (fuel : nat) (method : string) (paramsObject : option JSON) : M JSON :=
  received <- transfer fuel method paramsObject ;;
  decode_response received.

Definition disconnect (s : State) : State :=
  mkState (clock s) (awaits s) (listening s) (expectedLength s) (trace s ++ [ADisconnect]).

(** [sendRpcAndReceive(peripheral, method, paramsObject)].  Service and
    characteristic discovery are summarised by the reply's [r_found]. *)
Definition sendRpcAndReceive (fuel : nat) (method : string) (paramsObject : option JSON) : M JSON :=
  c <- suspend AConnect 0 ;;
  if negb (r_ok c) then raise IoError
  else
    try_finally
      (sleep 500 ;;
       svcs <- suspend ADiscoverServices 0 ;;
       if negb (r_ok svcs) then raise IoError
       else if negb (r_found svcs) then raise ServiceNotFound
       else
         chars <- suspend ADiscoverCharacteristics 0 ;;
         if negb (r_ok chars) then raise IoError
         else if negb (r_found chars) then raise CharacteristicsMissing
         else exchange fuel method paramsObject)
      disconnect.

End Exchange.

(** ** Vocabulary of the properties *)

(** The chunks of a buffer, [mtu] bytes at a time; [n] bounds their number. *)
Fixpoint chunk_list (n mtu : nat) (rest : bytes) : list bytes :=
  match n with
  | O => []
  | S n' =>
      match rest with
      | [] => []
      | _ => firstn mtu rest :: chunk_list n' mtu (skipn mtu rest)
      end
  end.

Definition chunks (mtu : nat) (buf : bytes) : list bytes :=
  chunk_list (List.length buf) mtu buf.

(** The actions of writing the chunks one after the other. *)
Definition chunk_writes (withoutResponse : bool) (gap : Z) (cs : list bytes) : list Action :=
  flat_map (fun c => [AWrite DataChar c withoutResponse; ASleep gap]) cs.

Definition is_tx_write (a : Action) : bool :=
  match a with
  | AWrite TxCtlChar _ _ => true
  | _ => false
  end.

(** The number of transmissions a trace starts: each one begins with the
    write of the request length on TX_CTL. *)
Definition tx_count (tr : list Action) : nat := List.length (filter is_tx_write tr).

Definition is_write (a : Action) : bool :=
  match a with
  | AWrite _ _ _ => true
  | _ => false
  end.

(** The bytes written on the data characteristic, in order. *)
Definition data_written (tr : list Action) : bytes :=
  flat_map (fun a => match a with AWrite DataChar d _ => d | _ => [] end) tr.

(** The write modes of the data chunks of a trace. *)
Definition data_write_modes (tr : list Action) : list bool :=
  flat_map (fun a => match a with AWrite DataChar _ w => [w] | _ => [] end) tr.

(** A computation only moves the state along a relation. *)
Definition preserves (R : State -> State -> Prop) {A} (m : M A) : Prop :=
  forall s, R s (snd (m s)).

(** How a state evolves: time does not go back, suspension points are only
    added, and the trace grows by actions that satisfy [P]. *)
Definition evolves (P : Action -> Prop) (s s' : State) : Prop :=
  clock s <= clock s' /\ (awaits s <= awaits s')%nat /\
  exists ext, trace s' = trace s ++ ext /\ Forall P ext.

(** The trace grows by at most [k] transmissions. *)
Definition transmits (k : nat) (s s' : State) : Prop :=
  exists ext, trace s' = trace s ++ ext /\ (tx_count ext <= k)%nat.

(** Not the start of a transmission. *)
Definition not_tx (a : Action) : Prop := is_tx_write a = false.

(** No write at all. *)
Definition no_write (a : Action) : Prop := is_write a = false.

(** No unacknowledged write: every write passes [withoutResponse = false]. *)
Definition acknowledged (a : Action) : Prop :=
  match a with
  | AWrite _ _ withoutResponse => withoutResponse = false
  | _ => True
  end.

(** A reply that is no data: a failed read, or a read of nothing. *)
Definition no_data (r : Reply) : bool :=
  match r_read r with
  | ReadFail => true
  | ReadData d => chunk_length d =? 0
  end.

(** A read of the length characteristic that gives fewer than four bytes. *)
Definition short_read (d : option bytes) : Prop :=
  match d with
  | None => True
  | Some b => blen b < 4
  end.

(** The length a read of RX_CTL announces; 0 when it is null, shorter than
    four bytes, or failed. *)
Definition announced (d : option bytes) : Z :=
  match d with
  | Some b =>
      if 4 <=? blen b then
        match readUInt32BE b with
        | Some v => v
        | None => 0
        end
      else 0
  | None => 0
  end.

Definition pending_length (r : Reply) : Z :=
  match r_read r with
  | ReadFail => 0
  | ReadData d => announced d
  end.

(** The state after one read of a characteristic, whatever it returned. *)
Definition after_read (peer : Peer) (c : Chan) (s : State) : State :=
  snd (suspend peer (ARead c) 0 s).


(** A sequence of characters that is a concatenation of given patterns. *)
Inductive concat_of (patterns : list (list ascii)) : list ascii -> Prop :=
| concat_nil : concat_of patterns []
| concat_cons p s :
    In p patterns -> concat_of patterns s -> concat_of patterns (p ++ s).

(** A text that is empty or made of white space only. *)
Definition white_only (text : string) : Prop :=
  concat_of WhiteSpace (list_ascii_of_string text).

(** No pattern is a proper prefix of another one. *)
Definition prefix_free (ps : list (list ascii)) : Prop :=
  forall p q r, In p ps -> In q ps -> strip_prefix p q = Some r -> r = [].

(** The decision of [prefix_free]. *)
Definition prefix_freeb (ps : list (list ascii)) : bool :=
  forallb (fun p =>
    forallb (fun q =>
      match strip_prefix p q with
      | Some [] => true
      | Some _ => false
      | None => true
      end) ps) ps.

(** The peer acknowledges every operation from [from] on. *)
Definition acknowledges (peer : Peer) (from : nat) : Prop :=
  forall n, (from <= n)%nat -> r_ok (peer n) = true.


(** From the suspension point [from] on, no notification carries a length. *)
Definition no_length_notified (peer : Peer) (from : nat) : Prop :=
  forall n, (from <= n)%nat -> Forall short_read (r_notify (peer n)).

(** From the suspension point [from] on, an operation that the peer answers
    with data takes at least a millisecond; reads that fail or give nothing
    may take no time at all. *)
Definition makes_progress (peer : Peer) (from : nat) : Prop :=
  forall n, (from <= n)%nat -> no_data (peer n) = true \/ (1 <= r_delay (peer n))%N.

(** From [from] on, no operation takes more than [D] ms beyond a requested
    sleep. *)
Definition delay_bounded (peer : Peer) (from : nat) (D : Z) : Prop :=
  forall n, (from <= n)%nat -> Z.of_N (r_delay (peer n)) <= D.

(** The test at the head of the read loop. *)
Definition keeps_reading (bestEffort : bool) (startedData maxDurationMs : Z)
    (received : bytes) (s : State) : bool :=
  ((negb bestEffort && (blen received <? expectedLength s))
   || (bestEffort && (clock s - startedData <? maxDurationMs)))
  && negb (maxDurationMs <? clock s - startedData).

(** The same peer with its notifications removed. *)
Definition mute (peer : Peer) : Peer :=
  fun n => mkReply (r_read (peer n)) (r_ok (peer n)) (r_found (peer n)) [] (r_delay (peer n)).

(** The state with another value of [expectedLength]. *)
Definition with_expectedLength (v : Z) (s : State) : State :=
  mkState (clock s) (awaits s) (listening s) v (trace s).

(** What the loops' control flow can see of a state besides [expectedLength]. *)
Definition control (s : State) : Z * nat * list Action :=
  (clock s, awaits s, trace s).

(** *** Sample peers *)

(** A reply of a peer that acknowledges everything and has nothing to say. *)
Definition quiet : Reply := mkReply (ReadData (Some [])) true true [] 0.

Definition silent : Peer := fun _ => quiet.

(** A peer that follows a script and is quiet afterwards. *)
Definition scripted (script : list Reply) : Peer := fun n => nth n script quiet.

Definition reads (b : bytes) : Reply := mkReply (ReadData (Some b)) true true [] 0.

Definition notifies (b : bytes) : Reply := mkReply (ReadData (Some [])) true true [Some b] 0.

(** A peer that answers the first poll with the length 42 and then, while
    the first read of the data characteristic is pending, notifies the
    length 7; that read returns seven bytes. *)
Definition fickle : Peer :=
  scripted (repeat quiet 12 ++
            [ reads [x00; x00; x00; x2a];
              mkReply (ReadData (Some (Buffer_from "[1,2,3]"))) true true
                      [Some [x00; x00; x00; x07]] 0 ]).

(** A peer that has no data and notifies the length 5 while the second
    operation after the start is pending. *)
Definition late_notifier : Peer :=
  scripted [quiet; notifies [x00; x00; x00; x05]].

(** The exchange state when the read loop starts with nothing learnt. *)
Definition nothing_learnt : State := mkState 1700000000000 0 true 0 [].

(** A parser that rejects everything, for runs that never reach it or only
    need it to fail. *)
Definition reject_all : string -> string + JSON := fun _ => inl "Unexpected token".

Definition initial : State := mkState 1700000000000 0 false 0 [].

Definition sample_request : bytes := requestBytes 1700000000000 "Shelly.GetStatus" None.

(** ** The command line, the scan and the discovery

    The parts of the program around the exchange: the UUID constants, the
    command line, the two listeners for noble's [discover] event, the lookup
    of the characteristics and the selection menu.  A scan is given by the
    peripherals noble reports before the scan's timer fires, in the order
    of the reports; a scan that noble refuses to start is not modelled. *)

(** [c.toLowerCase()] for one ASCII character.  Only the letters A to Z are
    lowered: the texts the program lowers are hexadecimal addresses and
    UUIDs.  The bytes of a character outside ASCII are left as they are,
    where JavaScript lowers every cased character and may even lengthen the
    text (U+0130); the model is JavaScript's on ASCII text only. *)
Definition lower (c : ascii) : ascii :=
  let n := N_of_ascii c in
  if (65 <=? n)%N && (n <=? 90)%N then ascii_of_N (n + 32) else c.

(** [s.toLowerCase()] for a text of ASCII characters. *)
Fixpoint String_toLowerCase (s : string) : string :=
  match s with
  | EmptyString => EmptyString
  | String c rest => String (lower c) (String_toLowerCase rest)
  end.

(** [s.replace(/-/g, '')] *)
Fixpoint remove_hyphens (s : string) : string :=
  match s with
  | EmptyString => EmptyString
  | String c rest =>
      if Ascii.eqb c "-" then remove_hyphens rest
      else String c (remove_hyphens rest)
  end.

Definition normalizeUuid (uuidWithHyphens : string) : string :=
  String_toLowerCase (remove_hyphens uuidWithHyphens).

Definition SHELLY_GATT_SERVICE_UUID : string := "5f6d4f53-5f52-5043-5f53-56435f49445f".
Definition RPC_CHAR_DATA_UUID : string := "5f6d4f53-5f52-5043-5f64-6174615f5f5f".
Definition RPC_CHAR_TX_CTL_UUID : string := "5f6d4f53-5f52-5043-5f74-785f63746c5f".
Definition RPC_CHAR_RX_CTL_UUID : string := "5f6d4f53-5f52-5043-5f72-785f63746c5f".

Definition TARGET_SERVICE : string := normalizeUuid SHELLY_GATT_SERVICE_UUID.
Definition UUID_DATA : string := normalizeUuid RPC_CHAR_DATA_UUID.
Definition UUID_TXCTL : string := normalizeUuid RPC_CHAR_TX_CTL_UUID.
Definition UUID_RXCTL : string := normalizeUuid RPC_CHAR_RX_CTL_UUID.

(** *** parseArgs *)

(** The object [parseArgs] returns; [None] is [null]. *)
Record Args : Type := mkArgs {
  a_address : option string;
  a_name : option string;
  a_method : option string;
  a_params : option string;
  a_scan : bool
}.

Definition set_address (v : string) (args : Args) : Args :=
  mkArgs (Some v) (a_name args) (a_method args) (a_params args) (a_scan args).

Definition set_name (v : string) (args : Args) : Args :=
  mkArgs (a_address args) (Some v) (a_method args) (a_params args) (a_scan args).

Definition set_method (v : string) (args : Args) : Args :=
  mkArgs (a_address args) (a_name args) (Some v) (a_params args) (a_scan args).

Definition set_params (v : string) (args : Args) : Args :=
  mkArgs (a_address args) (a_name args) (a_method args) (Some v) (a_scan args).

Definition set_scan (args : Args) : Args :=
  mkArgs (a_address args) (a_name args) (a_method args) (a_params args) true.

(** The truthiness of a string: it is not the empty string. *)
Definition nonempty (s : string) : bool := negb (String.eqb s "").

(** The loop of [parseArgs] from the argument at index [i] on, [argv] being
    the arguments from that index: [argv[i + 1]] is the head of [rest], and
    [i += 1] in a branch skips it. *)
Fixpoint parseArgs_from (argv : list string) (args : Args) : Args :=
  match argv with
  | [] => args
  | arg :: rest =>
      match rest with
      | value :: rest' =>
          if String.eqb arg "--address" && nonempty value then
            parseArgs_from rest' (set_address value args)
          else if String.eqb arg "--name" && nonempty value then
            parseArgs_from rest' (set_name value args)
          else if String.eqb arg "--method" && nonempty value then
            parseArgs_from rest' (set_method value args)
          else if String.eqb arg "--params" && nonempty value then
            parseArgs_from rest' (set_params value args)
          else if String.eqb arg "--scan" then parseArgs_from rest (set_scan args)
          else parseArgs_from rest args
      | [] =>
          if String.eqb arg "--scan" then set_scan args else args
      end
  end.

Definition no_args : Args := mkArgs None None None None false.

(** [parseArgs(argv)]: the loop starts at index 2. *)
Definition parseArgs (argv : list string) : Args :=
  parseArgs_from (skipn 2 argv) no_args.

(** [tryParseJson(text)]; [None] is the thrown
    [Error('Failed to parse --params as JSON')]. *)
Definition tryParseJson (JSON_parse : string -> string + JSON) (text : option string)
    : option JSON :=
  match text with
  | Some t =>
      if nonempty t then
        match JSON_parse t with
        | inr v => Some v
        | inl _ => None
        end
      else Some JNull
  | None => Some JNull
  end.

(** Line 468 of [main]: [paramsArg ? tryParseJson(paramsArg) : null]. *)
Definition initialParamsObject (JSON_parse : string -> string + JSON)
    (paramsArg : option string) : option JSON :=
  match paramsArg with
  | Some t => if nonempty t then tryParseJson JSON_parse (Some t) else Some JNull
  | None => Some JNull
  end.

(** Lines 523 and 539 of [main]: [p && p.trim() ? tryParseJson(p) : {}]. *)
Definition promptedParams (JSON_parse : string -> string + JSON) (p : string)
    : option JSON :=
  if nonempty p && nonempty (String_trim p) then tryParseJson JSON_parse (Some p)
  else Some (JObj []).

(** Line 527 of [main]: the argument [currentParams || {}] of
    [sendRpcAndReceive]. *)
Definition call_params (currentParams : JSON) : JSON :=
  if truthy currentParams then currentParams else JObj [].

(** *** The discover listeners *)

(** What the program reads of a noble peripheral:
    [advertisement?.localName], [address], [id] and [rssi]; [None] is
    [undefined]. *)
Record Peripheral : Type := mkPeripheral {
  p_localName : option string;
  p_address : option string;
  p_id : option string;
  p_rssi : option Z
}.

(** The truthiness of a string that may be null or undefined. *)
Definition given (a : option string) : bool :=
  match a with
  | Some s => nonempty s
  | None => false
  end.

(** [a || b] for a string or undefined [a]. *)
Definition or_text (a : option string) (b : string) : string :=
  match a with
  | Some s => if nonempty s then s else b
  | None => b
  end.

(** [peripheral.advertisement?.localName || ''] *)
Definition advertisedName (peripheral : Peripheral) : string :=
  or_text (p_localName peripheral) "".

(** [(peripheral.address || peripheral.id || '').toLowerCase()] *)
Definition peripheral_address (peripheral : Peripheral) : string :=
  String_toLowerCase (or_text (p_address peripheral) (or_text (p_id peripheral) "")).

(** [peripheral.rssi || 0] *)
Definition peripheral_rssi (peripheral : Peripheral) : Z :=
  match p_rssi peripheral with
  | Some v => v
  | None => 0
  end.

(** The pattern matches at the start of the text, letters compared without
    their case. *)
Fixpoint matches_here (pattern text : string) : bool :=
  match pattern with
  | EmptyString => true
  | String c pattern' =>
      match text with
      | EmptyString => false
      | String d text' => Ascii.eqb (lower c) (lower d) && matches_here pattern' text'
      end
  end.

(** [/pattern/i.test(text)] for a pattern of ASCII letters. *)
Fixpoint test_ignore_case (pattern text : string) : bool :=
  matches_here pattern text ||
  match text with
  | EmptyString => false
  | String _ text' => test_ignore_case pattern text'
  end.

(** [/shelly/i.test(name)] *)
Definition shelly_test (name : string) : bool := test_ignore_case "shelly" name.

(** An entry of the list [scanForDevices] resolves with. *)
Record Device : Type := mkDevice {
  d_peripheral : Peripheral;
  d_name : string;
  d_address : string;
  d_rssi : Z
}.

(** The listener of [scanForDevices] on the pair of [devices] and
    [deviceIds]. *)
Definition scan_onDiscover (found : list Device * set string) (peripheral : Peripheral)
    : list Device * set string :=
  let (devices, deviceIds) := found in
  let name := advertisedName peripheral in
  let address := peripheral_address peripheral in
  let rssi := peripheral_rssi peripheral in
  if shelly_test name && negb (set_mem string_dec address deviceIds) then
    (devices ++ [mkDevice peripheral name address rssi],
     set_add string_dec address deviceIds)
  else found.

(** [scanForDevices(timeoutMs)] for the peripherals discovered before the
    timeout. *)
Definition scanForDevices (discovered : list Peripheral) : list Device :=
  fst (fold_left scan_onDiscover discovered ([], empty_set string)).

(** The test of the listener of [discoverShelly]:
    [matchesAddress || matchesName || looksLikeShelly]. *)
Definition discover_matches (args : Args) (peripheral : Peripheral) : bool :=
  let name := advertisedName peripheral in
  let address := peripheral_address peripheral in
  let matchesAddress :=
    given (a_address args) &&
    String.eqb address (String_toLowerCase (or_text (a_address args) "")) in
  let matchesName :=
    given (a_name args) && String.eqb name (or_text (a_name args) "") in
  let looksLikeShelly :=
    negb (given (a_address args)) && negb (given (a_name args)) && shelly_test name in
  matchesAddress || matchesName || looksLikeShelly.

(** [discoverShelly(args)] for the peripherals discovered within the 20
    seconds of the safety timeout: the listener resolves with the first
    peripheral that passes the test and is then removed; [None] is the
    rejection with [Error('Scan timeout: Shelly device not found')]. *)
Definition discoverShelly (args : Args) (discovered : list Peripheral) : option Peripheral :=
  find (discover_matches args) discovered.

(** *** The characteristics *)

(** A [Map] with string keys, in insertion order. *)
Fixpoint Map_set {V} (k : string) (v : V) (m : list (string * V)) : list (string * V) :=
  match m with
  | [] => [(k, v)]
  | (k', v') :: rest =>
      if String.eqb k' k then (k, v) :: rest else (k', v') :: Map_set k v rest
  end.

Fixpoint Map_get {V} (k : string) (m : list (string * V)) : option V :=
  match m with
  | [] => None
  | (k', v') :: rest => if String.eqb k' k then Some v' else Map_get k rest
  end.

(** [uuids.includes(u)] *)
Definition includes (uuids : list string) (u : string) : bool :=
  existsb (String.eqb u) uuids.

Section Characteristics.

(** The characteristic objects of noble and their [uuid] property. *)
Variable Characteristic : Type.
Variable uuid : Characteristic -> string.

Definition findCharsByUuid (characteristics : list Characteristic) (uuids : list string)
    : list (string * Characteristic) :=
  fold_left
    (fun map ch => if includes uuids (uuid ch) then Map_set (uuid ch) ch map else map)
    characteristics [].

(** Lines 235-249 of [sendRpcAndReceive]: the data, TX_CTL and RX_CTL
    characteristics; [None] is the thrown
    [Error('One or more required characteristics were not found')]. *)
Definition required_characteristics (characteristics : list Characteristic)
    : option (Characteristic * Characteristic * Characteristic) :=
  let wanted := [UUID_DATA; UUID_TXCTL; UUID_RXCTL] in
  let charMap := findCharsByUuid characteristics wanted in
  match Map_get UUID_DATA charMap, Map_get UUID_TXCTL charMap, Map_get UUID_RXCTL charMap with
  | Some dataChar, Some txCtlChar, Some rxCtlChar => Some (dataChar, txCtlChar, rxCtlChar)
  | _, _, _ => None
  end.

End Characteristics.

(** Line 219: [services.find(s => s.uuid.toLowerCase() ===
    TARGET_SERVICE.toLowerCase())], on the UUIDs of the services. *)
Definition find_service (services : list string) : option string :=
  find (fun u => String.eqb (String_toLowerCase u) (String_toLowerCase TARGET_SERVICE))
       services.

(** *** The selection menu *)

(** The value of a digit in a radix, if it is one. *)
Definition digit_value (radix : Z) (c : ascii) : option Z :=
  let n := Z.of_N (N_of_ascii c) in
  let v := if (48 <=? n) && (n <=? 57) then n - 48
           else if (97 <=? n) && (n <=? 122) then n - 87
           else if (65 <=? n) && (n <=? 90) then n - 55
           else radix in
  if v <? radix then Some v else None.

(** The number written by the longest prefix of digits; [acc] is the value
    of the digits read so far, [None] when none has been read. *)
Fixpoint digits (radix : Z) (s : list ascii) (acc : option Z) : option Z :=
  match s with
  | [] => acc
  | c :: rest =>
      match digit_value radix c with
      | Some d =>
          digits radix rest
                 (Some (match acc with Some a => a * radix + d | None => d end))
      | None => acc
      end
  end.

(** [parseInt(text)] without a radix; [None] is NaN.  The value is exact,
    where [parseInt] rounds a number above 2^53: the program only compares
    the result with numbers far below. *)
Definition parseInt (text : string) : option Z :=
  let s := trimStart (list_ascii_of_string text) in
  let signed :=
    match s with
    | c :: rest =>
        if Ascii.eqb c "-" then (-1, rest)
        else if Ascii.eqb c "+" then (1, rest)
        else (1, s)
    | [] => (1, s)
    end in
  let prefixed :=
    match snd signed with
    | c :: x :: rest =>
        if Ascii.eqb c "0" && (Ascii.eqb x "x" || Ascii.eqb x "X") then (16, rest)
        else (10, snd signed)
    | _ => (10, snd signed)
    end in
  match digits (fst prefixed) (snd prefixed) None with
  | Some v => Some (fst signed * v)
  | None => None
  end.

(** What [promptUserSelection] resolves with: a peripheral, the object
    [{ customAddress }], or [null]. *)
Inductive Selection : Type :=
| Chosen (peripheral : Peripheral)
| CustomAddress (customAddress : string)
| NoDevice.

(** [promptUserSelection(devices)] for the answer to the menu and, when it
    is asked for, the answer to the question for the address. *)
Definition promptUserSelection (devices : list Device) (answer customAddress : string)
    : Selection :=
  let first :=
    match devices with
    | d :: _ => Chosen (d_peripheral d)
    | [] => NoDevice
    end in
  match parseInt (String_trim answer) with
  | Some choice =>
      if (1 <=? choice) && (choice <=? Z.of_nat (List.length devices)) then
        match nth_error devices (Z.to_nat (choice - 1)) with
        | Some d => Chosen (d_peripheral d)
        | None => NoDevice
        end
      else if choice =? Z.of_nat (List.length devices) + 1 then
        CustomAddress (String_trim customAddress)
      else first
  | None => first
  end.

(** *** The choice of the peripheral in [main] *)

(** What lines 483-507 leave in [peripheral], or how they fail. *)
Inductive Target : Type :=
| Connect (peripheral : Peripheral)
| NoDevicesFound
| ScanTimeout
| NotAPeripheral (customAddress : string)
| NullSelection.

(** Lines 483-507 of [main].  [scanned] are the peripherals discovered
    during the scan of 15 seconds, [discovered] those discovered while
    [discoverShelly] listens.  [NoDevicesFound] and [ScanTimeout] are the
    two errors; [NotAPeripheral] is the object [{ customAddress }] itself,
    which is what [peripheral] is set to when the custom address is empty;
    [NullSelection] is the TypeError of reading [customAddress] of [null].
    A peripheral of noble has no property [customAddress]. *)
Definition main_peripheral (args : Args) (scanned discovered : list Peripheral)
    (answer customAddress : string) : Target :=
  if a_scan args || (negb (given (a_address args)) && negb (given (a_name args))) then
    let devices := scanForDevices scanned in
    match devices with
    | [] => NoDevicesFound
    | _ :: _ =>
        match promptUserSelection devices answer customAddress with
        | CustomAddress c =>
            if nonempty c then
              match discoverShelly (mkArgs (Some c) None None None false) discovered with
              | Some peripheral => Connect peripheral
              | None => ScanTimeout
              end
            else NotAPeripheral c
        | Chosen peripheral => Connect peripheral
        | NoDevice => NullSelection
        end
    end
  else
    match discoverShelly args discovered with
    | Some peripheral => Connect peripheral
    | None => ScanTimeout
    end.

(** *** Vocabulary of the properties of the command line and the menu *)

(** The value options of the command line. *)
Inductive Flag : Type := FAddress | FName | FMethod | FParams.

Definition flag_text (f : Flag) : string :=
  match f with
  | FAddress => "--address"
  | FName => "--name"
  | FMethod => "--method"
  | FParams => "--params"
  end.

Definition value_of (f : Flag) (args : Args) : option string :=
  match f with
  | FAddress => a_address args
  | FName => a_name args
  | FMethod => a_method args
  | FParams => a_params args
  end.

Definition Flag_eqb (f g : Flag) : bool :=
  match f, g with
  | FAddress, FAddress | FName, FName | FMethod, FMethod | FParams, FParams => true
  | _, _ => false
  end.

(** [v] comes right after [flag] somewhere in [l]. *)
Definition follows (flag v : string) (l : list string) : Prop :=
  exists pre post, l = pre ++ flag :: v :: post.

(** The entry the scan makes for a peripheral. *)
Definition entry (peripheral : Peripheral) : Device :=
  mkDevice peripheral (advertisedName peripheral) (peripheral_address peripheral)
           (peripheral_rssi peripheral).

(** The characters of a decimal numeral. *)
Definition numeral (d : Decimal.uint) : list ascii :=
  list_ascii_of_string (NilEmpty.string_of_uint d).

Definition is_digit (c : ascii) : bool :=
  match digit_value 10 c with
  | Some _ => true
  | None => false
  end.

(** No pattern begins with a digit. *)
Definition digit_free (ps : list (list ascii)) : bool :=
  forallb (fun p => match p with
                    | c :: _ => negb (is_digit c)
                    | [] => false
                    end) ps.

(** *** Vocabulary of the properties of whole runs *)

(** The subscription is left as it is. *)
Definition subscribed_alike (s s' : State) : Prop := listening s' = listening s.

(** Every action added to the trace is one suspension point. *)
Definition counted (s s' : State) : Prop :=
  exists ext, trace s' = trace s ++ ext /\ awaits s' = (awaits s + List.length ext)%nat.

(** As long as no notification carries a length, [expectedLength] is left
    as it is. *)
Definition length_kept (peer : Peer) (s s' : State) : Prop :=
  (awaits s <= awaits s')%nat /\
  (no_length_notified peer (awaits s) -> expectedLength s' = expectedLength s).

(** The bytes a reply gives to a read. *)
Definition reply_payload (r : Reply) : bytes :=
  match r_read r with
  | ReadData d => chunk_bytes d
  | ReadFail => []
  end.

(** The bytes the reads of the data characteristic in a stretch of the
    trace were answered with, in order; [k] is the suspension point of the
    first action of the stretch. *)
Fixpoint payloads (peer : Peer) (k : nat) (ext : list Action) : bytes :=
  match ext with
  | [] => []
  | a :: rest =>
      match a with
      | ARead DataChar => reply_payload (peer k)
      | _ => []
      end ++ payloads peer (S k) rest
  end.


(** The clock when the first request is built: after the read of the flush
    and the subscription. *)
Definition first_id (peer : Peer) (s : State) : Z :=
  clock s + 0 + Z.of_N (r_delay (peer (awaits s)))
          + 0 + Z.of_N (r_delay (peer (S (awaits s)))).

(** A peer that acknowledges everything, has nothing to read and notifies
    nothing. *)
Definition unresponsive (peer : Peer) (from : nat) : Prop :=
  forall n, (from <= n)%nat ->
            r_ok (peer n) = true /\ no_data (peer n) = true /\ r_notify (peer n) = [].

(** [k] polls of the length, each followed by its pause. *)
Definition polls (pause : Z) (k : nat) : list Action :=
  List.concat (repeat [ARead RxCtlChar; ASleep pause] k).

(** An action other than tearing the subscription down. *)
Definition not_unsubscribe (a : Action) : Prop := a <> AUnsubscribe.

(** An action of the exchange proper: anything but connecting and
    disconnecting. *)
Definition in_session (a : Action) : Prop := a <> AConnect /\ a <> ADisconnect.

(** Lines 251-260: the flush and the subscription. *)
Definition subscribe_phase (peer : Peer) (fuel : nat) : M unit :=
  flushChannels peer fuel ;;
  set_expectedLength 0 ;;
  subscribeNotifications peer.

(** Lines 262-392: the transmissions, the polling and the read loop, while
    the subscription is in place. *)
Definition traffic_phase (peer : Peer) (fuel : nat) (method : string)
    (paramsObject : option JSON) : M bytes :=
  send_primary peer fuel method paramsObject ;;
  poll_primary peer 30 ;;
  received <- retry_if_silent peer fuel method paramsObject [] ;;
  receive peer fuel received.

(** A read of the data characteristic or a pause. *)
Definition read_or_pause (a : Action) : Prop :=
  a = ARead DataChar \/ exists ms, a = ASleep ms.

(** *** More sample peers and devices *)

(** Two devices as a scan reports them. *)
Definition kitchen_plug : Peripheral :=
  mkPeripheral (Some "ShellyPlusPlugS-80646F") (Some "AA:BB:CC:DD:EE:01") (Some "p1") (Some (-60)).

Definition hallway_dimmer : Peripheral :=
  mkPeripheral (Some "shellydimmer2") None (Some "P2") None.

(** A device that has no Shelly service. *)
Definition foreign_device : Peer :=
  scripted [quiet; quiet; mkReply (ReadData None) true false [] 0].



(** *** Where the model's numbers and letters are JavaScript's *)



(** A text of ASCII characters; [toLowerCase] changes nothing but the
    letters A to Z in it. *)
Definition ascii_only (s : string) : bool :=
  forallb (fun c => (N_of_ascii c <? 128)%N) (list_ascii_of_string s).

(** *** Sample peers and parsers for the resend and the decoding *)

(** A peer that notifies the length 42 while the first poll of RX_CTL is
    pending, and answers that poll with the length 0. *)
Definition overtaken : Peer :=
  scripted (repeat quiet 12 ++
            [ mkReply (ReadData (Some [x00; x00; x00; x00])) true true
                      [Some [x00; x00; x00; x2a]] 0 ]).

(** The state of the exchange with that peer when the polling begins. *)
Definition polling_begins : State :=
  snd ((subscribe_phase overtaken 100 ;;
        send_primary overtaken 100 "Shelly.GetStatus" None) initial).

(** A parser for texts that are cut short: it rejects them with the
    message V8 has for a text that ends where a value is expected. *)
Definition cut_short : string -> string + JSON :=
  fun _ => inl "Unexpected end of JSON input".

(** ** The length codec *)

Lemma byteZ_range (b : byte) : 0 <= byteZ b < 256.
Proof. unfold byteZ. destruct b; vm_compute; split; congruence. Qed.

Lemma byteZ_of_Z (z : Z) : byteZ (byte_of_Z z) = z mod 256.
Proof.
  unfold byteZ, byte_of_Z.
  assert (H : 0 <= z mod 256 < 256) by (apply Z.mod_pos_bound; lia).
  destruct (Byte.of_N (Z.to_N (z mod 256))) as [b|] eqn:E.
  - apply Byte.to_of_N in E. rewrite E. lia.
  - apply Byte.of_N_None_iff in E. lia.
Qed.

Lemma land_shifted_low (hi lo n : Z) :
  0 <= n -> 0 <= lo < 2 ^ n -> Z.land (hi * 2 ^ n) lo = 0.
Proof.
  intros Hn Hlo.
  destruct (Z.eq_dec lo 0) as [->|Hnz]; [apply Z.land_0_r|].
  apply Z.bits_inj'. intros k Hk. rewrite Z.land_spec, Z.bits_0.
  destruct (Z.ltb_spec k n).
  - rewrite Z.mul_pow2_bits_low by lia. reflexivity.
  - rewrite (Z.bits_above_log2 lo k); [apply andb_false_r | lia |].
    apply Z.log2_lt_pow2; [lia|].
    apply Z.lt_le_trans with (2 ^ n); [lia|]. apply Z.pow_le_mono_r; lia.
Qed.

Lemma lor_shiftl_add (hi lo : Z) (n : Z) :
  0 <= n -> 0 <= lo < 2 ^ n -> Z.lor (Z.shiftl hi n) lo = hi * 2 ^ n + lo.
Proof.
  intros Hn Hlo.
  rewrite Z.shiftl_mul_pow2 by lia.
  pose proof (land_shifted_low hi lo n Hn Hlo) as Hd.
  rewrite <- Z.lxor_lor by exact Hd.
  symmetry. apply Z.add_nocarry_lxor. exact Hd.
Qed.

(** The value read from four bytes is their big-endian sum. *)
Lemma readUInt32BE_sum (b0 b1 b2 b3 : byte) (rest : bytes) :
  readUInt32BE (b0 :: b1 :: b2 :: b3 :: rest) =
  Some (byteZ b0 * 2 ^ 24 + byteZ b1 * 2 ^ 16 + byteZ b2 * 2 ^ 8 + byteZ b3).
Proof.
  unfold readUInt32BE.
  pose proof (byteZ_range b0). pose proof (byteZ_range b1).
  pose proof (byteZ_range b2). pose proof (byteZ_range b3).
  rewrite (lor_shiftl_add (byteZ b2) (byteZ b3) 8) by lia.
  rewrite (lor_shiftl_add (byteZ b1) _ 16) by lia.
  rewrite (lor_shiftl_add (byteZ b0) _ 24) by lia.
  f_equal. lia.
Qed.

Lemma readUInt32BE_range (b : bytes) (v : Z) :
  readUInt32BE b = Some v -> 0 <= v < 2 ^ 32.
Proof.
  destruct b as [|b0 [|b1 [|b2 [|b3 rest]]]]; try discriminate.
  rewrite readUInt32BE_sum. intros [= <-].
  pose proof (byteZ_range b0). pose proof (byteZ_range b1).
  pose proof (byteZ_range b2). pose proof (byteZ_range b3). lia.
Qed.

Lemma readUInt32BE_some (b : bytes) :
  4 <= blen b -> exists v, readUInt32BE b = Some v.
Proof.
  unfold blen. destruct b as [|b0 [|b1 [|b2 [|b3 rest]]]]; simpl List.length; try lia.
  intros _. eexists. reflexivity.
Qed.

Lemma writeUInt32BE_sum (n : Z) :
  0 <= n < 2 ^ 32 ->
  exists b0 b1 b2 b3,
    writeUInt32BE n = Some [b0; b1; b2; b3] /\
    byteZ b0 * 2 ^ 24 + byteZ b1 * 2 ^ 16 + byteZ b2 * 2 ^ 8 + byteZ b3 = n.
Proof.
  intros Hn. unfold writeUInt32BE.
  replace ((0 <=? n) && (n <? 2 ^ 32)) with true
    by (symmetry; apply andb_true_iff; split; [apply Z.leb_le | apply Z.ltb_lt]; lia).
  do 4 eexists. split; [reflexivity|].
  rewrite !byteZ_of_Z, !Z.shiftr_div_pow2 by lia.
  change (2 ^ 24) with 16777216. change (2 ^ 16) with 65536.
  change (2 ^ 8) with 256. change (2 ^ 32) with 4294967296 in Hn.
  Z.div_mod_to_equations. lia.
Qed.

(** ** How computations move the state *)

Lemma evolves_refl (P : Action -> Prop) (s : State) : evolves P s s.
Proof.
  unfold evolves. repeat split; try lia. exists []. rewrite app_nil_r. auto.
Qed.

Lemma evolves_trans (P : Action -> Prop) (a b c : State) :
  evolves P a b -> evolves P b c -> evolves P a c.
Proof.
  intros (H1 & H2 & e1 & E1 & F1) (H3 & H4 & e2 & E2 & F2).
  unfold evolves. repeat split; try lia.
  exists (e1 ++ e2). rewrite E2, E1, app_assoc. split; [reflexivity|].
  apply Forall_app. auto.
Qed.

Section Laws.

Variable P : Action -> Prop.

Lemma preserves_ret {A} (a : A) : preserves (evolves P) (ret a).
Proof. intros s. apply evolves_refl. Qed.

Lemma preserves_raise {A} (e : Error) : preserves (evolves P) (@raise A e).
Proof. intros s. apply evolves_refl. Qed.

Lemma preserves_out_of_fuel {A} : preserves (evolves P) (@out_of_fuel A).
Proof. intros s. apply evolves_refl. Qed.

Lemma preserves_lift_opt {A} (o : option A) : preserves (evolves P) (lift_opt o).
Proof. destruct o; intros s; apply evolves_refl. Qed.

Lemma preserves_Date_now : preserves (evolves P) Date_now.
Proof. intros s. apply evolves_refl. Qed.

Lemma preserves_get_expectedLength : preserves (evolves P) get_expectedLength.
Proof. intros s. apply evolves_refl. Qed.

Lemma preserves_set_expectedLength (v : Z) : preserves (evolves P) (set_expectedLength v).
Proof.
  intros s. unfold evolves. simpl. repeat split; try lia.
  exists []. rewrite app_nil_r. auto.
Qed.

Lemma preserves_set_listening (b : bool) : preserves (evolves P) (set_listening b).
Proof.
  intros s. unfold evolves. simpl. repeat split; try lia.
  exists []. rewrite app_nil_r. auto.
Qed.

Lemma preserves_emit (a : Action) : P a -> preserves (evolves P) (emit a).
Proof.
  intros Ha s. unfold evolves. simpl. repeat split; try lia.
  exists [a]. auto.
Qed.

Lemma preserves_bind {A B} (m : M A) (k : A -> M B) :
  preserves (evolves P) m -> (forall a, preserves (evolves P) (k a)) ->
  preserves (evolves P) (bind m k).
Proof.
  intros Hm Hk s. unfold bind. specialize (Hm s).
  destruct (m s) as [[a|e|] s']; simpl in *; auto.
  eapply evolves_trans; [exact Hm | apply Hk].
Qed.

Lemma preserves_try_catch {A} (m : M A) (h : Error -> M A) :
  preserves (evolves P) m -> (forall e, preserves (evolves P) (h e)) ->
  preserves (evolves P) (try_catch m h).
Proof.
  intros Hm Hh s. unfold try_catch. specialize (Hm s).
  destruct (m s) as [[a|e|] s']; simpl in *; auto.
  eapply evolves_trans; [exact Hm | apply Hh].
Qed.

Lemma preserves_suspend (peer : Peer) (a : Action) (ms : Z) :
  P a -> 0 <= ms -> preserves (evolves P) (suspend peer a ms).
Proof.
  intros Ha Hms s. unfold evolves. simpl. repeat split; try lia.
  exists [a]. auto.
Qed.

End Laws.

Lemma backoff_range (k : Z) : 0 <= k -> 200 <= backoff k <= 500.
Proof. unfold backoff. lia. Qed.

(** Splits a goal [preserves (evolves P) m] along the structure of [m];
    [solve_action] proves that an emitted action satisfies [P]. *)
Ltac pres_with solve_action :=
  repeat first
    [ apply preserves_ret
    | apply preserves_raise
    | apply preserves_out_of_fuel
    | apply preserves_lift_opt
    | apply preserves_Date_now
    | apply preserves_get_expectedLength
    | apply preserves_set_expectedLength
    | apply preserves_set_listening
    | apply preserves_emit; solve_action
    | apply preserves_suspend; [solve_action | try lia]
    | apply preserves_bind; [| intros ?]
    | apply preserves_try_catch; [| intros ?]
    | match goal with
      | |- preserves _ (if ?b then _ else _) => destruct b
      | |- preserves _ (match ?x with _ => _ end) => destruct x
      | |- preserves _ (let _ := _ in _) => cbv zeta
      end
    | eassumption
    | solve [auto] ].

Ltac pres := pres_with ltac:(first [assumption | exact I | exact eq_refl | reflexivity | solve [auto]]).

(** Runs the monadic plumbing of a goal down to the peer's replies. *)
Ltac mrun :=
  cbv beta iota zeta delta
    [bind ret raise out_of_fuel try_catch try_finally lift_opt Date_now
     get_expectedLength set_expectedLength set_listening emit suspend sleep
     readCharacteristic char_write writeWithResponse subscribeNotifications
     unsubscribeRxNotify];
  cbn [clock awaits listening expectedLength trace fst snd r_read r_ok r_found r_notify r_delay].

Ltac mrun_in H :=
  cbv beta iota zeta delta
    [bind ret raise out_of_fuel try_catch try_finally lift_opt Date_now
     get_expectedLength set_expectedLength set_listening emit suspend sleep
     readCharacteristic char_write writeWithResponse subscribeNotifications
     unsubscribeRxNotify] in H;
  cbn [clock awaits listening expectedLength trace fst snd r_read r_ok r_found r_notify r_delay] in H.

Section Footprints.

Variable peer : Peer.
Variable JSON_parse : string -> string + JSON.
Variable P : Action -> Prop.

Lemma drain_evolves (fuel : nat) (len drained deadline : Z) :
  P (ARead DataChar) ->
  preserves (evolves P) (drain peer fuel len drained deadline).
Proof.
  intros HP. revert drained. induction fuel as [|fuel IH]; intros drained; simpl.
  - pres.
  - pres.
Qed.

Hypothesis P_read : forall c, P (ARead c).
Hypothesis P_sleep : forall ms, P (ASleep ms).

Lemma flushChannels_evolves (fuel : nat) :
  preserves (evolves P) (flushChannels peer fuel).
Proof.
  unfold flushChannels. pres. apply drain_evolves. auto.
Qed.

Lemma poll_primary_evolves (left : nat) :
  preserves (evolves P) (poll_primary peer left).
Proof.
  induction left as [|left IH]; simpl.
  - pres.
  - pres.
Qed.

Lemma poll_retry_evolves (left : nat) :
  preserves (evolves P) (poll_retry peer left).
Proof.
  induction left as [|left IH]; simpl.
  - pres.
  - pres.
Qed.

Lemma read_once_evolves (received : bytes) (consecutiveEmpty : Z) :
  0 <= consecutiveEmpty ->
  preserves (evolves P) (read_once peer received consecutiveEmpty).
Proof.
  intros H. pose proof (backoff_range (consecutiveEmpty + 1)).
  unfold read_once. pres.
Qed.

Lemma read_once_counter (received : bytes) (consecutiveEmpty : Z) (s : State) :
  0 <= consecutiveEmpty ->
  forall st s', read_once peer received consecutiveEmpty s = (Ret st, s') -> 0 <= snd st.
Proof.
  intros H st s'. unfold read_once. mrun.
  destruct (r_read (peer (awaits s))) as [|d]; mrun.
  - intros [= <- _]. simpl. lia.
  - destruct (0 <? chunk_length d); mrun; intros [= <- _]; simpl; lia.
Qed.

Lemma read_loop_evolves (fuel : nat) (bestEffort : bool) (startedData maxDurationMs : Z)
    (received : bytes) (consecutiveEmpty : Z) :
  0 <= consecutiveEmpty ->
  preserves (evolves P)
    (read_loop peer fuel bestEffort startedData maxDurationMs received consecutiveEmpty).
Proof.
  revert received consecutiveEmpty.
  induction fuel as [|fuel IH]; intros received consecutiveEmpty Hce; simpl.
  - pres.
  - apply preserves_bind; [pres | intros el].
    apply preserves_bind; [pres | intros now].
    destruct (_ || _); [|pres].
    destruct (_ <? _); [pres|].
    intros s. unfold bind.
    pose proof (read_once_evolves received consecutiveEmpty Hce s) as H1.
    pose proof (read_once_counter received consecutiveEmpty s Hce) as H2.
    destruct (read_once peer received consecutiveEmpty s) as [[st| |] s1]; simpl in *; auto.
    eapply evolves_trans; [exact H1|]. apply IH. eapply H2. reflexivity.
Qed.

Lemma receive_evolves (fuel : nat) (received : bytes) :
  preserves (evolves P) (receive peer fuel received).
Proof.
  unfold receive. pres. apply read_loop_evolves. lia.
Qed.

Lemma write_chunks_evolves (fuel : nat) (send : bytes -> M unit) (gap : Z)
    (mtu : nat) (buf : bytes) (offset : nat) :
  (forall c, preserves (evolves P) (send c)) -> 0 <= gap ->
  preserves (evolves P) (write_chunks peer fuel send gap mtu buf offset).
Proof.
  intros Hsend Hgap. revert offset.
  induction fuel as [|fuel IH]; intros offset; simpl.
  - pres.
  - pres.
Qed.

Lemma decode_response_evolves (received : bytes) :
  (forall text, P (AConsoleError text)) ->
  preserves (evolves P) (decode_response JSON_parse received).
Proof. intros H. unfold decode_response. pres. Qed.

End Footprints.

(** ** Chunking *)

Lemma chunk_list_enough (mtu : nat) :
  (0 < mtu)%nat ->
  forall n m rest,
    (List.length rest <= n)%nat -> (List.length rest <= m)%nat ->
    chunk_list n mtu rest = chunk_list m mtu rest.
Proof.
  intros Hmtu. induction n as [|n IH]; intros m rest Hn Hm.
  - destruct rest; [|simpl in Hn; lia]. destruct m; reflexivity.
  - destruct rest as [|b rest]; [destruct m; reflexivity|].
    destruct m as [|m]; [simpl in Hm; lia|].
    cbn [chunk_list]. f_equal.
    assert (Hs : (List.length (skipn mtu (b :: rest)) <= List.length rest)%nat).
    { rewrite length_skipn. cbn [List.length]. lia. }
    cbn [List.length] in Hn, Hm. apply IH; lia.
Qed.

Lemma chunk_list_concat (mtu : nat) :
  (0 < mtu)%nat ->
  forall n rest, (List.length rest <= n)%nat -> List.concat (chunk_list n mtu rest) = rest.
Proof.
  intros Hmtu. induction n as [|n IH]; intros rest Hn.
  - destruct rest; [reflexivity | simpl in Hn; lia].
  - destruct rest as [|b rest]; [reflexivity|].
    cbn [chunk_list List.concat]. rewrite IH.
    + apply firstn_skipn.
    + rewrite length_skipn. cbn [List.length] in *. lia.
Qed.

Lemma chunk_list_bounded (mtu : nat) :
  (0 < mtu)%nat ->
  forall n rest,
    Forall (fun c => (0 < List.length c <= mtu)%nat) (chunk_list n mtu rest).
Proof.
  intros Hmtu. induction n as [|n IH]; intros rest; [constructor|].
  destruct rest as [|b rest]; [constructor|].
  cbn [chunk_list]. constructor; [|apply IH].
  rewrite length_firstn. cbn [List.length]. lia.
Qed.

(** The i-th chunk is the slice at offset [i * mtu]. *)
Lemma chunk_list_nth (mtu : nat) :
  (0 < mtu)%nat ->
  forall n buf offset i,
    (i < List.length (chunk_list n mtu (skipn offset buf)))%nat ->
    nth i (chunk_list n mtu (skipn offset buf)) [] =
    slice buf (offset + i * mtu) (offset + i * mtu + mtu).
Proof.
  intros Hmtu. induction n as [|n IH]; intros buf offset i Hi.
  - simpl in Hi. lia.
  - cbn [chunk_list] in *.
    destruct (skipn offset buf) as [|b rest] eqn:E; [simpl in Hi; lia|].
    destruct i as [|i].
    + cbn [nth]. unfold slice. rewrite Nat.mul_0_l, Nat.add_0_r, E.
      f_equal. lia.
    + cbn [nth]. rewrite <- E, skipn_skipn in *. simpl in Hi.
      rewrite IH by lia. f_equal; lia.
Qed.

Lemma skipn_nonempty {A} (l : list A) (k : nat) :
  (k <? List.length l)%nat = true <-> skipn k l <> [].
Proof.
  rewrite Nat.ltb_lt. split.
  - intros H E. apply (f_equal (@List.length A)) in E.
    rewrite length_skipn in E. simpl in E. lia.
  - intros H. destruct (Nat.lt_ge_cases k (List.length l)) as [|Hge]; [assumption|].
    exfalso. apply H. apply skipn_all2. exact Hge.
Qed.

Section Sending.

Variable peer : Peer.

Lemma write_chunks_trace (withoutResponse : bool) (gap : Z) (mtu : nat) (buf : bytes) :
  (0 < mtu)%nat ->
  forall fuel offset s,
    (List.length (skipn offset buf) < fuel)%nat ->
    acknowledges peer (awaits s) ->
    exists s',
      write_chunks peer fuel (fun c => char_write peer DataChar c withoutResponse)
                   gap mtu buf offset s = (Ret tt, s') /\
      trace s' = trace s ++
                 chunk_writes withoutResponse gap (chunk_list fuel mtu (skipn offset buf)) /\
      (awaits s <= awaits s')%nat /\
      listening s' = listening s.
Proof.
  intros Hmtu. induction fuel as [|fuel IH]; intros offset s Hfuel Hack; [lia|].
  cbn [write_chunks chunk_list].
  destruct (offset <? List.length buf)%nat eqn:E.
  - assert (Hne : skipn offset buf <> []) by (apply skipn_nonempty; exact E).
    destruct (skipn offset buf) as [|b rest] eqn:Es; [congruence|].
    mrun. rewrite (Hack (awaits s)) by lia. mrun.
    match goal with |- context [write_chunks _ _ _ _ _ _ _ ?st] => set (s1 := st) end.
    assert (Hskip : skipn (offset + mtu) buf = skipn mtu (b :: rest))
      by (rewrite <- Es, skipn_skipn; f_equal; lia).
    destruct (IH (offset + mtu)%nat s1) as (s' & Hrun & Htr & Haw & Hl).
    { rewrite Hskip, length_skipn. cbn [List.length] in *. lia. }
    { intros n Hn. apply Hack. subst s1. cbn [awaits] in Hn. lia. }
    exists s'. split; [exact Hrun|]. split; [|split].
    + rewrite Htr, Hskip. subst s1. cbn [trace].
      unfold slice. rewrite Es.
      replace (offset + mtu - offset)%nat with mtu by lia.
      unfold chunk_writes. cbn [flat_map].
      rewrite <- !app_assoc. reflexivity.
    + subst s1. cbn [awaits] in Haw. lia.
    + rewrite Hl. subst s1. reflexivity.
  - assert (Hnil : skipn offset buf = []).
    { destruct (skipn offset buf) eqn:Es; [reflexivity|].
      assert (skipn offset buf <> []) by congruence.
      apply skipn_nonempty in H. congruence. }
    rewrite Hnil. exists s. mrun. repeat split; auto.
    unfold chunk_writes. simpl. rewrite app_nil_r. reflexivity.
Qed.

Lemma send_frame_trace (fuel : nat) (req : bytes) (settle : Z)
    (withoutResponse : bool) (gap : Z) (mtu : nat) (s : State) :
  (0 < mtu)%nat -> blen req < 2 ^ 32 -> (List.length req < fuel)%nat ->
  acknowledges peer (awaits s) ->
  exists lenBuf s',
    writeUInt32BE (blen req) = Some lenBuf /\
    send_frame peer fuel req settle
               (fun c => char_write peer DataChar c withoutResponse) gap mtu s
      = (Ret tt, s') /\
    trace s' = trace s ++ AWrite TxCtlChar lenBuf false :: ASleep settle ::
                          chunk_writes withoutResponse gap (chunks mtu req) /\
    listening s' = listening s.
Proof.
  intros Hmtu Hlen Hfuel Hack.
  destruct (writeUInt32BE_sum (blen req)) as (b0 & b1 & b2 & b3 & Hw & _);
    [unfold blen in *; lia|].
  exists [b0; b1; b2; b3]. unfold send_frame. rewrite Hw. mrun.
  rewrite (Hack (awaits s)) by lia. mrun.
  match goal with |- context [write_chunks _ _ _ _ _ _ _ ?st] => set (s1 := st) end.
  destruct (write_chunks_trace withoutResponse gap mtu req Hmtu fuel 0%nat s1)
    as (s' & Hrun & Htr & _ & Hl).
  { rewrite skipn_O. exact Hfuel. }
  { intros n Hn. apply Hack. subst s1. cbn [awaits] in Hn. lia. }
  exists s'. split; [reflexivity|]. split; [exact Hrun|]. split.
  - rewrite Htr. subst s1. cbn [trace]. rewrite skipn_O.
    unfold chunks. rewrite (chunk_list_enough mtu Hmtu fuel (List.length req)) by lia.
    rewrite <- !app_assoc. reflexivity.
  - rewrite Hl. subst s1. reflexivity.
Qed.

End Sending.

Lemma data_written_app (tr ext : list Action) :
  data_written (tr ++ ext) = data_written tr ++ data_written ext.
Proof. unfold data_written. apply flat_map_app. Qed.

Lemma data_written_chunk_writes (w : bool) (gap : Z) (cs : list bytes) :
  data_written (chunk_writes w gap cs) = List.concat cs.
Proof.
  induction cs as [|c cs IH]; [reflexivity|].
  change (chunk_writes w gap (c :: cs))
    with ([AWrite DataChar c w; ASleep gap] ++ chunk_writes w gap cs).
  rewrite data_written_app, IH. cbn [List.concat].
  unfold data_written. cbn [flat_map]. rewrite !app_nil_r. reflexivity.
Qed.

Lemma send_primary_frame (peer : Peer) (fuel : nat) (method : string)
    (paramsObject : option JSON) (s : State) :
  send_primary peer fuel method paramsObject s =
  send_frame peer fuel (requestBytes (clock s) method paramsObject) 1000
             (fun c => char_write peer DataChar c false) 15 20 s.
Proof. reflexivity. Qed.

Lemma send_retry_frame (peer : Peer) (fuel : nat) (method : string)
    (paramsObject : option JSON) (s : State) :
  send_retry peer fuel method paramsObject s =
  send_frame peer fuel (requestBytes (clock s) method paramsObject) 500
             (fun c => char_write peer DataChar c false) 25 20 s.
Proof. reflexivity. Qed.

(** ** C5: the length prefix and the chunks *)

(** C5.  For every payload (shorter than 2^32 bytes, as every buffer is) and
    every chunk size, against a peer that acknowledges the writes, the
    transmitter first writes the four-byte big-endian length of the payload
    on TX_CTL, waits, and then writes the chunks of the payload on the data
    characteristic: each chunk has at most [mtu] bytes, the i-th chunk is the
    slice at offset [i * mtu], and the chunks concatenated are the payload,
    so the bytes put on the data characteristic are exactly the payload.
    Both transmissions of [sendRpcAndReceive] are this transmitter with
    chunks of 20 bytes. *)
Theorem send_frame_length_then_chunks
    (peer : Peer) (fuel : nat) (payload : bytes) (settle : Z)
    (withoutResponse : bool) (gap : Z) (mtu : nat) (s : State) :
  (0 < mtu)%nat -> blen payload < 2 ^ 32 -> (List.length payload < fuel)%nat ->
  acknowledges peer (awaits s) ->
  exists b0 b1 b2 b3 s',
    byteZ b0 * 2 ^ 24 + byteZ b1 * 2 ^ 16 + byteZ b2 * 2 ^ 8 + byteZ b3 = blen payload /\
    send_frame peer fuel payload settle
               (fun c => char_write peer DataChar c withoutResponse) gap mtu s
      = (Ret tt, s') /\
    trace s' = trace s ++ AWrite TxCtlChar [b0; b1; b2; b3] false :: ASleep settle ::
                          chunk_writes withoutResponse gap (chunks mtu payload) /\
    List.concat (chunks mtu payload) = payload /\
    Forall (fun c => (0 < List.length c <= mtu)%nat) (chunks mtu payload) /\
    (forall i, (i < List.length (chunks mtu payload))%nat ->
               nth i (chunks mtu payload) [] = slice payload (i * mtu) (i * mtu + mtu)) /\
    data_written (trace s') = data_written (trace s) ++ payload /\
    (forall method paramsObject,
        send_primary peer fuel method paramsObject s =
        send_frame peer fuel (requestBytes (clock s) method paramsObject) 1000
                   (fun c => char_write peer DataChar c false) 15 20 s /\
        send_retry peer fuel method paramsObject s =
        send_frame peer fuel (requestBytes (clock s) method paramsObject) 500
                   (fun c => char_write peer DataChar c false) 25 20 s).
Proof.
  intros Hmtu Hlen Hfuel Hack.
  destruct (writeUInt32BE_sum (blen payload)) as (b0 & b1 & b2 & b3 & Hw & Hsum);
    [unfold blen in *; lia|].
  destruct (send_frame_trace peer fuel payload settle withoutResponse gap mtu s
              Hmtu Hlen Hfuel Hack) as (lenBuf & s' & Hw' & Hrun & Htr & _).
  rewrite Hw in Hw'. injection Hw' as <-.
  assert (Hcat : List.concat (chunks mtu payload) = payload)
    by (apply chunk_list_concat; [exact Hmtu | lia]).
  exists b0, b1, b2, b3, s'. repeat split.
  - exact Hsum.
  - exact Hrun.
  - exact Htr.
  - exact Hcat.
  - apply chunk_list_bounded. exact Hmtu.
  - intros i Hi. unfold chunks in *.
    pose proof (chunk_list_nth mtu Hmtu (List.length payload) payload 0%nat i) as Hn.
    rewrite skipn_O in Hn. apply Hn. exact Hi.
  - rewrite Htr, data_written_app.
    change (AWrite TxCtlChar [b0; b1; b2; b3] false :: ASleep settle ::
            chunk_writes withoutResponse gap (chunks mtu payload))
      with ([AWrite TxCtlChar [b0; b1; b2; b3] false; ASleep settle] ++
            chunk_writes withoutResponse gap (chunks mtu payload)).
    rewrite data_written_app, data_written_chunk_writes, Hcat. reflexivity.
Qed.

Lemma silent_acknowledges (from : nat) : acknowledges silent from.
Proof. intros n _. reflexivity. Qed.

Lemma send_frame_length_then_chunks_witness :
  (0 < 20)%nat /\ blen sample_request < 2 ^ 32 /\
  (List.length sample_request < 100)%nat /\ acknowledges silent (awaits initial) /\
  exists s',
    send_frame silent 100 sample_request 1000
               (fun c => char_write silent DataChar c false) 15 20 initial
      = (Ret tt, s') /\
    data_written (trace s') = sample_request.
Proof.
  assert (H1 : (0 < 20)%nat) by lia.
  assert (H2 : blen sample_request < 2 ^ 32) by (vm_compute; reflexivity).
  assert (H3 : (List.length sample_request < 100)%nat) by (vm_compute; lia).
  assert (H4 : acknowledges silent (awaits initial)) by apply silent_acknowledges.
  repeat split; try assumption.
  destruct (send_frame_length_then_chunks silent 100 sample_request 1000 false 15 20
              initial H1 H2 H3 H4)
    as (b0 & b1 & b2 & b3 & s' & _ & Hrun & _ & _ & _ & _ & Hdata & _).
  exists s'. split; [exact Hrun | exact Hdata].
Defined.

(** ** C2: the write mode of the data chunks *)

Lemma send_frame_acknowledged (peer : Peer) (fuel : nat) (req : bytes) (settle gap : Z)
    (mtu : nat) :
  0 <= settle -> 0 <= gap ->
  preserves (evolves acknowledged)
    (send_frame peer fuel req settle (fun c => char_write peer DataChar c false) gap mtu).
Proof.
  intros Hs Hg. unfold send_frame. pres.
  apply write_chunks_evolves; try exact Hg; try (intros; exact I).
  intros c. pres.
Qed.

(** C2 (what the code does).  The first transmission writes every data chunk
    with [withoutResponse = false], an acknowledged write, and so does the
    second: [dataChar.write(chunk, false, cb)] asks for a response as well.
    Against a peer that never answers, the run transmits twice, and all
    eight chunks of the two transmissions are written with a response. *)
Theorem retry_chunks_written_with_response :
  (forall peer fuel method paramsObject,
      preserves (evolves acknowledged) (send_primary peer fuel method paramsObject) /\
      preserves (evolves acknowledged) (send_retry peer fuel method paramsObject)) /\
  (let s' := snd (sendRpcAndReceive silent reject_all 100 "Shelly.GetStatus" None initial) in
   tx_count (trace s') = 2%nat /\
   data_write_modes (trace s') = repeat false 8).
Proof.
  split.
  - intros peer fuel method paramsObject. split.
    + unfold send_primary. apply preserves_bind; [pres | intros id].
      apply send_frame_acknowledged; lia.
    + unfold send_retry. apply preserves_bind; [pres | intros id].
      apply send_frame_acknowledged; lia.
  - vm_compute. split; reflexivity.
Qed.

(** ** C6: flushChannels *)

Lemma announced_range (d : option bytes) : 0 <= announced d < 2 ^ 32.
Proof.
  unfold announced. destruct d as [b|]; [|lia].
  destruct (4 <=? blen b); [|lia].
  destruct (readUInt32BE b) as [v|] eqn:E; [|lia].
  apply readUInt32BE_range in E. exact E.
Qed.

Lemma drain_total (peer : Peer) (fuel : nat) :
  forall len drained deadline s,
    (Z.to_nat (len - drained) < fuel)%nat ->
    fst (drain peer fuel len drained deadline s) <> OutOfFuel.
Proof.
  induction fuel as [|fuel IH]; intros len drained deadline s Hfuel; [lia|].
  cbn [drain]. mrun.
  destruct ((drained <? len) && (clock s <? deadline)) eqn:E; [|discriminate].
  apply andb_true_iff in E. destruct E as [E1 E2]. apply Z.ltb_lt in E1.
  destruct (r_read (peer (awaits s))) as [|d]; mrun; [discriminate|].
  destruct (chunk_length d =? 0) eqn:Ec; [discriminate|].
  apply Z.eqb_neq in Ec.
  assert (0 <= chunk_length d) by (destruct d; unfold chunk_length, blen; lia).
  apply IH. lia.
Qed.

Lemma drain_reads_only (peer : Peer) (fuel : nat) (len drained deadline : Z) (s : State) :
  exists k,
    trace (snd (drain peer fuel len drained deadline s)) =
    trace s ++ repeat (ARead DataChar) k.
Proof.
  destruct (drain_evolves peer (fun a => ARead DataChar = a) fuel len
              drained deadline eq_refl s) as (_ & _ & ext & Hext & Hall).
  exists (List.length ext). rewrite Hext. f_equal.
  apply Forall_eq_repeat. exact Hall.
Qed.

Lemma flushChannels_idle (peer : Peer) (fuel : nat) (s : State) :
  pending_length (peer (awaits s)) = 0 ->
  flushChannels peer fuel s = (Ret tt, after_read peer RxCtlChar s).
Proof.
  unfold pending_length, announced, flushChannels, after_read. mrun.
  destruct (r_read (peer (awaits s))) as [|[b|]]; mrun; try reflexivity.
  destruct (4 <=? blen b); [|reflexivity].
  destruct (readUInt32BE b) as [v|]; mrun; [|reflexivity].
  intros ->. reflexivity.
Qed.

Lemma flushChannels_pending (peer : Peer) (fuel : nat) (s : State) :
  0 < pending_length (peer (awaits s)) ->
  let s1 := after_read peer RxCtlChar s in
  let d := drain peer fuel (pending_length (peer (awaits s))) 0 (clock s1 + 1000) s1 in
  flushChannels peer fuel s =
  (match fst d with OutOfFuel => OutOfFuel | _ => Ret tt end, snd d).
Proof.
  unfold pending_length, announced, flushChannels, after_read. mrun.
  destruct (r_read (peer (awaits s))) as [|[b|]]; mrun; try lia.
  destruct (4 <=? blen b); [|lia].
  destruct (readUInt32BE b) as [v|]; mrun; [|lia].
  intros Hv. replace (0 <? v) with true by (symmetry; apply Z.ltb_lt; exact Hv).
  cbn [clock].
  match goal with |- context [drain ?p ?f ?l ?d ?dl ?st] =>
    destruct (drain p f l d dl st) as [[[]|e|] s2] end; reflexivity.
Qed.

(** C6.  [flushChannels] never raises, and returns once the fuel exceeds the
    announced length.  It reads RX_CTL exactly once and then only the data
    characteristic, and it reads the data characteristic only if the RX_CTL
    read gave at least four bytes that decode to a positive length.  The
    drain loop reads no further once the drained count reaches that length
    or the deadline, one second after the RX_CTL read, has passed; a read
    that fails or returns nothing is its last; any other read adds its
    length to the count.  When no frame is pending the flush is the single
    RX_CTL read, so two flushes in a row are two RX_CTL reads and nothing
    else: no error, the data characteristic untouched, [expectedLength] and
    the subscription as they were. *)
Theorem flushChannels_best_effort (peer : Peer) (s : State) :
  let len := pending_length (peer (awaits s)) in
  let s1 := after_read peer RxCtlChar s in
  (forall fuel e, fst (flushChannels peer fuel s) <> Raise e) /\
  (forall fuel, (Z.to_nat len < fuel)%nat -> fst (flushChannels peer fuel s) = Ret tt) /\
  (forall fuel, exists k,
      trace (snd (flushChannels peer fuel s)) =
      trace s ++ ARead RxCtlChar :: repeat (ARead DataChar) k /\
      ((0 < k)%nat -> 0 < len)) /\
  (0 < len -> forall fuel,
      snd (flushChannels peer fuel s) = snd (drain peer fuel len 0 (clock s1 + 1000) s1)) /\
  (forall fuel n drained deadline st,
      n <= drained \/ deadline <= clock st ->
      drain peer (S fuel) n drained deadline st = (Ret tt, st)) /\
  (forall fuel n drained deadline st,
      drained < n -> clock st < deadline -> no_data (peer (awaits st)) = true ->
      exists o, o <> OutOfFuel /\
        drain peer (S fuel) n drained deadline st = (o, after_read peer DataChar st)) /\
  (forall fuel n drained deadline st c,
      drained < n -> clock st < deadline ->
      r_read (peer (awaits st)) = ReadData (Some c) -> 0 < blen c ->
      drain peer (S fuel) n drained deadline st =
      drain peer fuel n (drained + blen c) deadline (after_read peer DataChar st)) /\
  (len = 0 -> forall fuel,
      flushChannels peer fuel s = (Ret tt, s1) /\
      trace s1 = trace s ++ [ARead RxCtlChar] /\
      (pending_length (peer (awaits s1)) = 0 -> forall fuel',
          exists s2,
            (flushChannels peer fuel ;; flushChannels peer fuel') s = (Ret tt, s2) /\
            trace s2 = trace s ++ [ARead RxCtlChar; ARead RxCtlChar] /\
            listening s2 = listening s /\
            (listening s = false -> expectedLength s2 = expectedLength s))).
Proof.
  intros len s1.
  assert (Hrange : 0 <= len).
  { subst len. unfold pending_length. destruct (r_read (peer (awaits s))); [lia|].
    apply announced_range. }
  assert (Htr1 : trace s1 = trace s ++ [ARead RxCtlChar]) by reflexivity.
  repeat match goal with |- _ /\ _ => split end.
  - intros fuel e. destruct (Z.eq_dec len 0) as [H0|H0].
    + rewrite flushChannels_idle by exact H0. discriminate.
    + rewrite flushChannels_pending by (subst len; lia). cbv zeta.
      destruct (fst (drain _ _ _ _ _ _)); discriminate.
  - intros fuel Hfuel. destruct (Z.eq_dec len 0) as [H0|H0].
    + rewrite flushChannels_idle by exact H0. reflexivity.
    + rewrite flushChannels_pending by (subst len; lia). cbv zeta.
      pose proof (drain_total peer fuel len 0 (clock s1 + 1000) s1) as Ht.
      fold len. fold s1. cbn [fst].
      destruct (fst (drain peer fuel len 0 (clock s1 + 1000) s1)); try reflexivity.
      exfalso. apply Ht; [|reflexivity]. rewrite Z.sub_0_r. exact Hfuel.
  - intros fuel. destruct (Z.eq_dec len 0) as [H0|H0].
    + exists 0%nat. rewrite flushChannels_idle by exact H0. split; [exact Htr1 | lia].
    + rewrite flushChannels_pending by (subst len; lia). cbv zeta. cbn [snd].
      fold len. fold s1.
      destruct (drain_reads_only peer fuel len 0 (clock s1 + 1000) s1) as (k & Hk).
      exists k. split; [|lia]. rewrite Hk, Htr1, <- app_assoc. reflexivity.
  - intros Hpos fuel. rewrite flushChannels_pending by exact Hpos. reflexivity.
  - intros fuel n drained deadline st Hstop. cbn [drain]. mrun.
    replace ((drained <? n) && (clock st <? deadline)) with false; [reflexivity|].
    symmetry. apply andb_false_iff. rewrite !Z.ltb_ge. lia.
  - intros fuel n drained deadline st Hd Hc Hno. cbn [drain]. unfold after_read. mrun.
    replace ((drained <? n) && (clock st <? deadline)) with true
      by (symmetry; apply andb_true_iff; rewrite !Z.ltb_lt; lia).
    unfold no_data in Hno.
    destruct (r_read (peer (awaits st))) as [|d]; mrun.
    + eexists. split; [|reflexivity]. discriminate.
    + rewrite Hno. eexists. split; [|reflexivity]. discriminate.
  - intros fuel n drained deadline st c Hd Hc Hr Hlen. cbn [drain]. unfold after_read. mrun.
    replace ((drained <? n) && (clock st <? deadline)) with true
      by (symmetry; apply andb_true_iff; rewrite !Z.ltb_lt; lia).
    rewrite Hr. mrun. cbn [chunk_length].
    replace (blen c =? 0) with false by (symmetry; apply Z.eqb_neq; lia).
    reflexivity.
  - intros H0 fuel. split; [apply flushChannels_idle; exact H0|].
    split; [exact Htr1|].
    intros H1 fuel'. exists (after_read peer RxCtlChar s1).
    unfold bind. rewrite flushChannels_idle by exact H0. fold s1.
    rewrite flushChannels_idle by exact H1.
    split; [reflexivity|]. split; [|split].
    + unfold s1, after_read. mrun. rewrite <- app_assoc. reflexivity.
    + reflexivity.
    + unfold s1, after_read. mrun. intros ->. reflexivity.
Qed.

(** ** C9: short reads of the length characteristic *)

Lemma short_read_announces_nothing (d : option bytes) :
  short_read d -> announced d = 0.
Proof.
  unfold short_read, announced. destruct d as [b|]; [|reflexivity].
  intros H. replace (4 <=? blen b) with false; [reflexivity|].
  symmetry. apply Z.leb_gt. exact H.
Qed.

(** C9.  A notification or a read of RX_CTL that carries fewer than four
    bytes (or no buffer at all) is no signal and no error.  The handler
    keeps [expectedLength].  A flush whose read is short returns normally
    after that one read.  An iteration of either polling loop whose read is
    short ends normally, without [break], in the state the read alone
    leaves, and the loops go on to their pause; [expectedLength] is then
    what it was before the read, unless a notification of four bytes or
    more was delivered while the read was pending. *)
Theorem short_length_read_is_no_signal (peer : Peer) (s : State) (d : option bytes) :
  short_read d ->
  r_read (peer (awaits s)) = ReadData d ->
  let s1 := after_read peer RxCtlChar s in
  (forall el, onData el d = el) /\
  (forall fuel, flushChannels peer fuel s = (Ret tt, s1)) /\
  poll_primary_once peer s = (Ret false, s1) /\
  poll_retry_once peer s = (Ret tt, s1) /\
  (forall left, expectedLength s = 0 ->
     poll_primary peer (S left) s = (sleep peer 250 ;; poll_primary peer left) s1 /\
     poll_retry peer (S left) s = (sleep peer 100 ;; poll_retry peer left) s1) /\
  expectedLength s1 =
    (if listening s then fold_left onData (r_notify (peer (awaits s))) (expectedLength s)
     else expectedLength s) /\
  (Forall short_read (r_notify (peer (awaits s))) -> expectedLength s1 = expectedLength s).
Proof.
  intros Hshort Hread s1.
  assert (Hguard : forall b, d = Some b -> (4 <=? blen b) = false).
  { intros b ->. apply Z.leb_gt. exact Hshort. }
  assert (Hp : poll_primary_once peer s = (Ret false, s1)).
  { unfold poll_primary_once, s1, after_read. mrun. rewrite Hread. mrun.
    destruct d as [b|]; [rewrite (Hguard b eq_refl)|]; reflexivity. }
  assert (Hr : poll_retry_once peer s = (Ret tt, s1)).
  { unfold poll_retry_once, s1, after_read. mrun. rewrite Hread. mrun.
    destruct d as [b|]; [rewrite (Hguard b eq_refl)|]; reflexivity. }
  assert (Hhandler : forall el b, short_read b -> onData el b = el).
  { intros el [b|] Hb; [|reflexivity]. unfold onData.
    replace (blen b <? 4) with true; [reflexivity|].
    symmetry. apply Z.ltb_lt. exact Hb. }
  repeat match goal with |- _ /\ _ => split end.
  - intros el. apply Hhandler. exact Hshort.
  - intros fuel. apply flushChannels_idle.
    unfold pending_length. rewrite Hread. apply short_read_announces_nothing. exact Hshort.
  - exact Hp.
  - exact Hr.
  - intros left Hel. split.
    + cbn [poll_primary]. unfold bind at 1. unfold get_expectedLength at 1.
      rewrite Hel. cbn [Z.eqb]. unfold bind at 1. rewrite Hp. reflexivity.
    + cbn [poll_retry]. unfold bind at 1. unfold get_expectedLength at 1.
      rewrite Hel. cbn [Z.eqb]. unfold bind at 1. rewrite Hr. reflexivity.
  - reflexivity.
  - intros Hall. unfold s1, after_read. mrun.
    destruct (listening s); [|reflexivity].
    generalize (expectedLength s).
    induction Hall as [|b l Hb _ IH]; intros el; [reflexivity|].
    cbn [fold_left]. rewrite (Hhandler el b Hb). apply IH.
Qed.

Lemma short_length_read_is_no_signal_witness :
  short_read (Some []) /\
  r_read (silent (awaits initial)) = ReadData (Some []) /\
  poll_primary_once silent initial = (Ret false, after_read silent RxCtlChar initial) /\
  expectedLength (after_read silent RxCtlChar initial) = expectedLength initial.
Proof.
  assert (H1 : short_read (Some [])) by (unfold short_read, blen; simpl; lia).
  assert (H2 : r_read (silent (awaits initial)) = ReadData (Some [])) by reflexivity.
  destruct (short_length_read_is_no_signal silent initial (Some []) H1 H2)
    as (_ & _ & Hp & _ & _ & _ & Hel).
  split; [exact H1|]. split; [exact H2|]. split; [exact Hp|].
  apply Hel. constructor.
Defined.

(** ** C1: who writes [expectedLength] *)

Lemma fold_left_onData_short (l : list (option bytes)) (el : Z) :
  Forall short_read l -> fold_left onData l el = el.
Proof.
  intros Hall. revert el. induction Hall as [|b l Hb _ IH]; intros el; [reflexivity|].
  cbn [fold_left]. rewrite <- (IH el) at 2. f_equal.
  destruct b as [b|]; [|reflexivity]. unfold onData.
  replace (blen b <? 4) with true; [reflexivity|].
  symmetry. apply Z.ltb_lt. exact Hb.
Qed.

Lemma suspend_keeps_length (peer : Peer) (a : Action) (ms : Z) (s : State) :
  Forall short_read (r_notify (peer (awaits s))) ->
  expectedLength (snd (suspend peer a ms s)) = expectedLength s.
Proof.
  intros H. mrun. destruct (listening s); [|reflexivity].
  apply fold_left_onData_short. exact H.
Qed.

Lemma read_once_keeps_length (peer : Peer) (received : bytes) (ce : Z) (s : State) :
  no_length_notified peer (awaits s) ->
  expectedLength (snd (read_once peer received ce s)) = expectedLength s /\
  (awaits s <= awaits (snd (read_once peer received ce s)))%nat.
Proof.
  intros Hq.
  pose proof (suspend_keeps_length peer (ARead DataChar) 0 s (Hq _ (Nat.le_refl _))) as H1.
  set (s1 := snd (suspend peer (ARead DataChar) 0 s)) in *.
  assert (Hq1 : Forall short_read (r_notify (peer (awaits s1))))
    by (apply Hq; subst s1; cbn [suspend snd awaits]; lia).
  assert (H2 : forall ms, expectedLength (snd (suspend peer (ASleep ms) ms s1)) = expectedLength s)
    by (intros ms; rewrite suspend_keeps_length by exact Hq1; exact H1).
  unfold read_once. mrun.
  destruct (r_read (peer (awaits s))) as [|d]; mrun.
  - split; [apply (H2 250) | lia].
  - destruct (0 <? chunk_length d); mrun.
    + split; [exact H1 | lia].
    + split; [apply (H2 (backoff (ce + 1))) | lia].
Qed.

Lemma read_loop_keeps_length (peer : Peer) (fuel : nat) (bestEffort : bool)
    (startedData maxDurationMs : Z) :
  forall received ce s,
    no_length_notified peer (awaits s) ->
    expectedLength
      (snd (read_loop peer fuel bestEffort startedData maxDurationMs received ce s))
    = expectedLength s.
Proof.
  induction fuel as [|fuel IH]; intros received ce s Hq; [reflexivity|].
  cbn [read_loop]. unfold bind at 1. unfold get_expectedLength at 1.
  unfold bind at 1. unfold Date_now at 1.
  destruct (_ || _); [|reflexivity].
  destruct (_ <? _); [reflexivity|].
  unfold bind at 1.
  destruct (read_once_keeps_length peer received ce s Hq) as [H1 H2].
  destruct (read_once peer received ce s) as [[st|e|] s1]; cbn [snd] in *; try exact H1.
  rewrite IH; [exact H1|].
  intros n Hn. apply Hq. lia.
Qed.

Lemma receive_keeps_length (peer : Peer) (fuel : nat) (received : bytes) (s : State) :
  no_length_notified peer (awaits s) ->
  expectedLength (snd (receive peer fuel received s)) = expectedLength s.
Proof.
  intros Hq. unfold receive. mrun. apply read_loop_keeps_length. exact Hq.
Qed.

Lemma polls_idle_once_length_known (peer : Peer) (left : nat) (s : State) :
  expectedLength s <> 0 ->
  poll_primary peer left s = (Ret tt, s) /\ poll_retry peer left s = (Ret tt, s).
Proof.
  intros H. apply Z.eqb_neq in H.
  destruct left; cbn [poll_primary poll_retry]; mrun; rewrite ?H; split; reflexivity.
Qed.

Lemma retry_if_silent_skipped (peer : Peer) (fuel : nat) (method : string)
    (paramsObject : option JSON) (received : bytes) (s : State) :
  expectedLength s <> 0 ->
  retry_if_silent peer fuel method paramsObject received s = (Ret received, s).
Proof.
  intros H. apply Z.eqb_neq in H. unfold retry_if_silent. mrun. rewrite H. reflexivity.
Qed.

(** C1, as the code has it.  Once [expectedLength] is positive at the head
    of a polling loop, no further poll is issued: both polling loops and the
    fallback resend leave the state as it is.  The notification handler has
    no such guard: a notification of four bytes or more stores its decoded
    value whatever [expectedLength] was.  So a positive [expectedLength]
    stays as it is through the rest of the exchange (polling, the resend
    test, the read loop, unsubscribing and decoding) as long as no
    notification of four bytes or more is delivered. *)
Theorem expectedLength_changes_only_by_notification
    (peer : Peer) (JSON_parse : string -> string + JSON) (s : State) :
  0 < expectedLength s ->
  (forall left,
      poll_primary peer left s = (Ret tt, s) /\ poll_retry peer left s = (Ret tt, s)) /\
  (forall fuel method paramsObject received,
      retry_if_silent peer fuel method paramsObject received s = (Ret received, s)) /\
  (forall b, 4 <= blen b ->
      exists v, readUInt32BE b = Some v /\ onData (expectedLength s) (Some b) = v) /\
  (no_length_notified peer (awaits s) ->
   forall left fuel method paramsObject received,
     expectedLength
       (snd ((poll_primary peer left ;;
              rec <- retry_if_silent peer fuel method paramsObject received ;;
              rec' <- receive peer fuel rec ;;
              unsubscribeRxNotify ;;
              decode_response JSON_parse rec') s))
     = expectedLength s).
Proof.
  intros Hpos.
  assert (Hnz : expectedLength s <> 0) by lia.
  repeat match goal with |- _ /\ _ => split end.
  - intros left. apply polls_idle_once_length_known. exact Hnz.
  - intros. apply retry_if_silent_skipped. exact Hnz.
  - intros b Hb. destruct (readUInt32BE_some b Hb) as [v Hv].
    exists v. split; [exact Hv|]. unfold onData. rewrite Hv.
    replace (blen b <? 4) with false; [reflexivity|].
    symmetry. apply Z.ltb_ge. exact Hb.
  - intros Hq left fuel method paramsObject received.
    unfold bind at 1.
    rewrite (proj1 (polls_idle_once_length_known peer left s Hnz)).
    unfold bind at 1. rewrite retry_if_silent_skipped by exact Hnz.
    unfold bind at 1.
    pose proof (receive_keeps_length peer fuel received s Hq) as Hr.
    destruct (receive peer fuel received s) as [[rec'|e|] s2]; cbn [snd] in *;
      try exact Hr.
    unfold decode_response. mrun.
    destruct (String.eqb _ _); mrun; [exact Hr|].
    destruct (JSON_parse _); mrun; exact Hr.
Qed.

Lemma expectedLength_changes_only_by_notification_witness :
  0 < expectedLength (with_expectedLength 42 initial) /\
  poll_primary silent 30 (with_expectedLength 42 initial)
    = (Ret tt, with_expectedLength 42 initial).
Proof.
  assert (H : 0 < expectedLength (with_expectedLength 42 initial)) by (simpl; lia).
  split; [exact H|].
  apply (expectedLength_changes_only_by_notification silent reject_all _ H).
Defined.

(** C1 fails as stated: the first poll sets [expectedLength] to 42, and the
    notification that arrives during the first read of the data
    characteristic replaces it by 7, so the exchange ends after seven
    bytes with [expectedLength = 7]. *)
Lemma later_notification_overwrites_length :
  expectedLength (snd (attempt_primary fickle 100 "Shelly.GetStatus" None initial)) = 42 /\
  fst (transfer fickle 100 "Shelly.GetStatus" None initial) = Ret (Buffer_from "[1,2,3]") /\
  expectedLength (snd (transfer fickle 100 "Shelly.GetStatus" None initial)) = 7.
Proof. vm_compute. repeat split; reflexivity. Qed.

(** ** C10: the receive mode is chosen once *)

Lemma control_eq (s1 s2 : State) :
  control s1 = control s2 ->
  clock s1 = clock s2 /\ awaits s1 = awaits s2 /\ trace s1 = trace s2.
Proof. unfold control. intros [= H1 H2 H3]. auto. Qed.

Lemma read_once_mute (peer : Peer) (received : bytes) (ce : Z) (s1 s2 : State) :
  control s1 = control s2 ->
  fst (read_once peer received ce s1) = fst (read_once (mute peer) received ce s2) /\
  control (snd (read_once peer received ce s1)) =
  control (snd (read_once (mute peer) received ce s2)).
Proof.
  intros H. apply control_eq in H. destruct H as (Hc & Ha & Ht).
  unfold read_once, control, mute. mrun. rewrite <- Hc, <- Ha, <- Ht.
  destruct (r_read (peer (awaits s1))) as [|d]; mrun.
  - split; reflexivity.
  - destruct (0 <? chunk_length d); mrun; split; reflexivity.
Qed.

Lemma read_loop_S (peer : Peer) (fuel : nat) (bestEffort : bool)
    (startedData maxDurationMs : Z) (received : bytes) (ce : Z) (s : State) :
  read_loop peer (S fuel) bestEffort startedData maxDurationMs received ce s =
  if (negb bestEffort && (blen received <? expectedLength s))
     || (bestEffort && (clock s - startedData <? maxDurationMs))
  then
    if maxDurationMs <? clock s - startedData then (Ret received, s)
    else
      match read_once peer received ce s with
      | (Ret st, s') =>
          read_loop peer fuel bestEffort startedData maxDurationMs (fst st) (snd st) s'
      | (Raise e, s') => (Raise e, s')
      | (OutOfFuel, s') => (OutOfFuel, s')
      end
  else (Ret received, s).
Proof.
  cbn [read_loop]. mrun.
  destruct (_ || _); [|reflexivity].
  destruct (_ <? _); reflexivity.
Qed.

Lemma read_loop_best_effort_mute (peer : Peer) (startedData maxDurationMs : Z) (fuel : nat) :
  forall received ce s1 s2,
    control s1 = control s2 ->
    fst (read_loop peer fuel true startedData maxDurationMs received ce s1) =
    fst (read_loop (mute peer) fuel true startedData maxDurationMs received ce s2) /\
    control (snd (read_loop peer fuel true startedData maxDurationMs received ce s1)) =
    control (snd (read_loop (mute peer) fuel true startedData maxDurationMs received ce s2)).
Proof.
  induction fuel as [|fuel IH]; intros received ce s1 s2 H.
  - cbn [read_loop]. mrun. split; [reflexivity | exact H].
  - rewrite !read_loop_S. cbn [negb andb orb].
    destruct (control_eq _ _ H) as (Hc & _ & _). rewrite <- Hc.
    destruct (clock s1 - startedData <? maxDurationMs); [|split; [reflexivity | exact H]].
    destruct (maxDurationMs <? clock s1 - startedData); [split; [reflexivity | exact H]|].
    destruct (read_once_mute peer received ce s1 s2 H) as [Hf Hs].
    destruct (read_once peer received ce s1) as [[st1|e1|] t1];
      destruct (read_once (mute peer) received ce s2) as [[st2|e2|] t2];
      cbn [fst snd] in *; try discriminate;
      try (split; [congruence | exact Hs]).
    injection Hf as <-. apply IH. exact Hs.
Qed.

Lemma read_loop_best_effort_window (peer : Peer) (startedData maxDurationMs : Z) (fuel : nat) :
  forall received ce s rec' s',
    read_loop peer fuel true startedData maxDurationMs received ce s = (Ret rec', s') ->
    maxDurationMs <= clock s' - startedData.
Proof.
  induction fuel as [|fuel IH]; intros received ce s rec' s' H.
  - discriminate.
  - rewrite read_loop_S in H. cbn [negb andb orb] in H.
    destruct (clock s - startedData <? maxDurationMs) eqn:E.
    + apply Z.ltb_lt in E.
      replace (maxDurationMs <? clock s - startedData) with false in H
        by (symmetry; apply Z.ltb_ge; lia).
      destruct (read_once peer received ce s) as [[st|e|] t]; try discriminate.
      eapply IH. exact H.
    + apply Z.ltb_ge in E. injection H as _ <-. exact E.
Qed.

(** C10.  If [expectedLength] is 0 when the read loop begins, the loop runs
    in best-effort mode with the window of 5000 ms.  What it reads, what it
    returns, how long it takes and what it does are the same as against the
    peer with every notification removed: a length notified after the loop
    began changes [expectedLength] but not the loop.  The loop is left only
    when 5000 ms have passed since it began. *)
Theorem best_effort_mode_is_fixed (peer : Peer) (fuel : nat) (received : bytes) (s : State) :
  expectedLength s = 0 ->
  receive peer fuel received s = read_loop peer fuel true (clock s) 5000 received 0 s /\
  fst (receive peer fuel received s) = fst (receive (mute peer) fuel received s) /\
  control (snd (receive peer fuel received s)) =
  control (snd (receive (mute peer) fuel received s)) /\
  (forall rec' s', receive peer fuel received s = (Ret rec', s') ->
                   5000 <= clock s' - clock s).
Proof.
  intros Hel.
  assert (Hrecv : forall p, receive p fuel received s =
                            read_loop p fuel true (clock s) 5000 received 0 s).
  { intros p. unfold receive. mrun. rewrite Hel. reflexivity. }
  rewrite !Hrecv.
  destruct (read_loop_best_effort_mute peer (clock s) 5000 fuel received 0 s s eq_refl)
    as [Hf Hc].
  repeat match goal with |- _ /\ _ => split end; try assumption; try reflexivity.
  intros rec' s' H. eapply read_loop_best_effort_window. exact H.
Qed.

Lemma best_effort_mode_is_fixed_witness :
  expectedLength nothing_learnt = 0 /\
  exists rec' s',
    receive late_notifier 30 [] nothing_learnt = (Ret rec', s') /\
    expectedLength s' = 5 /\
    5000 <= clock s' - clock nothing_learnt.
Proof.
  assert (H : expectedLength nothing_learnt = 0) by reflexivity.
  split; [exact H|].
  destruct (receive late_notifier 30 [] nothing_learnt) as [o s'] eqn:E.
  pose proof (best_effort_mode_is_fixed late_notifier 30 [] nothing_learnt H) as T.
  rewrite E in T. destruct T as (_ & _ & _ & Hwin).
  vm_compute in E. injection E as <- <-.
  eexists. eexists. split; [reflexivity|]. split; [reflexivity|].
  eapply Hwin. reflexivity.
Defined.

(** ** C8: the read loop and its budget *)

(** What one pass of the read loop does, by the peer's reply. *)
Lemma read_once_cases (peer : Peer) (received : bytes) (ce : Z) (s : State) :
  let r := peer (awaits s) in
  let s1 := after_read peer DataChar s in
  match r_read r with
  | ReadFail =>
      read_once peer received ce s =
      (Ret (received, ce), snd (suspend peer (ASleep 250) 250 s1))
  | ReadData d =>
      if 0 <? chunk_length d then
        read_once peer received ce s = (Ret (received ++ chunk_bytes d, 0), s1)
      else
        read_once peer received ce s =
        (Ret (received, ce + 1),
         snd (suspend peer (ASleep (backoff (ce + 1))) (backoff (ce + 1)) s1))
  end.
Proof.
  unfold read_once, after_read. mrun.
  destruct (r_read (peer (awaits s))) as [|d]; mrun; [reflexivity|].
  destruct (0 <? chunk_length d); reflexivity.
Qed.

(** One pass always returns, and it takes between one millisecond and 500 ms
    plus the two delays. *)
Lemma read_once_progress (peer : Peer) (D : Z) (received : bytes) (ce : Z) (s : State) :
  makes_progress peer (awaits s) -> delay_bounded peer (awaits s) D -> 0 <= ce ->
  exists st s1,
    read_once peer received ce s = (Ret st, s1) /\
    0 <= snd st /\
    (awaits s <= awaits s1)%nat /\
    clock s + 1 <= clock s1 <= clock s + 500 + 2 * D.
Proof.
  intros Hprog Hbound Hce.
  pose proof (read_once_cases peer received ce s) as Hcases. cbv zeta in Hcases.
  pose proof (Hprog (awaits s) (Nat.le_refl _)) as Hp.
  pose proof (Hbound (awaits s) (Nat.le_refl _)) as Hb0.
  pose proof (Hbound (S (awaits s)) (Nat.le_succ_diag_r _)) as Hb1.
  pose proof (backoff_range (ce + 1)) as Hbo.
  assert (Hbo' : 250 <= backoff (ce + 1)) by (unfold backoff; lia).
  unfold no_data in Hp.
  destruct (r_read (peer (awaits s))) as [|d].
  - do 2 eexists. split; [exact Hcases|]. unfold after_read. mrun. lia.
  - destruct (0 <? chunk_length d) eqn:E.
    + do 2 eexists. split; [exact Hcases|]. unfold after_read. mrun.
      apply Z.ltb_lt in E.
      destruct Hp as [Hp|Hp]; [apply Z.eqb_eq in Hp; lia|]. lia.
    + do 2 eexists. split; [exact Hcases|]. unfold after_read. mrun. lia.
Qed.

Lemma read_loop_stops (peer : Peer) (fuel : nat) (bestEffort : bool)
    (startedData maxDurationMs : Z) (received : bytes) (ce : Z) (s : State) :
  keeps_reading bestEffort startedData maxDurationMs received s = false ->
  read_loop peer (S fuel) bestEffort startedData maxDurationMs received ce s
  = (Ret received, s).
Proof.
  unfold keeps_reading. rewrite read_loop_S. intros H.
  destruct (_ || _); [|reflexivity].
  destruct (_ <? _); [reflexivity | discriminate].
Qed.

Lemma read_loop_continues (peer : Peer) (fuel : nat) (bestEffort : bool)
    (startedData maxDurationMs : Z) (received : bytes) (ce : Z) (s : State)
    (st : bytes * Z) (s1 : State) :
  keeps_reading bestEffort startedData maxDurationMs received s = true ->
  read_once peer received ce s = (Ret st, s1) ->
  read_loop peer (S fuel) bestEffort startedData maxDurationMs received ce s
  = read_loop peer fuel bestEffort startedData maxDurationMs (fst st) (snd st) s1.
Proof.
  unfold keeps_reading. rewrite read_loop_S. intros H Hone.
  apply andb_true_iff in H. destruct H as [H1 H2].
  rewrite H1. apply negb_true_iff in H2. rewrite H2, Hone. reflexivity.
Qed.

Lemma keeps_reading_within_budget (bestEffort : bool) (startedData maxDurationMs : Z)
    (received : bytes) (s : State) :
  keeps_reading bestEffort startedData maxDurationMs received s = true ->
  clock s - startedData <= maxDurationMs.
Proof.
  unfold keeps_reading. intros H. apply andb_true_iff in H. destruct H as [_ H].
  apply negb_true_iff, Z.ltb_ge in H. exact H.
Qed.

Lemma read_loop_terminates (peer : Peer) (D : Z) (bestEffort : bool)
    (startedData maxDurationMs : Z) (fuel : nat) :
  forall received ce s,
    makes_progress peer (awaits s) -> delay_bounded peer (awaits s) D -> 0 <= ce ->
    (Z.to_nat (maxDurationMs - (clock s - startedData) + 1) + 1 <= fuel)%nat ->
    exists rec' s',
      read_loop peer fuel bestEffort startedData maxDurationMs received ce s
      = (Ret rec', s') /\
      keeps_reading bestEffort startedData maxDurationMs rec' s' = false /\
      clock s' - startedData <=
        Z.max (clock s - startedData) (maxDurationMs + 500 + 2 * D).
Proof.
  induction fuel as [|fuel IH]; intros received ce s Hprog Hbound Hce Hfuel; [lia|].
  destruct (keeps_reading bestEffort startedData maxDurationMs received s) eqn:Hk.
  - pose proof (keeps_reading_within_budget _ _ _ _ _ Hk) as Hin.
    destruct (read_once_progress peer D received ce s Hprog Hbound Hce)
      as (st & s1 & Hone & Hst & Haw & Hclk).
    rewrite (read_loop_continues peer fuel _ _ _ _ _ _ st s1 Hk Hone).
    destruct (IH (fst st) (snd st) s1) as (rec' & s' & Hrun & Hexit & Hover).
    + intros n Hn. apply Hprog. lia.
    + intros n Hn. apply Hbound. lia.
    + exact Hst.
    + lia.
    + exists rec', s'. split; [exact Hrun|]. split; [exact Hexit|]. lia.
  - exists received, s. split; [apply read_loop_stops; exact Hk|].
    split; [exact Hk|]. lia.
Qed.

Lemma keeps_reading_false (bestEffort : bool) (startedData maxDurationMs : Z)
    (received : bytes) (s : State) :
  keeps_reading bestEffort startedData maxDurationMs received s = false <->
  if bestEffort then maxDurationMs <= clock s - startedData
  else expectedLength s <= blen received \/ maxDurationMs < clock s - startedData.
Proof.
  unfold keeps_reading. destruct bestEffort; cbn [negb andb orb].
  - rewrite andb_false_iff, negb_false_iff, Z.ltb_ge, Z.ltb_lt. lia.
  - rewrite orb_false_r, andb_false_iff, negb_false_iff, Z.ltb_ge, Z.ltb_lt. tauto.
Qed.

(** C8, as the code has it.  The loop looks at its budget only at the head
    of an iteration.  Whatever number of reads fail or give nothing, as long
    as a read that gives data takes at least a millisecond, the loop
    returns: the known-length loop when the accumulated bytes have reached
    [expectedLength] or more than [maxDurationMs] (20 s) have passed, the
    best-effort loop when [maxDurationMs] (5 s) have passed, in both cases
    no later than the budget plus one pass (500 ms of pause plus the delays
    of the read and of the pause).  Once the exit condition holds at the
    head of an iteration nothing more is read.  A read that gives nothing is
    followed by a pause of min(200 + 50 k, 500) ms, k counting the reads
    that gave nothing since the last data; a failed read is followed by a
    pause of 250 ms; a read that gives data is followed by no pause. *)
Theorem read_loop_budget (peer : Peer) (D : Z) (bestEffort : bool)
    (startedData maxDurationMs : Z) (received : bytes) (ce : Z) (s : State) :
  makes_progress peer (awaits s) -> delay_bounded peer (awaits s) D -> 0 <= ce ->
  (forall fuel,
      (Z.to_nat (maxDurationMs - (clock s - startedData) + 1) + 1 <= fuel)%nat ->
      exists rec' s',
        read_loop peer fuel bestEffort startedData maxDurationMs received ce s
        = (Ret rec', s') /\
        (if bestEffort then maxDurationMs <= clock s' - startedData
         else expectedLength s' <= blen rec' \/ maxDurationMs < clock s' - startedData) /\
        clock s' - startedData <=
          Z.max (clock s - startedData) (maxDurationMs + 500 + 2 * D)) /\
  (forall fuel,
      (if bestEffort then maxDurationMs <= clock s - startedData
       else expectedLength s <= blen received \/ maxDurationMs < clock s - startedData) ->
      read_loop peer (S fuel) bestEffort startedData maxDurationMs received ce s
      = (Ret received, s)) /\
  (let s1 := after_read peer DataChar s in
   match r_read (peer (awaits s)) with
   | ReadFail =>
       read_once peer received ce s =
       (Ret (received, ce), snd (suspend peer (ASleep 250) 250 s1))
   | ReadData d =>
       if 0 <? chunk_length d then
         read_once peer received ce s = (Ret (received ++ chunk_bytes d, 0), s1)
       else
         read_once peer received ce s =
         (Ret (received, ce + 1),
          snd (suspend peer (ASleep (backoff (ce + 1))) (backoff (ce + 1)) s1))
   end) /\
  (forall k, backoff k = Z.min (200 + k * 50) 500) /\
  (forall fuel,
      receive peer fuel received s =
      read_loop peer fuel (expectedLength s =? 0) (clock s)
                (if expectedLength s =? 0 then 5000 else 20000) received 0 s).
Proof.
  intros Hprog Hbound Hce.
  repeat match goal with |- _ /\ _ => split end.
  - intros fuel Hfuel.
    destruct (read_loop_terminates peer D bestEffort startedData maxDurationMs fuel
                received ce s Hprog Hbound Hce Hfuel) as (rec' & s' & Hrun & Hexit & Hover).
    exists rec', s'. split; [exact Hrun|]. split; [|exact Hover].
    apply keeps_reading_false. exact Hexit.
  - intros fuel Hexit. apply read_loop_stops. apply keeps_reading_false. exact Hexit.
  - apply read_once_cases.
  - reflexivity.
  - reflexivity.
Qed.

Lemma silent_makes_progress (from : nat) : makes_progress silent from.
Proof. intros n _. left. reflexivity. Qed.

Lemma silent_delay_bounded (from : nat) : delay_bounded silent from 0.
Proof. intros n _. simpl. lia. Qed.

Lemma read_loop_budget_witness :
  makes_progress silent (awaits nothing_learnt) /\
  delay_bounded silent (awaits nothing_learnt) 0 /\
  0 <= 0 /\
  exists rec' s',
    read_loop silent (Z.to_nat 5002) true (clock nothing_learnt) 5000 [] 0 nothing_learnt
    = (Ret rec', s') /\
    5000 <= clock s' - clock nothing_learnt <= 5500.
Proof.
  assert (H1 : makes_progress silent (awaits nothing_learnt))
    by apply silent_makes_progress.
  assert (H2 : delay_bounded silent (awaits nothing_learnt) 0)
    by apply silent_delay_bounded.
  assert (H3 : 0 <= 0) by lia.
  split; [exact H1|]. split; [exact H2|]. split; [exact H3|].
  destruct (read_loop_budget silent 0 true (clock nothing_learnt) 5000 [] 0
              nothing_learnt H1 H2 H3) as (Hterm & _).
  destruct (Hterm (Z.to_nat 5002)) as (rec' & s' & Hrun & Hexit & Hover).
  - rewrite Z.sub_diag. lia.
  - exists rec', s'. split; [exact Hrun|]. lia.
Defined.

(** C8 fails as stated: against a peer that has no data the best-effort loop
    starts its last read 4750 ms after it began and returns 5250 ms after it
    began, later than the 5 seconds of its window. *)
Lemma best_effort_loop_overruns_window :
  fst (receive silent 30 [] nothing_learnt) = Ret [] /\
  clock (snd (receive silent 30 [] nothing_learnt)) - clock nothing_learnt = 5250.
Proof. vm_compute. split; reflexivity. Qed.

(** ** C3: the fallback resend *)

Lemma tx_count_app (tr ext : list Action) :
  tx_count (tr ++ ext) = (tx_count tr + tx_count ext)%nat.
Proof. unfold tx_count. rewrite filter_app, length_app. reflexivity. Qed.

Lemma tx_count_not_tx (ext : list Action) : Forall not_tx ext -> tx_count ext = 0%nat.
Proof.
  unfold tx_count. induction 1 as [|a ext Ha _ IH]; [reflexivity|].
  cbn [filter]. unfold not_tx in Ha. rewrite Ha. exact IH.
Qed.

Lemma data_written_no_write (ext : list Action) :
  Forall no_write ext -> data_written ext = [].
Proof.
  induction 1 as [|a ext Ha _ IH]; [reflexivity|].
  unfold data_written in *. cbn [flat_map]. rewrite IH.
  destruct a; try reflexivity. discriminate Ha.
Qed.

Lemma no_write_not_tx (a : Action) : no_write a -> not_tx a.
Proof. destruct a as [| | | |c d w| | | | |]; try reflexivity. discriminate. Qed.

Lemma transmits_of_evolves (s s' : State) : evolves not_tx s s' -> transmits 0 s s'.
Proof.
  intros (_ & _ & ext & E & F). exists ext. split; [exact E|].
  rewrite tx_count_not_tx by exact F. lia.
Qed.

Lemma transmits_trans (j k : nat) (a b c : State) :
  transmits j a b -> transmits k b c -> transmits (j + k) a c.
Proof.
  intros (e1 & E1 & C1) (e2 & E2 & C2). exists (e1 ++ e2).
  rewrite E2, E1, app_assoc, tx_count_app. split; [reflexivity | lia].
Qed.

Lemma transmits_weaken (j k : nat) (a b : State) :
  (j <= k)%nat -> transmits j a b -> transmits k a b.
Proof. intros H (e & E & C). exists e. split; [exact E | lia]. Qed.

Lemma transmits_bind (j k : nat) {A B} (m : M A) (f : A -> M B) :
  preserves (transmits j) m -> (forall a, preserves (transmits k) (f a)) ->
  preserves (transmits (j + k)) (bind m f).
Proof.
  intros Hm Hf s. unfold bind. specialize (Hm s).
  destruct (m s) as [[a|e|] s1]; cbn [snd] in *.
  - eapply transmits_trans; [exact Hm | apply Hf].
  - eapply transmits_weaken; [|exact Hm]. lia.
  - eapply transmits_weaken; [|exact Hm]. lia.
Qed.

Lemma transmits_quiet {A} (m : M A) :
  preserves (evolves not_tx) m -> preserves (transmits 0) m.
Proof. intros H s. apply transmits_of_evolves. apply H. Qed.

Section Transmissions.

Variable peer : Peer.
Variable JSON_parse : string -> string + JSON.

Lemma write_chunks_not_tx (fuel : nat) (w : bool) (gap : Z) (mtu : nat)
    (buf : bytes) (offset : nat) :
  0 <= gap ->
  preserves (evolves not_tx)
    (write_chunks peer fuel (fun c => char_write peer DataChar c w) gap mtu buf offset).
Proof.
  intros Hgap. apply write_chunks_evolves; try exact Hgap; try (intros; reflexivity).
  intros c. pres.
Qed.

(** A transmission starts with the write of the length on TX_CTL and has no
    other write on TX_CTL. *)
Lemma send_frame_one_transmission (fuel : nat) (req : bytes) (settle : Z)
    (w : bool) (gap : Z) (mtu : nat) (s : State) :
  blen req < 2 ^ 32 -> 0 <= settle -> 0 <= gap ->
  let s' := snd (send_frame peer fuel req settle
                            (fun c => char_write peer DataChar c w) gap mtu s) in
  clock s <= clock s' /\
  exists lenBuf ext,
    trace s' = trace s ++ AWrite TxCtlChar lenBuf false :: ext /\ Forall not_tx ext.
Proof.
  intros Hlen Hsettle Hgap.
  destruct (writeUInt32BE_sum (blen req)) as (b0 & b1 & b2 & b3 & Hw & _);
    [unfold blen in *; lia|].
  pose proof (write_chunks_not_tx fuel w gap mtu req 0 Hgap) as Hwc.
  set (send := fun c => char_write peer DataChar c w) in *.
  unfold send_frame. rewrite Hw. mrun.
  destruct (r_ok (peer (awaits s))); mrun.
  - match goal with |- context [write_chunks _ _ _ _ _ _ _ ?st] => set (s1 := st) end.
    destruct (Hwc s1) as (Hc & _ & ext & Hext & Hall).
    split; [subst s1; cbn [clock] in Hc; lia|].
    exists [b0; b1; b2; b3], (ASleep settle :: ext). split.
    + rewrite Hext. subst s1. cbn [trace]. rewrite <- !app_assoc. reflexivity.
    + constructor; [reflexivity | exact Hall].
  - split; [lia|]. exists [b0; b1; b2; b3], []. split; [reflexivity | constructor].
Qed.

Lemma send_frame_settles (fuel : nat) (req : bytes) (settle : Z)
    (w : bool) (gap : Z) (mtu : nat) (s s' : State) :
  0 <= gap ->
  send_frame peer fuel req settle (fun c => char_write peer DataChar c w) gap mtu s
    = (Ret tt, s') ->
  clock s + settle <= clock s'.
Proof.
  intros Hgap.
  pose proof (write_chunks_not_tx fuel w gap mtu req 0 Hgap) as Hwc.
  set (send := fun c => char_write peer DataChar c w) in *.
  unfold send_frame.
  destruct (writeUInt32BE (blen req)) as [lenBuf|]; mrun; [|discriminate].
  destruct (r_ok (peer (awaits s))); mrun; [|discriminate].
  match goal with |- context [write_chunks _ _ _ _ _ _ _ ?st] => set (s1 := st) end.
  destruct (Hwc s1) as (Hc & _).
  destruct (write_chunks _ _ _ _ _ _ _ s1) as [[[]|e|] s2]; try discriminate.
  intros [= <-]. subst s1. cbn [snd clock] in Hc. lia.
Qed.

End Transmissions.

Section Orchestration.

Variable peer : Peer.
Variable JSON_parse : string -> string + JSON.

Lemma send_frame_transmits (fuel : nat) (req : bytes) (settle : Z) (w : bool)
    (gap : Z) (mtu : nat) :
  0 <= settle -> 0 <= gap ->
  preserves (transmits 1)
    (send_frame peer fuel req settle (fun c => char_write peer DataChar c w) gap mtu).
Proof.
  intros Hsettle Hgap s.
  destruct (Z_lt_dec (blen req) (2 ^ 32)) as [Hlen|Hlen].
  - destruct (send_frame_one_transmission peer fuel req settle w gap mtu s
                Hlen Hsettle Hgap) as (_ & lenBuf & ext & Htr & Hall).
    exists (AWrite TxCtlChar lenBuf false :: ext). split; [exact Htr|].
    change (AWrite TxCtlChar lenBuf false :: ext)
      with ([AWrite TxCtlChar lenBuf false] ++ ext).
    rewrite tx_count_app, (tx_count_not_tx ext Hall). cbn. lia.
  - unfold send_frame, writeUInt32BE.
    replace ((0 <=? blen req) && (blen req <? 2 ^ 32)) with false
      by (symmetry; apply andb_false_iff; right; apply Z.ltb_ge; lia).
    mrun. exists []. rewrite app_nil_r. split; [reflexivity | cbn; lia].
Qed.

Lemma attempt_primary_transmits (fuel : nat) (method : string) (paramsObject : option JSON) :
  preserves (transmits 1) (attempt_primary peer fuel method paramsObject).
Proof.
  unfold attempt_primary.
  apply (transmits_bind 0 1); [apply transmits_quiet, flushChannels_evolves; reflexivity|].
  intros _. apply (transmits_bind 0 1); [apply transmits_quiet; pres|].
  intros _. apply (transmits_bind 0 1); [apply transmits_quiet; pres|].
  intros _. apply (transmits_bind 1 0).
  - unfold send_primary. apply (transmits_bind 0 1); [apply transmits_quiet; pres|].
    intros id. apply send_frame_transmits; lia.
  - intros _. apply transmits_quiet, poll_primary_evolves; reflexivity.
Qed.

Lemma resend_transmits (fuel : nat) (method : string) (paramsObject : option JSON) :
  preserves (transmits 1) (resend peer fuel method paramsObject).
Proof.
  unfold resend.
  apply (transmits_bind 0 1); [apply transmits_quiet; pres|].
  intros _. apply (transmits_bind 1 0).
  - unfold send_retry. apply (transmits_bind 0 1); [apply transmits_quiet; pres|].
    intros id. apply send_frame_transmits; lia.
  - intros _. apply (transmits_bind 0 0); [|intros _; apply transmits_quiet; pres].
    apply transmits_quiet, poll_retry_evolves; reflexivity.
Qed.

Lemma retry_if_silent_transmits (fuel : nat) (method : string)
    (paramsObject : option JSON) (received : bytes) :
  preserves (transmits 1) (retry_if_silent peer fuel method paramsObject received).
Proof.
  unfold retry_if_silent. apply (transmits_bind 0 1); [apply transmits_quiet; pres|].
  intros el. destruct (_ && _).
  - apply resend_transmits.
  - intros s. eapply transmits_weaken; [|apply transmits_quiet; pres]. lia.
Qed.

Lemma transfer_transmits (fuel : nat) (method : string) (paramsObject : option JSON) :
  preserves (transmits 2) (transfer peer fuel method paramsObject).
Proof.
  unfold transfer. apply (transmits_bind 1 1); [apply attempt_primary_transmits|].
  intros _. apply (transmits_bind 1 0); [apply retry_if_silent_transmits|].
  intros received. apply (transmits_bind 0 0).
  - apply transmits_quiet, receive_evolves; reflexivity.
  - intros received'. apply transmits_quiet. pres.
Qed.

Lemma exchange_transmits (fuel : nat) (method : string) (paramsObject : option JSON) :
  preserves (transmits 2) (exchange peer JSON_parse fuel method paramsObject).
Proof.
  unfold exchange. apply (transmits_bind 2 0); [apply transfer_transmits|].
  intros received. apply transmits_quiet, decode_response_evolves. reflexivity.
Qed.

Lemma try_finally_disconnect_transmits (k : nat) {A} (m : M A) :
  preserves (transmits k) m -> preserves (transmits k) (try_finally m disconnect).
Proof.
  intros Hm s. unfold try_finally. specialize (Hm s).
  destruct (m s) as [[a|e|] s1]; cbn [snd] in *; try exact Hm;
    destruct Hm as (ext & E & C); exists (ext ++ [ADisconnect]);
    (split; [cbn [disconnect trace]; rewrite E, app_assoc; reflexivity|]);
    rewrite tx_count_app; cbn; lia.
Qed.

Lemma sendRpcAndReceive_transmits (fuel : nat) (method : string)
    (paramsObject : option JSON) :
  preserves (transmits 2) (sendRpcAndReceive peer JSON_parse fuel method paramsObject).
Proof.
  unfold sendRpcAndReceive.
  apply (transmits_bind 0 2); [apply transmits_quiet; pres|].
  intros c. destruct (negb (r_ok c)).
  - intros s. eapply transmits_weaken; [|apply transmits_quiet; pres]. lia.
  - apply try_finally_disconnect_transmits.
    apply (transmits_bind 0 2); [apply transmits_quiet; pres|].
    intros _. apply (transmits_bind 0 2); [apply transmits_quiet; pres|].
    intros svcs.
    destruct (negb (r_ok svcs));
      [intros s; eapply transmits_weaken; [|apply transmits_quiet; pres]; lia|].
    destruct (negb (r_found svcs));
      [intros s; eapply transmits_weaken; [|apply transmits_quiet; pres]; lia|].
    apply (transmits_bind 0 2); [apply transmits_quiet; pres|].
    intros chars.
    destruct (negb (r_ok chars));
      [intros s; eapply transmits_weaken; [|apply transmits_quiet; pres]; lia|].
    destruct (negb (r_found chars));
      [intros s; eapply transmits_weaken; [|apply transmits_quiet; pres]; lia|].
    apply exchange_transmits.
Qed.

End Orchestration.

Lemma bind_ret_inv {A B} (m : M A) (f : A -> M B) (s s' : State) (b : B) :
  bind m f s = (Ret b, s') ->
  exists a s1, m s = (Ret a, s1) /\ f a s1 = (Ret b, s').
Proof.
  unfold bind. destruct (m s) as [[a|e|] s1]; try discriminate.
  intros H. exists a, s1. auto.
Qed.

Lemma bind_ret_eq {A B} (m : M A) (f : A -> M B) (s : State) (a : A) (s1 : State) :
  m s = (Ret a, s1) -> bind m f s = f a s1.
Proof. intros H. unfold bind. rewrite H. reflexivity. Qed.

Lemma evolves_snd (P : Action -> Prop) {A} (m : M A) (s s' : State) (o : Outcome A) :
  preserves (evolves P) m -> m s = (o, s') -> evolves P s s'.
Proof. intros H E. specialize (H s). rewrite E in H. exact H. Qed.

Section Retry.

Variable peer : Peer.

Lemma send_frame_returns_one (fuel : nat) (req : bytes) (settle : Z) (w : bool)
    (gap : Z) (mtu : nat) (s s' : State) :
  0 <= settle -> 0 <= gap ->
  send_frame peer fuel req settle (fun c => char_write peer DataChar c w) gap mtu s
    = (Ret tt, s') ->
  exists lenBuf ext,
    trace s' = trace s ++ AWrite TxCtlChar lenBuf false :: ext /\ Forall not_tx ext.
Proof.
  intros Hsettle Hgap H.
  destruct (Z_lt_dec (blen req) (2 ^ 32)) as [Hlen|Hlen].
  - destruct (send_frame_one_transmission peer fuel req settle w gap mtu s
                Hlen Hsettle Hgap) as (_ & lenBuf & ext & Htr & Hall).
    rewrite H in Htr. exists lenBuf, ext. auto.
  - exfalso. revert H. unfold send_frame, writeUInt32BE.
    replace ((0 <=? blen req) && (blen req <? 2 ^ 32)) with false
      by (symmetry; apply andb_false_iff; right; apply Z.ltb_ge; lia).
    mrun. discriminate.
Qed.

Lemma poll_retry_once_returns (s : State) :
  exists s', poll_retry_once peer s = (Ret tt, s').
Proof.
  unfold poll_retry_once. mrun.
  destruct (r_read (peer (awaits s))) as [|[b|]]; mrun; try (eexists; reflexivity).
  destruct (4 <=? blen b); mrun; try (eexists; reflexivity).
  destruct (readUInt32BE b); mrun; eexists; reflexivity.
Qed.

Lemma poll_retry_returns (left : nat) :
  forall s, exists s', poll_retry peer left s = (Ret tt, s') /\ evolves no_write s s'.
Proof.
  assert (Hev : forall n s s' o, poll_retry peer n s = (o, s') -> evolves no_write s s').
  { intros n s s' o. apply evolves_snd.
    apply poll_retry_evolves; intros; reflexivity. }
  induction left as [|left IH]; intros s.
  - exists s. split; [reflexivity | apply evolves_refl].
  - destruct (expectedLength s =? 0) eqn:E.
    + destruct (poll_retry_once_returns s) as (s1 & H1).
      destruct (IH (snd (suspend peer (ASleep 100) 100 s1))) as (s' & H2 & _).
      assert (Hrun : poll_retry peer (S left) s = (Ret tt, s')).
      { cbn [poll_retry].
        rewrite (bind_ret_eq get_expectedLength _ s (expectedLength s) s eq_refl), E.
        rewrite (bind_ret_eq _ _ s tt s1 H1).
        rewrite (bind_ret_eq (sleep peer 100) _ s1 tt _ eq_refl). exact H2. }
      exists s'. split; [exact Hrun | eapply Hev; exact Hrun].
    + exists s. split; [|apply evolves_refl].
      cbn [poll_retry].
      rewrite (bind_ret_eq get_expectedLength _ s (expectedLength s) s eq_refl), E.
      reflexivity.
Qed.

End Retry.

Section Resend.

Variable peer : Peer.

Lemma resend_one_transmission (fuel : nat) (method : string)
    (paramsObject : option JSON) (s1 : State) :
  blen (requestBytes (clock s1) method paramsObject) < 2 ^ 32 ->
  exists lenBuf ext,
    trace (snd (resend peer fuel method paramsObject s1)) =
    trace s1 ++ AWrite TxCtlChar lenBuf false :: ext /\ Forall not_tx ext.
Proof.
  intros Hlen. unfold resend.
  rewrite (bind_ret_eq (set_expectedLength 0) _ s1 tt _ eq_refl).
  set (s1' := mkState (clock s1) (awaits s1) (listening s1) 0 (trace s1)).
  destruct (send_frame_one_transmission peer fuel
              (requestBytes (clock s1') method paramsObject) 500 false 25 20 s1'
              Hlen ltac:(lia) ltac:(lia)) as (_ & lenBuf & ext & Htr & Hall).
  rewrite <- send_retry_frame in Htr.
  unfold bind at 1.
  destruct (send_retry peer fuel method paramsObject s1') as [[[]|e|] sX];
    cbn [snd] in *; try (exists lenBuf, ext; split; [exact Htr | exact Hall]).
  destruct (poll_retry_returns peer 20 sX) as (s2 & Hrun & (_ & _ & ext2 & E2 & F2)).
  cbv beta. rewrite (bind_ret_eq _ _ sX tt s2 Hrun). cbn [ret snd].
  exists lenBuf, (ext ++ ext2). split.
  - rewrite E2, Htr, <- app_assoc. reflexivity.
  - apply Forall_app. split; [exact Hall|].
    eapply Forall_impl; [apply no_write_not_tx | exact F2].
Qed.

Lemma resend_sends_request (fuel : nat) (method : string)
    (paramsObject : option JSON) (s1 : State) :
  acknowledges peer (awaits s1) ->
  blen (requestBytes (clock s1) method paramsObject) < 2 ^ 32 ->
  (List.length (requestBytes (clock s1) method paramsObject) < fuel)%nat ->
  exists s2,
    resend peer fuel method paramsObject s1 = (Ret [], s2) /\
    data_written (trace s2) =
    data_written (trace s1) ++ requestBytes (clock s1) method paramsObject.
Proof.
  intros Hack Hlen Hfuel. unfold resend.
  rewrite (bind_ret_eq (set_expectedLength 0) _ s1 tt _ eq_refl).
  set (s1' := mkState (clock s1) (awaits s1) (listening s1) 0 (trace s1)).
  set (req := requestBytes (clock s1) method paramsObject) in *.
  destruct (send_frame_trace peer fuel req 500 false 25 20 s1' ltac:(lia) Hlen Hfuel Hack)
    as (lenBuf & sX & _ & Hrun & Htr & _).
  assert (Hsend : send_retry peer fuel method paramsObject s1' = (Ret tt, sX))
    by (rewrite send_retry_frame; exact Hrun).
  rewrite (bind_ret_eq _ _ s1' tt sX Hsend).
  destruct (poll_retry_returns peer 20 sX) as (s2 & Hpoll & (_ & _ & ext2 & E2 & F2)).
  rewrite (bind_ret_eq _ _ sX tt s2 Hpoll). exists s2. split; [reflexivity|].
  rewrite E2, Htr, !data_written_app, (data_written_no_write ext2 F2), app_nil_r.
  change (AWrite TxCtlChar lenBuf false :: ASleep 500 :: chunk_writes false 25 (chunks 20 req))
    with ([AWrite TxCtlChar lenBuf false; ASleep 500] ++ chunk_writes false 25 (chunks 20 req)).
  rewrite data_written_app, data_written_chunk_writes. unfold chunks.
  rewrite (chunk_list_concat 20 ltac:(lia) (List.length req) req (Nat.le_refl _)).
  reflexivity.
Qed.

Lemma attempt_primary_one_transmission (fuel : nat) (method : string)
    (paramsObject : option JSON) (s s1 : State) :
  attempt_primary peer fuel method paramsObject s = (Ret tt, s1) ->
  exists ext, trace s1 = trace s ++ ext /\ tx_count ext = 1%nat.
Proof.
  unfold attempt_primary. intros H.
  apply bind_ret_inv in H. destruct H as ([] & sA & HA & H).
  apply bind_ret_inv in H. destruct H as ([] & sB & HB & H).
  apply bind_ret_inv in H. destruct H as ([] & sC & HC & H).
  apply bind_ret_inv in H. destruct H as ([] & sD & HD & H).
  assert (EA : evolves not_tx s sA).
  { eapply evolves_snd; [|exact HA]. apply flushChannels_evolves; reflexivity. }
  assert (EB : evolves not_tx sA sB) by (eapply evolves_snd; [|exact HB]; pres).
  assert (EC : evolves not_tx sB sC) by (eapply evolves_snd; [|exact HC]; pres).
  assert (EE : evolves not_tx sD s1).
  { eapply evolves_snd; [|exact H]. apply poll_primary_evolves; reflexivity. }
  rewrite send_primary_frame in HD.
  destruct (send_frame_returns_one peer fuel _ 1000 false 15 20 sC sD
              ltac:(lia) ltac:(lia) HD) as (lenBuf & ext & Htr & Hall).
  pose proof (evolves_trans _ _ _ _ (evolves_trans _ _ _ _ EA EB) EC)
    as (_ & _ & e1 & E1 & F1).
  destruct EE as (_ & _ & e2 & E2 & F2).
  exists (e1 ++ (AWrite TxCtlChar lenBuf false :: ext) ++ e2). split.
  - rewrite E2, Htr, E1, <- !app_assoc. reflexivity.
  - rewrite !tx_count_app, (tx_count_not_tx e1 F1), (tx_count_not_tx e2 F2).
    change (AWrite TxCtlChar lenBuf false :: ext)
      with ([AWrite TxCtlChar lenBuf false] ++ ext).
    rewrite tx_count_app, (tx_count_not_tx ext Hall). reflexivity.
Qed.

End Resend.

Lemma poll_primary_once_cases (peer : Peer) (s : State) :
  let s1 := after_read peer RxCtlChar s in
  poll_primary_once peer s =
  match r_read (peer (awaits s)) with
  | ReadData (Some b) =>
      if 4 <=? blen b then
        match readUInt32BE b with
        | Some v => (Ret (0 <? v), with_expectedLength v s1)
        | None => (Ret false, s1)
        end
      else (Ret false, s1)
  | _ => (Ret false, s1)
  end.
Proof.
  unfold poll_primary_once, after_read, with_expectedLength. mrun.
  destruct (r_read (peer (awaits s))) as [|[b|]]; mrun; try reflexivity.
  destruct (4 <=? blen b); mrun; [|reflexivity].
  destruct (readUInt32BE b); reflexivity.
Qed.

(** When no notification carries a length, polling ends with
    [expectedLength] still 0 exactly when none of the polls announced a
    positive length. *)
Lemma poll_primary_learns_nothing (peer : Peer) (left : nat) :
  forall s,
    expectedLength s = 0 -> no_length_notified peer (awaits s) ->
    exists s',
      poll_primary peer left s = (Ret tt, s') /\
      (expectedLength s' = 0 <->
       forall k, (k < left)%nat -> pending_length (peer (awaits s + 2 * k)%nat) = 0).
Proof.
  induction left as [|left IH]; intros s Hel Hq.
  - exists s. split; [reflexivity|]. split; [intros _ k Hk; lia | intros _; exact Hel].
  - pose proof (suspend_keeps_length peer (ARead RxCtlChar) 0 s (Hq _ (Nat.le_refl _))) as H1.
    fold (after_read peer RxCtlChar s) in H1. rewrite Hel in H1.
    set (s1 := after_read peer RxCtlChar s) in *.
    assert (Haw1 : awaits s1 = S (awaits s)) by reflexivity.
    assert (Hcont : forall t,
               awaits t = awaits s1 -> expectedLength t = 0 ->
               pending_length (peer (awaits s)) = 0 ->
               exists s',
                 (sleep peer 250 ;; poll_primary peer left) t = (Ret tt, s') /\
                 (expectedLength s' = 0 <->
                  forall k, (k < S left)%nat ->
                            pending_length (peer (awaits s + 2 * k)%nat) = 0)).
    { intros t Hawt Helt Hp0.
      set (t2 := snd (suspend peer (ASleep 250) 250 t)).
      assert (Hq2 : no_length_notified peer (awaits t2)).
      { intros n Hn. apply Hq. subst t2. cbn [suspend snd awaits] in Hn. lia. }
      assert (Hel2 : expectedLength t2 = 0).
      { subst t2. rewrite suspend_keeps_length; [exact Helt|].
        apply Hq. lia. }
      destruct (IH t2 Hel2 Hq2) as (s' & Hrun & Hiff).
      exists s'. split.
      - rewrite (bind_ret_eq (sleep peer 250) _ t tt t2 eq_refl). exact Hrun.
      - rewrite Hiff. assert (Haw2 : awaits t2 = (awaits s + 2)%nat).
        { subst t2. cbn [suspend snd awaits]. lia. }
        rewrite Haw2. split.
        + intros H k Hk. destruct k as [|k].
          * rewrite Nat.mul_0_r, Nat.add_0_r. exact Hp0.
          * replace (awaits s + 2 * S k)%nat with (awaits s + 2 + 2 * k)%nat by lia.
            apply H. lia.
        + intros H k Hk.
          replace (awaits s + 2 + 2 * k)%nat with (awaits s + 2 * S k)%nat by lia.
          apply H. lia. }
    cbn [poll_primary].
    rewrite (bind_ret_eq get_expectedLength _ s (expectedLength s) s eq_refl), Hel.
    cbn [Z.eqb]. unfold bind at 1.
    pose proof (poll_primary_once_cases peer s) as Hc. cbv zeta in Hc. fold s1 in Hc.
    rewrite Hc.
    assert (Hp : pending_length (peer (awaits s)) =
                 match r_read (peer (awaits s)) with
                 | ReadData (Some b) =>
                     if 4 <=? blen b then
                       match readUInt32BE b with Some v => v | None => 0 end
                     else 0
                 | _ => 0
                 end).
    { unfold pending_length, announced.
      destruct (r_read (peer (awaits s))) as [|[b|]]; reflexivity. }
    destruct (r_read (peer (awaits s))) as [|[b|]];
      try (apply Hcont; [reflexivity | exact H1 | exact Hp]).
    destruct (4 <=? blen b); [|apply Hcont; [reflexivity | exact H1 | exact Hp]].
    destruct (readUInt32BE b) as [v|] eqn:Ev;
      [|apply Hcont; [reflexivity | exact H1 | exact Hp]].
    pose proof (readUInt32BE_range b v Ev) as Hv.
    destruct (0 <? v) eqn:Epos.
    + apply Z.ltb_lt in Epos. exists (with_expectedLength v s1).
      split; [reflexivity|]. cbn [with_expectedLength expectedLength]. split.
      * intros ->. lia.
      * intros H. specialize (H 0%nat ltac:(lia)).
        rewrite Nat.mul_0_r, Nat.add_0_r, Hp in H. exact H.
    + apply Z.ltb_ge in Epos. assert (Hv0 : v = 0) by lia.
      apply Hcont; [reflexivity | exact Hv0 | rewrite Hp; exact Hv0].
Qed.

Lemma retry_if_silent_cases (peer : Peer) (fuel : nat) (method : string)
    (paramsObject : option JSON) (received : bytes) (s : State) :
  retry_if_silent peer fuel method paramsObject received s =
  if (expectedLength s =? 0) && (blen received =? 0)
  then resend peer fuel method paramsObject s
  else (Ret received, s).
Proof.
  unfold retry_if_silent.
  rewrite (bind_ret_eq get_expectedLength _ s (expectedLength s) s eq_refl).
  destruct (_ && _); reflexivity.
Qed.

(** C3, as the code has it.  Whatever the peer does, a run of
    [sendRpcAndReceive] starts at most
    two transmissions: the first one and at most one resend.  When the first
    attempt (flush, subscription, transmission, polling) has completed, it
    has started exactly one transmission, and the resend takes place exactly
    when [expectedLength] is 0 and no response byte has been received (none
    can have been: [transfer] passes the empty buffer): then one more
    transmission is started, otherwise none and the state is left as it is.
    When no notification carries a length, [expectedLength] is 0 at that
    point exactly when none of the thirty polls announced a positive length.
    The resent request is built anew: against a peer that acknowledges the
    writes, the bytes put on the data characteristic by the resend are the
    request with the same [src], method and params and with the clock at the
    time of the resend as its id, which is at least a second later than the
    id of the first request. *)
Theorem retry_once_iff_nothing_learnt
    (peer : Peer) (JSON_parse : string -> string + JSON) (fuel : nat)
    (method : string) (paramsObject : option JSON) :
  (forall s,
      transmits 2 s (snd (sendRpcAndReceive peer JSON_parse fuel method paramsObject s))) /\
  (forall s s1,
      attempt_primary peer fuel method paramsObject s = (Ret tt, s1) ->
      (exists ext0, trace s1 = trace s ++ ext0 /\ tx_count ext0 = 1%nat) /\
      (forall received,
          expectedLength s1 <> 0 \/ received <> [] ->
          retry_if_silent peer fuel method paramsObject received s1 = (Ret received, s1)) /\
      (expectedLength s1 = 0 ->
       retry_if_silent peer fuel method paramsObject [] s1 =
       resend peer fuel method paramsObject s1) /\
      (blen (requestBytes (clock s1) method paramsObject) < 2 ^ 32 ->
       exists ext,
         trace (snd (retry_if_silent peer fuel method paramsObject [] s1)) = trace s1 ++ ext /\
         (tx_count ext = 1%nat <-> expectedLength s1 = 0) /\
         (tx_count ext = 0%nat <-> expectedLength s1 <> 0)) /\
      (expectedLength s1 = 0 ->
       acknowledges peer (awaits s1) ->
       blen (requestBytes (clock s1) method paramsObject) < 2 ^ 32 ->
       (List.length (requestBytes (clock s1) method paramsObject) < fuel)%nat ->
       exists s2,
         retry_if_silent peer fuel method paramsObject [] s1 = (Ret [], s2) /\
         data_written (trace s2) =
         data_written (trace s1) ++ requestBytes (clock s1) method paramsObject)) /\
  (forall sa sb s1,
      send_primary peer fuel method paramsObject sa = (Ret tt, sb) ->
      poll_primary peer 30 sb = (Ret tt, s1) ->
      send_primary peer fuel method paramsObject sa =
      send_frame peer fuel (requestBytes (clock sa) method paramsObject) 1000
                 (fun c => char_write peer DataChar c false) 15 20 sa /\
      clock sa + 1000 <= clock s1) /\
  (forall sb,
      expectedLength sb = 0 -> no_length_notified peer (awaits sb) ->
      exists s1,
        poll_primary peer 30 sb = (Ret tt, s1) /\
        (expectedLength s1 = 0 <->
         forall k, (k < 30)%nat -> pending_length (peer (awaits sb + 2 * k)%nat) = 0)) /\
  (forall id,
      requestBytes id method paramsObject =
      Buffer_from (JSON_stringify
        (JObj [ ("id", JNum id); ("src", JStr "user_1"); ("method", JStr method);
                ("params", params_or_empty paramsObject) ]))).
Proof.
  repeat match goal with |- _ /\ _ => split end.
  - intros s. apply sendRpcAndReceive_transmits.
  - intros s s1 Hprim.
    repeat match goal with |- _ /\ _ => split end.
    + eapply attempt_primary_one_transmission. exact Hprim.
    + intros received Hor. rewrite retry_if_silent_cases.
      destruct Hor as [Hel|Hrec].
      * apply Z.eqb_neq in Hel. rewrite Hel. reflexivity.
      * replace (blen received =? 0) with false; [rewrite andb_false_r; reflexivity|].
        symmetry. apply Z.eqb_neq. unfold blen.
        destruct received; [congruence | cbn [List.length]; lia].
    + intros Hel. rewrite retry_if_silent_cases, Hel. reflexivity.
    + intros Hlen. rewrite retry_if_silent_cases.
      destruct (expectedLength s1 =? 0) eqn:E; cbn [andb blen List.length Z.of_nat Z.eqb].
      * apply Z.eqb_eq in E.
        destruct (resend_one_transmission peer fuel method paramsObject s1 Hlen)
          as (lenBuf & ext & Htr & Hall).
        exists (AWrite TxCtlChar lenBuf false :: ext). split; [exact Htr|].
        change (AWrite TxCtlChar lenBuf false :: ext)
          with ([AWrite TxCtlChar lenBuf false] ++ ext).
        rewrite tx_count_app, (tx_count_not_tx ext Hall). cbn. split; split; intros; lia.
      * apply Z.eqb_neq in E. exists []. cbn [snd]. rewrite app_nil_r.
        split; [reflexivity|]. cbn. split; split; intros; (lia || tauto).
    + intros Hel Hack Hlen Hfuel. rewrite retry_if_silent_cases, Hel.
      apply resend_sends_request; assumption.
  - intros sa sb s1 Hsend Hpoll. split; [apply send_primary_frame|].
    rewrite send_primary_frame in Hsend.
    apply (send_frame_settles peer fuel _ 1000 false 15 20 sa sb ltac:(lia)) in Hsend.
    assert (Hev : evolves (fun _ => True) sb s1).
    { eapply evolves_snd; [|exact Hpoll]. apply poll_primary_evolves; intros; exact I. }
    destruct Hev as (Hc & _). lia.
  - intros sb Hel Hq. apply poll_primary_learns_nothing; assumption.
  - intros id. reflexivity.
Qed.

Lemma retry_once_iff_nothing_learnt_witness :
  exists s1,
    attempt_primary silent 100 "Shelly.GetStatus" None initial = (Ret tt, s1) /\
    expectedLength s1 = 0 /\
    exists ext,
      trace (snd (retry_if_silent silent 100 "Shelly.GetStatus" None [] s1)) =
      trace s1 ++ ext /\
      tx_count ext = 1%nat.
Proof.
  pose (s1 := snd (attempt_primary silent 100 "Shelly.GetStatus" None initial)).
  assert (Hrun : attempt_primary silent 100 "Shelly.GetStatus" None initial = (Ret tt, s1))
    by (vm_compute; reflexivity).
  assert (Hel : expectedLength s1 = 0) by (vm_compute; reflexivity).
  assert (Hlen : blen (requestBytes (clock s1) "Shelly.GetStatus" None) < 2 ^ 32)
    by (vm_compute; reflexivity).
  destruct (proj1 (proj2 (retry_once_iff_nothing_learnt silent reject_all 100
                            "Shelly.GetStatus" None)) initial s1 Hrun)
    as (_ & _ & _ & Hcount & _).
  destruct (Hcount Hlen) as (ext & Htr & Hiff & _).
  exists s1. split; [exact Hrun|]. split; [exact Hel|].
  exists ext. split; [exact Htr|]. apply Hiff. exact Hel.
Defined.

(** C3 fails as stated: [expectedLength] becomes positive during the polling
    and the request is sent again all the same.  The peer notifies the
    length 42 while the first poll of RX_CTL is pending, so [expectedLength]
    is 42 when the read of that poll returns.  The poll then stores what it
    read, the length 0 (line 299); the other polls read nothing, the polling
    ends with [expectedLength] at 0, and the run starts two transmissions. *)
Lemma notified_length_is_lost_to_the_pending_poll :
  listening polling_begins = true /\
  expectedLength polling_begins = 0 /\
  expectedLength (after_read overtaken RxCtlChar polling_begins) = 42 /\
  expectedLength (snd (poll_primary_once overtaken polling_begins)) = 0 /\
  (exists s1,
      attempt_primary overtaken 100 "Shelly.GetStatus" None initial = (Ret tt, s1) /\
      poll_primary overtaken 30 polling_begins = (Ret tt, s1) /\
      expectedLength s1 = 0) /\
  tx_count (trace (snd (transfer overtaken 100 "Shelly.GetStatus" None initial))) = 2%nat.
Proof.
  repeat match goal with |- _ /\ _ => split end; try (vm_compute; reflexivity).
  exists (snd (attempt_primary overtaken 100 "Shelly.GetStatus" None initial)).
  split; [|split]; vm_compute; reflexivity.
Qed.

(** ** C4: the request *)






(** ** Trimming *)

Lemma strip_prefix_spec (p s r : list ascii) :
  strip_prefix p s = Some r <-> s = p ++ r.
Proof.
  revert s. induction p as [|c p IH]; intros s; cbn [strip_prefix app].
  - split; [intros [= ->]; reflexivity | intros ->; reflexivity].
  - destruct s as [|d s]; [split; discriminate|].
    destruct (Ascii.eqb_spec c d) as [->|Hne].
    + rewrite IH. split; [intros ->; reflexivity | intros [= ->]; reflexivity].
    + split; [discriminate | intros [= -> _]; congruence].
Qed.

Lemma strip_one_some (ps : list (list ascii)) (s r : list ascii) :
  strip_one ps s = Some r -> exists p, In p ps /\ s = p ++ r.
Proof.
  induction ps as [|p ps IH]; cbn [strip_one]; [discriminate|].
  destruct (strip_prefix p s) as [r'|] eqn:E.
  - intros [= ->]. apply strip_prefix_spec in E. exists p. split; [left; reflexivity | exact E].
  - intros H. destruct (IH H) as (q & Hq & Hs). exists q. split; [right; exact Hq | exact Hs].
Qed.

Lemma strip_one_none (ps : list (list ascii)) (s : list ascii) :
  strip_one ps s = None -> forall p r, In p ps -> s <> p ++ r.
Proof.
  induction ps as [|q ps IH]; cbn [strip_one]; intros H p r Hin; [destruct Hin|].
  destruct (strip_prefix q s) as [r'|] eqn:E; [discriminate|].
  destruct Hin as [->|Hin].
  - intros Hs. apply strip_prefix_spec in Hs. congruence.
  - apply IH; assumption.
Qed.

Lemma concat_of_app (ps : list (list ascii)) (a b : list ascii) :
  concat_of ps a -> concat_of ps b -> concat_of ps (a ++ b).
Proof.
  induction 1 as [|p s Hp _ IH]; intros Hb; [exact Hb|].
  rewrite <- app_assoc. constructor; [exact Hp | apply IH; exact Hb].
Qed.

Lemma concat_of_rev (ps : list (list ascii)) (l : list ascii) :
  concat_of ps l -> concat_of (map (@rev ascii) ps) (rev l).
Proof.
  induction 1 as [|p s Hp _ IH]; [constructor|].
  rewrite rev_app_distr. apply concat_of_app; [exact IH|].
  rewrite <- (app_nil_r (rev p)). constructor; [|constructor].
  apply in_map. exact Hp.
Qed.

(** A concatenation of patterns from which no pattern can be stripped is
    empty. *)
Lemma concat_of_stuck (ps : list (list ascii)) (l : list ascii) :
  concat_of ps l -> strip_one ps l = None -> l = [].
Proof.
  intros H Hnone. destruct H as [|p s Hp _]; [reflexivity|].
  exfalso. exact (strip_one_none ps _ Hnone p s Hp eq_refl).
Qed.

Lemma strip_all_spec (ps : list (list ascii)) :
  (forall p, In p ps -> p <> []) ->
  forall fuel s,
    (List.length s <= fuel)%nat ->
    exists ws,
      s = ws ++ strip_all fuel ps s /\ concat_of ps ws /\
      strip_one ps (strip_all fuel ps s) = None.
Proof.
  intros Hne. induction fuel as [|fuel IH]; intros s Hlen.
  - destruct s; [|cbn [List.length] in Hlen; lia].
    exists []. cbn [strip_all]. repeat split; [constructor|].
    clear Hlen. induction ps as [|p ps IHps]; [reflexivity|].
    cbn [strip_one]. destruct p as [|c p]; [exfalso; apply (Hne []); [left|]; reflexivity|].
    cbn [strip_prefix]. apply IHps. intros q Hq. apply Hne. right. exact Hq.
  - cbn [strip_all]. destruct (strip_one ps s) as [s'|] eqn:E.
    + destruct (strip_one_some ps s s' E) as (p & Hp & ->).
      assert (Hp' : p <> []) by (apply Hne; exact Hp).
      destruct (IH s') as (ws & Hs & Hws & Hstuck).
      { rewrite length_app in Hlen. destruct p; [congruence|].
        cbn [List.length] in Hlen. lia. }
      exists (p ++ ws). split; [|split].
      * rewrite <- app_assoc. f_equal. exact Hs.
      * constructor; assumption.
      * exact Hstuck.
    + exists []. repeat split; [constructor | exact E].
Qed.

Lemma strip_prefix_either (p q a b : list ascii) :
  p ++ a = q ++ b ->
  (exists r, strip_prefix p q = Some r) \/ (exists r, strip_prefix q p = Some r).
Proof.
  revert q. induction p as [|c p IH]; intros q H.
  - left. exists q. reflexivity.
  - destruct q as [|d q]; [right; eexists; reflexivity|].
    cbn [app] in H. injection H as -> H.
    cbn [strip_prefix]. rewrite Ascii.eqb_refl. apply IH. exact H.
Qed.

Lemma prefix_free_unique (ps : list (list ascii)) (p q a b : list ascii) :
  prefix_free ps -> In p ps -> In q ps -> p ++ a = q ++ b -> p = q /\ a = b.
Proof.
  intros Hfree Hp Hq H.
  assert (Hpq : p = q).
  { destruct (strip_prefix_either p q a b H) as [[r Hr]|[r Hr]].
    - pose proof (Hfree p q r Hp Hq Hr) as ->.
      apply strip_prefix_spec in Hr. rewrite app_nil_r in Hr. congruence.
    - pose proof (Hfree q p r Hq Hp Hr) as ->.
      apply strip_prefix_spec in Hr. rewrite app_nil_r in Hr. congruence. }
  subst q. split; [reflexivity|]. eapply app_inv_head. exact H.
Qed.

Lemma concat_of_cancel (ps : list (list ascii)) :
  prefix_free ps -> (forall p, In p ps -> p <> []) ->
  forall ws, concat_of ps ws -> forall r, concat_of ps (ws ++ r) -> concat_of ps r.
Proof.
  intros Hfree Hne ws Hws. induction Hws as [|p s Hp _ IH]; intros r H; [exact H|].
  rewrite <- app_assoc in H.
  remember (p ++ s ++ r) as l eqn:El. destruct H as [|q t Hq Ht].
  - exfalso. destruct p; [apply (Hne []); [exact Hp | reflexivity] | discriminate El].
  - destruct (prefix_free_unique ps q p t (s ++ r) Hfree Hq Hp El) as [_ ->].
    apply IH. exact Ht.
Qed.

Lemma prefix_freeb_sound (ps : list (list ascii)) :
  prefix_freeb ps = true -> prefix_free ps.
Proof.
  unfold prefix_freeb. intros H p q r Hp Hq Hr.
  rewrite forallb_forall in H. specialize (H p Hp).
  rewrite forallb_forall in H. specialize (H q Hq).
  rewrite Hr in H. destruct r; [reflexivity | discriminate].
Qed.

Lemma WhiteSpace_prefix_free : prefix_free WhiteSpace.
Proof. apply prefix_freeb_sound. vm_compute. reflexivity. Qed.

Lemma WhiteSpace_nonempty (p : list ascii) : In p WhiteSpace -> p <> [].
Proof.
  intros Hp ->. revert Hp. unfold WhiteSpace. cbn [map In].
  intros H. repeat (destruct H as [H|H]; [discriminate H|]). exact H.
Qed.

Lemma rev_WhiteSpace_nonempty (p : list ascii) :
  In p (map (@rev ascii) WhiteSpace) -> p <> [].
Proof.
  intros Hp. apply in_map_iff in Hp. destruct Hp as (q & <- & Hq).
  intros E. apply (WhiteSpace_nonempty q Hq).
  rewrite <- (rev_involutive q), E. reflexivity.
Qed.

Lemma trimStart_white (l : list ascii) :
  concat_of WhiteSpace l -> trimStart l = [].
Proof.
  intros H. unfold trimStart.
  destruct (strip_all_spec WhiteSpace WhiteSpace_nonempty (List.length l) l (Nat.le_refl _))
    as (ws & Hs & Hws & Hstuck).
  apply (concat_of_stuck WhiteSpace); [|exact Hstuck].
  apply (concat_of_cancel WhiteSpace WhiteSpace_prefix_free WhiteSpace_nonempty ws Hws).
  rewrite <- Hs. exact H.
Qed.

(** [text.trim()] is empty exactly when the text is white space only. *)
Lemma String_trim_empty (text : string) :
  String_trim text = "" <-> white_only text.
Proof.
  unfold String_trim, white_only. set (l := list_ascii_of_string text).
  split.
  - intros H. apply (f_equal list_ascii_of_string) in H.
    rewrite list_ascii_of_string_of_list_ascii in H. cbn [list_ascii_of_string] in H.
    destruct (strip_all_spec WhiteSpace WhiteSpace_nonempty (List.length l) l (Nat.le_refl _))
      as (ws & Hs & Hws & Hstuck).
    fold (trimStart l) in Hs, Hstuck. set (r := trimStart l) in *.
    unfold trimEnd in H.
    apply (f_equal (@rev ascii)) in H. rewrite rev_involutive in H. cbn [rev] in H.
    destruct (strip_all_spec (map (@rev ascii) WhiteSpace) rev_WhiteSpace_nonempty
                (List.length r) (rev r)) as (ws' & Hs' & Hws' & _).
    { rewrite length_rev. apply Nat.le_refl. }
    rewrite H, app_nil_r in Hs'. rewrite <- Hs' in Hws'.
    apply concat_of_rev in Hws'. rewrite rev_involutive, map_map in Hws'.
    rewrite (map_ext _ (fun x => x)) in Hws' by (intros; apply rev_involutive).
    rewrite map_id in Hws'.
    rewrite (concat_of_stuck WhiteSpace r Hws' Hstuck), app_nil_r in Hs.
    rewrite Hs. exact Hws.
  - intros H. rewrite (trimStart_white l H). reflexivity.
Qed.

(** ** C7: decoding the response *)

Lemma filter_no_write (ext : list Action) :
  Forall no_write ext -> filter is_write ext = [].
Proof.
  induction 1 as [|a ext Ha _ IH]; [reflexivity|].
  cbn [filter]. unfold no_write in Ha. rewrite Ha. exact IH.
Qed.

Lemma decode_response_cases (JSON_parse : string -> string + JSON)
    (received : bytes) (s : State) :
  let jsonText := Buffer_toString received in
  decode_response JSON_parse received s =
  if String.eqb (String_trim jsonText) "" then (Raise EmptyResponse, s)
  else
    match JSON_parse jsonText with
    | inr parsed => (Ret parsed, s)
    | inl message =>
        (Raise (ParseFailed message),
         mkState (clock s) (awaits s) (listening s) (expectedLength s)
                 (trace s ++ [ AConsoleError "JSON parse error. Full response text:";
                               AConsoleError (JSON_stringify (JStr jsonText)) ]))
    end.
Proof.
  cbv zeta. unfold decode_response.
  destruct (String.eqb _ _); [reflexivity|].
  destruct (JSON_parse _); mrun; [|reflexivity].
  rewrite <- app_assoc. reflexivity.
Qed.

(** C7, as the code has it.  The text is what [toString('utf8')] makes of
    the accumulated bytes, every ill-formed sequence replaced by U+FFFD.
    The trimmed text is empty exactly when the text is empty or made of
    white space only.  Decoding raises the empty-response error exactly in
    that case.  It raises the parse error exactly when the text is not
    white space only and [JSON.parse] rejects it; the error carries the
    parser's message, and the full text, quoted, is written to the error
    console before the error is raised.  It returns the parsed value
    exactly when the text is not white space only and [JSON.parse] accepts
    it.  Decoding writes to no characteristic, and it is the last step of
    the exchange: whatever it gives, the writes of the exchange are those
    made before it. *)
Theorem decode_response_outcomes (JSON_parse : string -> string + JSON)
    (received : bytes) (s : State) :
  let jsonText := Buffer_toString received in
  let result := decode_response JSON_parse received s in
  (String_trim jsonText = "" <-> white_only jsonText) /\
  (fst result = Raise EmptyResponse <-> white_only jsonText) /\
  (forall message,
      fst result = Raise (ParseFailed message) <->
      ~ white_only jsonText /\ JSON_parse jsonText = inl message) /\
  (forall message,
      fst result = Raise (ParseFailed message) ->
      trace (snd result) =
      trace s ++ [ AConsoleError "JSON parse error. Full response text:";
                   AConsoleError (quote jsonText) ]) /\
  (forall parsed,
      fst result = Ret parsed <->
      ~ white_only jsonText /\ JSON_parse jsonText = inr parsed) /\
  fst result <> OutOfFuel /\
  evolves no_write s (snd result) /\
  (forall peer fuel method paramsObject s0,
      transfer peer fuel method paramsObject s0 = (Ret received, s) ->
      exchange peer JSON_parse fuel method paramsObject s0 = result /\
      filter is_write (trace (snd result)) = filter is_write (trace s)).
Proof.
  intros jsonText result.
  assert (Hev : evolves no_write s (snd result)).
  { apply decode_response_evolves. reflexivity. }
  pose proof (decode_response_cases JSON_parse received s) as Hc.
  cbv zeta in Hc. fold jsonText in Hc. fold result in Hc.
  pose proof (String_trim_empty jsonText) as Hw.
  repeat match goal with |- _ /\ _ => split end.
  - exact Hw.
  - rewrite <- Hw, Hc. split.
    + destruct (String.eqb_spec (String_trim jsonText) "") as [E|E]; [intros _; exact E|].
      destruct (JSON_parse jsonText); cbn [fst]; intros H; discriminate H.
    + intros E. apply String.eqb_eq in E. rewrite E. reflexivity.
  - intros message. rewrite <- Hw, Hc. split.
    + destruct (String.eqb_spec (String_trim jsonText) "") as [E|E];
        [cbn [fst]; intros H; discriminate H|].
      destruct (JSON_parse jsonText) as [m|v]; cbn [fst]; intros H;
        [|discriminate H]. injection H as ->. split; [exact E | reflexivity].
    + intros [E Hp]. apply String.eqb_neq in E. rewrite E, Hp. reflexivity.
  - intros message. rewrite Hc.
    destruct (String.eqb _ _); [cbn [fst]; intros H; discriminate H|].
    destruct (JSON_parse jsonText) as [m|v]; cbn [fst snd trace]; intros H;
      [reflexivity | discriminate H].
  - intros parsed. rewrite <- Hw, Hc. split.
    + destruct (String.eqb_spec (String_trim jsonText) "") as [E|E];
        [cbn [fst]; intros H; discriminate H|].
      destruct (JSON_parse jsonText) as [m|v]; cbn [fst]; intros H;
        [discriminate H|]. injection H as ->. split; [exact E | reflexivity].
    + intros [E Hp]. apply String.eqb_neq in E. rewrite E, Hp. reflexivity.
  - rewrite Hc. destruct (String.eqb _ _); [discriminate|].
    destruct (JSON_parse jsonText); discriminate.
  - exact Hev.
  - intros peer fuel method paramsObject s0 H. split.
    + unfold exchange. rewrite (bind_ret_eq _ _ s0 received s H). reflexivity.
    + destruct Hev as (_ & _ & ext & E & F).
      rewrite E, filter_app, (filter_no_write ext F), app_nil_r. reflexivity.
Qed.

(** Bytes below 0x80 are decoded to themselves. *)
Lemma utf8_decode_ascii (b : bytes) :
  Forall (fun c => byteZ c < 0x80) b -> utf8_decode [] 0 0x80 0xBF b = b.
Proof.
  induction 1 as [|c b Hc _ IH]; [reflexivity|].
  cbn [utf8_decode]. apply Z.ltb_lt in Hc. rewrite Hc, IH. reflexivity.
Qed.

Lemma Buffer_toString_ascii (b : bytes) :
  Forall (fun c => byteZ c < 0x80) b -> Buffer_from (Buffer_toString b) = b.
Proof.
  intros H. unfold Buffer_from, Buffer_toString.
  rewrite list_byte_of_string_of_list_byte. apply utf8_decode_ascii. exact H.
Qed.

(** What [toString('utf8')] makes of bytes that are no UTF-8: each
    ill-formed part becomes U+FFFD, here the byte FF and the first byte C3
    of a sequence that 28 does not continue. *)
Example Buffer_toString_replaces_ill_formed :
  Buffer_toString [x7b; xff; xc3; x28; x7d] =
  string_of_list_byte ([x7b] ++ REPLACEMENT_CHARACTER ++ REPLACEMENT_CHARACTER ++ [x28; x7d]) /\
  Buffer_toString (Buffer_from "[1,2,3]") = "[1,2,3]".
Proof. split; vm_compute; reflexivity. Qed.

(** C7 fails as stated: on a parse failure the response text does not reach
    the caller.  The error that is raised carries the parser's message and
    nothing else, so two different responses that the parser rejects with
    the same message (here two arrays cut short) raise the same error; the
    text is only written to the error console. *)
Lemma parse_error_carries_no_response_text :
  fst (decode_response cut_short (Buffer_from "[1,2,") initial) =
    Raise (ParseFailed "Unexpected end of JSON input") /\
  fst (decode_response cut_short (Buffer_from "[3,4,") initial) =
    fst (decode_response cut_short (Buffer_from "[1,2,") initial) /\
  Buffer_toString (Buffer_from "[3,4,") <> Buffer_toString (Buffer_from "[1,2,") /\
  trace (snd (decode_response cut_short (Buffer_from "[1,2,") initial)) =
    [ AConsoleError "JSON parse error. Full response text:";
      AConsoleError (quote "[1,2,") ] /\
  trace (snd (decode_response cut_short (Buffer_from "[3,4,") initial)) =
    [ AConsoleError "JSON parse error. Full response text:";
      AConsoleError (quote "[3,4,") ].
Proof.
  repeat match goal with |- _ /\ _ => split end; try (vm_compute; reflexivity).
  vm_compute. discriminate.
Qed.

(** ** The UUID constants *)

Lemma lower_idempotent (c : ascii) : lower (lower c) = lower c.
Proof. destruct c as [[] [] [] [] [] [] [] []]; reflexivity. Qed.

Lemma lower_hyphen (c : ascii) : lower c = "-"%char -> c = "-"%char.
Proof. destruct c as [[] [] [] [] [] [] [] []]; simpl; intros H; try discriminate H; reflexivity. Qed.

Lemma String_toLowerCase_idempotent (s : string) :
  String_toLowerCase (String_toLowerCase s) = String_toLowerCase s.
Proof.
  induction s as [|c s IH]; [reflexivity|].
  cbn [String_toLowerCase]. rewrite lower_idempotent, IH. reflexivity.
Qed.

Lemma String_toLowerCase_length (s : string) :
  String.length (String_toLowerCase s) = String.length s.
Proof. induction s as [|c s IH]; [reflexivity|]. cbn [String_toLowerCase String.length]. rewrite IH. reflexivity. Qed.

Lemma remove_hyphens_lower (s : string) :
  remove_hyphens (String_toLowerCase (remove_hyphens s)) = String_toLowerCase (remove_hyphens s).
Proof.
  induction s as [|c s IH]; [reflexivity|].
  cbn [remove_hyphens]. destruct (Ascii.eqb c "-") eqn:E; [exact IH|].
  cbn [String_toLowerCase remove_hyphens].
  destruct (Ascii.eqb (lower c) "-") eqn:E2.
  - apply Ascii.eqb_eq, lower_hyphen in E2. apply Ascii.eqb_neq in E. contradiction.
  - rewrite IH. reflexivity.
Qed.

Lemma remove_hyphens_length (s : string) :
  (String.length (remove_hyphens s) <= String.length s)%nat.
Proof.
  induction s as [|c s IH]; [apply Nat.le_refl|].
  cbn [remove_hyphens]. destruct (Ascii.eqb c "-"); cbn [String.length]; lia.
Qed.

Lemma normalizeUuid_chars (u : string) (c : ascii) :
  In c (list_ascii_of_string (normalizeUuid u)) -> c <> "-"%char /\ lower c = c.
Proof.
  unfold normalizeUuid. induction u as [|d u IH]; [intros []|].
  cbn [remove_hyphens]. destruct (Ascii.eqb d "-") eqn:E; [exact IH|].
  cbn [String_toLowerCase list_ascii_of_string]. intros [<-|H]; [|exact (IH H)].
  split; [|apply lower_idempotent].
  intros H. apply lower_hyphen in H. apply Ascii.eqb_neq in E. contradiction.
Qed.

Lemma lower_ascii (c : ascii) : (N_of_ascii c <? 128)%N = true -> (N_of_ascii (lower c) <? 128)%N = true.
Proof. destruct c as [[] [] [] [] [] [] [] []]; intros H; try discriminate H; reflexivity. Qed.

Lemma normalizeUuid_ascii (u : string) : ascii_only u = true -> ascii_only (normalizeUuid u) = true.
Proof.
  unfold ascii_only, normalizeUuid. induction u as [|c u IH]; [reflexivity|].
  cbn [list_ascii_of_string forallb remove_hyphens]. intros H.
  apply andb_true_iff in H. destruct H as [Hc Hu].
  destruct (Ascii.eqb c "-"); [exact (IH Hu)|].
  cbn [String_toLowerCase list_ascii_of_string forallb].
  rewrite (lower_ascii c Hc), (IH Hu). reflexivity.
Qed.

(** X1.  On a text of ASCII characters, where the lowering is
    JavaScript's, [normalizeUuid] gives a normal form: the result is ASCII
    again, normalising twice is normalising once, the result holds no hyphen
    and no capital letter, and it is never longer than the input. *)
Theorem normalizeUuid_normal_form (u : string) :
  ascii_only u = true ->
  ascii_only (normalizeUuid u) = true /\
  normalizeUuid (normalizeUuid u) = normalizeUuid u /\
  (forall c, In c (list_ascii_of_string (normalizeUuid u)) ->
             c <> "-"%char /\ lower c = c) /\
  (String.length (normalizeUuid u) <= String.length u)%nat.
Proof.
  intros Hu. split; [|split; [|split]].
  - apply normalizeUuid_ascii. exact Hu.
  - unfold normalizeUuid. rewrite remove_hyphens_lower.
    apply String_toLowerCase_idempotent.
  - apply normalizeUuid_chars.
  - unfold normalizeUuid. rewrite String_toLowerCase_length.
    apply remove_hyphens_length.
Qed.

Lemma normalizeUuid_normal_form_witness :
  ascii_only "5F6D-4f53" = true /\
  normalizeUuid "5F6D-4f53" = "5f6d4f53" /\
  normalizeUuid (normalizeUuid "5F6D-4f53") = normalizeUuid "5F6D-4f53".
Proof.
  split; [reflexivity|]. split; [reflexivity|].
  exact (proj1 (proj2 (normalizeUuid_normal_form "5F6D-4f53" eq_refl))).
Defined.

(** ** The command line *)

(** Induction along the loop of [parseArgs], which moves on by one argument
    or by two. *)
Lemma list_pair_ind {A} (P : list A -> Prop) :
  P [] -> (forall a, P [a]) ->
  (forall a b l, P l -> P (b :: l) -> P (a :: b :: l)) ->
  forall l, P l.
Proof.
  intros H0 H1 H2.
  assert (H : forall l, P l /\ forall a, P (a :: l)).
  { induction l as [|b l [IH1 IH2]].
    - split; [exact H0 | exact H1].
    - split; [apply IH2|]. intros a. apply H2; [exact IH1 | apply IH2]. }
  intros l. apply H.
Qed.

Lemma follows_cons (flag v a : string) (l : list string) :
  follows flag v l -> follows flag v (a :: l).
Proof. intros (pre & post & ->). exists (a :: pre), post. reflexivity. Qed.

Lemma parseArgs_from_step (a b : string) (l : list string) (args : Args) :
  parseArgs_from (a :: b :: l) args =
  if String.eqb a "--address" && nonempty b then parseArgs_from l (set_address b args)
  else if String.eqb a "--name" && nonempty b then parseArgs_from l (set_name b args)
  else if String.eqb a "--method" && nonempty b then parseArgs_from l (set_method b args)
  else if String.eqb a "--params" && nonempty b then parseArgs_from l (set_params b args)
  else if String.eqb a "--scan" then parseArgs_from (b :: l) (set_scan args)
  else parseArgs_from (b :: l) args.
Proof. reflexivity. Qed.

Lemma parseArgs_from_values (f : Flag) (argv : list string) :
  forall args v,
    value_of f (parseArgs_from argv args) = Some v ->
    value_of f args = Some v \/ (v <> "" /\ follows (flag_text f) v argv).
Proof.
  induction argv as [|a|a b l IH1 IH2] using list_pair_ind; intros args v.
  - cbn [parseArgs_from]. auto.
  - cbn [parseArgs_from]. destruct (String.eqb a "--scan"); destruct f; cbn; auto.
  - assert (Hstep : forall g,
              String.eqb a (flag_text g) = true -> nonempty b = true ->
              forall args',
                (forall h, value_of h args' = if Flag_eqb g h then Some b else value_of h args) ->
                value_of f (parseArgs_from l args') = Some v ->
                value_of f args = Some v \/ (v <> "" /\ follows (flag_text f) v (a :: b :: l))).
    { intros g Ha Hb args' Hset H. apply IH1 in H. destruct H as [H|[Hv H]].
      - rewrite Hset in H. destruct (Flag_eqb g f) eqn:E; [|auto].
        right. injection H as <-. split.
        + intros ->. discriminate Hb.
        + apply String.eqb_eq in Ha. subst a. exists [], l.
          destruct g, f; try discriminate E; reflexivity.
      - right. split; [exact Hv|]. apply follows_cons, follows_cons. exact H. }
    assert (Hskip : forall args',
              (forall h, value_of h args' = value_of h args) ->
              value_of f (parseArgs_from (b :: l) args') = Some v ->
              value_of f args = Some v \/ (v <> "" /\ follows (flag_text f) v (a :: b :: l))).
    { intros args' Hsame H. apply IH2 in H. destruct H as [H|[Hv H]].
      - rewrite Hsame in H. auto.
      - right. split; [exact Hv | apply follows_cons; exact H]. }
    rewrite parseArgs_from_step.
    destruct (String.eqb a "--address" && nonempty b) eqn:E1.
    { apply andb_true_iff in E1. destruct E1 as [Ea Eb].
      apply (Hstep FAddress Ea Eb). intros []; reflexivity. }
    destruct (String.eqb a "--name" && nonempty b) eqn:E2.
    { apply andb_true_iff in E2. destruct E2 as [Ea Eb].
      apply (Hstep FName Ea Eb). intros []; reflexivity. }
    destruct (String.eqb a "--method" && nonempty b) eqn:E3.
    { apply andb_true_iff in E3. destruct E3 as [Ea Eb].
      apply (Hstep FMethod Ea Eb). intros []; reflexivity. }
    destruct (String.eqb a "--params" && nonempty b) eqn:E4.
    { apply andb_true_iff in E4. destruct E4 as [Ea Eb].
      apply (Hstep FParams Ea Eb). intros []; reflexivity. }
    destruct (String.eqb a "--scan").
    + apply Hskip. intros []; reflexivity.
    + apply Hskip. intros []; reflexivity.
Qed.

Lemma parseArgs_from_scan (argv : list string) :
  forall args,
    a_scan (parseArgs_from argv args) = true ->
    a_scan args = true \/ In "--scan" argv.
Proof.
  induction argv as [|a|a b l IH1 IH2] using list_pair_ind; intros args.
  - cbn [parseArgs_from]. auto.
  - cbn [parseArgs_from]. destruct (String.eqb a "--scan") eqn:E; [|auto].
    apply String.eqb_eq in E. subst a. intros _. right. left. reflexivity.
  - rewrite parseArgs_from_step.
    repeat match goal with
    | |- context [if ?c && nonempty b then _ else _] =>
        destruct (c && nonempty b);
        [intros H; apply IH1 in H; destruct H as [H|H];
         [left; exact H | right; right; right; exact H]|]
    end.
    destruct (String.eqb a "--scan") eqn:E.
    + apply String.eqb_eq in E. subst a. intros _. right. left. reflexivity.
    + intros H. apply IH2 in H. destruct H as [H|H]; [left; exact H | right; right; exact H].
Qed.

(** X2.  What [parseArgs] reports was on the command line: the value of an
    option is never the empty string and stands right after the option's
    flag among the arguments from index 2 on, and [scan] is set only if
    [--scan] is among them.  So without a flag the option stays [null]. *)
Theorem parseArgs_reports_what_was_given (argv : list string) :
  (forall f v, value_of f (parseArgs argv) = Some v ->
               v <> "" /\ follows (flag_text f) v (skipn 2 argv)) /\
  (a_scan (parseArgs argv) = true -> In "--scan" (skipn 2 argv)) /\
  (forall f, ~ In (flag_text f) (skipn 2 argv) -> value_of f (parseArgs argv) = None).
Proof.
  assert (H1 : forall f v, value_of f (parseArgs argv) = Some v ->
                           v <> "" /\ follows (flag_text f) v (skipn 2 argv)).
  { intros f v H. apply parseArgs_from_values in H.
    destruct H as [H|H]; [destruct f; discriminate H | exact H]. }
  split; [exact H1|]. split.
  - intros H. apply parseArgs_from_scan in H. destruct H as [H|H]; [discriminate H | exact H].
  - intros f Hno. destruct (value_of f (parseArgs argv)) as [v|] eqn:E; [|reflexivity].
    exfalso. apply Hno. destruct (H1 f v E) as (_ & pre & post & ->).
    apply in_or_app. right. left. reflexivity.
Qed.

(** The arguments a start value of the loop is overlaid with. *)
Lemma parseArgs_from_overlay (argv : list string) :
  forall args,
    (forall f, value_of f (parseArgs_from argv args) =
               match value_of f (parseArgs_from argv no_args) with
               | Some w => Some w
               | None => value_of f args
               end) /\
    a_scan (parseArgs_from argv args) = a_scan (parseArgs_from argv no_args) || a_scan args.
Proof.
  induction argv as [|a|a b l IH1 IH2] using list_pair_ind; intros args.
  - cbn [parseArgs_from]. split; [intros []; reflexivity | reflexivity].
  - cbn [parseArgs_from]. destruct (String.eqb a "--scan");
      (split; [intros []; reflexivity | reflexivity]).
  - assert (Hstep : forall set g,
              (forall x h, value_of h (set x) = if Flag_eqb g h then Some b else value_of h x) ->
              (forall x, a_scan (set x) = a_scan x) ->
              (forall f, value_of f (parseArgs_from l (set args)) =
                         match value_of f (parseArgs_from l (set no_args)) with
                         | Some w => Some w
                         | None => value_of f args
                         end) /\
              a_scan (parseArgs_from l (set args)) =
              a_scan (parseArgs_from l (set no_args)) || a_scan args).
    { intros set g Hset Hscan.
      destruct (IH1 (set args)) as [Hv Hs]. destruct (IH1 (set no_args)) as [Hv0 Hs0].
      split.
      - intros f. rewrite Hv, Hv0.
        destruct (value_of f (parseArgs_from l no_args)); [reflexivity|].
        rewrite !Hset. destruct (Flag_eqb g f); [reflexivity|]. destruct f; reflexivity.
      - rewrite Hs, Hs0, !Hscan. cbn [no_args a_scan]. rewrite orb_false_r. reflexivity. }
    rewrite !parseArgs_from_step.
    destruct (String.eqb a "--address" && nonempty b);
      [apply (Hstep (set_address b) FAddress); [intros x []; reflexivity | reflexivity]|].
    destruct (String.eqb a "--name" && nonempty b);
      [apply (Hstep (set_name b) FName); [intros x []; reflexivity | reflexivity]|].
    destruct (String.eqb a "--method" && nonempty b);
      [apply (Hstep (set_method b) FMethod); [intros x []; reflexivity | reflexivity]|].
    destruct (String.eqb a "--params" && nonempty b);
      [apply (Hstep (set_params b) FParams); [intros x []; reflexivity | reflexivity]|].
    destruct (String.eqb a "--scan").
    + destruct (IH2 (set_scan args)) as [Hv Hs]. destruct (IH2 (set_scan no_args)) as [Hv0 Hs0].
      split.
      * intros f. rewrite Hv, Hv0.
        destruct (value_of f (parseArgs_from (b :: l) no_args)); [reflexivity|].
        destruct f; reflexivity.
      * rewrite Hs, Hs0. cbn [set_scan a_scan]. rewrite !orb_true_r. reflexivity.
    + apply IH2.
Qed.

(** X3.  An option given again later on the command line overrides the
    earlier one: with a non-empty value after its flag, the option reported
    is the one the rest of the command line reports when it gives the option
    too, and this value when it does not.  The other options and [scan] are
    those of the rest of the command line: the value is consumed as it is,
    also when it is itself the text of a flag. *)
Theorem parseArgs_later_option_wins
    (node script : string) (f : Flag) (v : string) (rest : list string) :
  v <> "" ->
  let args := parseArgs (node :: script :: flag_text f :: v :: rest) in
  let later := parseArgs (node :: script :: rest) in
  value_of f args = match value_of f later with
                    | Some w => Some w
                    | None => Some v
                    end /\
  (forall g, g <> f -> value_of g args = value_of g later) /\
  a_scan args = a_scan later.
Proof.
  intros Hv. unfold parseArgs. cbn [skipn].
  assert (Hne : nonempty v = true).
  { unfold nonempty. apply negb_true_iff, String.eqb_neq. exact Hv. }
  assert (Hrun : exists set,
             parseArgs_from (flag_text f :: v :: rest) no_args = parseArgs_from rest (set no_args) /\
             (forall h, value_of h (set no_args) = if Flag_eqb f h then Some v else None) /\
             a_scan (set no_args) = false).
  { destruct f; cbn [parseArgs_from flag_text String.eqb Ascii.eqb Bool.eqb andb]; rewrite Hne.
    - exists (set_address v). split; [reflexivity|]. split; [intros []|]; reflexivity.
    - exists (set_name v). split; [reflexivity|]. split; [intros []|]; reflexivity.
    - exists (set_method v). split; [reflexivity|]. split; [intros []|]; reflexivity.
    - exists (set_params v). split; [reflexivity|]. split; [intros []|]; reflexivity. }
  destruct Hrun as (set & -> & Hset & Hscan).
  destruct (parseArgs_from_overlay rest (set no_args)) as [Hov Hs].
  cbv zeta. split; [|split].
  - rewrite Hov, Hset. destruct f; reflexivity.
  - intros g Hg. rewrite Hov, Hset.
    destruct (value_of g (parseArgs_from rest no_args)) eqn:E; [reflexivity|].
    destruct f, g; try reflexivity; contradiction Hg; reflexivity.
  - rewrite Hs, Hscan. apply orb_false_r.
Qed.

Lemma parseArgs_later_option_wins_witness :
  "--scan" <> "" /\
  a_address (parseArgs ["node"; "shelly-ble-rpc.js"; "--address"; "--scan";
                        "--address"; "AA:BB"]) = Some "AA:BB" /\
  a_address (parseArgs ["node"; "shelly-ble-rpc.js"; "--address"; "--scan"]) = Some "--scan" /\
  a_scan (parseArgs ["node"; "shelly-ble-rpc.js"; "--address"; "--scan"]) = false.
Proof.
  assert (H : "--scan" <> "") by discriminate.
  split; [exact H|].
  pose proof (parseArgs_later_option_wins "node" "shelly-ble-rpc.js" FAddress "--scan"
                ["--address"; "AA:BB"] H) as (H1 & _ & _).
  pose proof (parseArgs_later_option_wins "node" "shelly-ble-rpc.js" FAddress "--scan"
                [] H) as (H2 & _ & H3).
  split; [exact H1|]. split; [exact H2 | exact H3].
Defined.

(** ** The scan and the discovery *)

Lemma set_add_new (a : string) (l : set string) :
  ~ In a l -> set_add string_dec a l = l ++ [a].
Proof.
  induction l as [|b l IH]; intros H; [reflexivity|].
  cbn [set_add]. destruct (string_dec a b) as [->|_].
  - exfalso. apply H. left. reflexivity.
  - cbn [app]. rewrite IH; [reflexivity|]. intros Hin. apply H. right. exact Hin.
Qed.

Lemma set_mem_In (a : string) (l : set string) :
  set_mem string_dec a l = true <-> In a l.
Proof.
  split; [apply set_mem_correct1 | apply set_mem_correct2].
Qed.

(** One report: either the peripheral is entered at the end of the list, or
    nothing changes. *)
Lemma scan_onDiscover_cases (devices : list Device) (p : Peripheral) :
  scan_onDiscover (devices, map d_address devices) p =
  if shelly_test (advertisedName p) &&
     negb (set_mem string_dec (peripheral_address p) (map d_address devices))
  then (devices ++ [entry p], map d_address (devices ++ [entry p]))
  else (devices, map d_address devices).
Proof.
  unfold scan_onDiscover.
  destruct (shelly_test _ && negb _) eqn:E; [|reflexivity].
  apply andb_true_iff in E. destruct E as [_ E]. apply negb_true_iff in E.
  rewrite set_add_new, map_app; [reflexivity|].
  intros Hin. apply set_mem_In in Hin. congruence.
Qed.

Lemma scan_fold (discovered : list Peripheral) :
  forall devices,
    NoDup (map d_address devices) ->
    exists more,
      fold_left scan_onDiscover discovered (devices, map d_address devices) =
      (devices ++ more, map d_address (devices ++ more)) /\
      NoDup (map d_address (devices ++ more)) /\
      Forall (fun d => exists p, In p discovered /\ d = entry p /\
                                 shelly_test (advertisedName p) = true) more /\
      (forall p, In p discovered -> shelly_test (advertisedName p) = true ->
                 In (peripheral_address p) (map d_address (devices ++ more))) /\
      (forall pre p post,
         discovered = pre ++ p :: post ->
         shelly_test (advertisedName p) = true ->
         ~ In (peripheral_address p) (map d_address devices) ->
         (forall q, In q pre -> shelly_test (advertisedName q) = true ->
                    peripheral_address q <> peripheral_address p) ->
         In (entry p) more).
Proof.
  induction discovered as [|p rest IH]; intros devices Hnd.
  - exists []. rewrite app_nil_r. cbn [fold_left].
    repeat match goal with |- _ /\ _ => split end; auto.
    + intros p [].
    + intros [|] ? ? H; discriminate H.
  - cbn [fold_left]. rewrite scan_onDiscover_cases.
    destruct (shelly_test (advertisedName p)) eqn:Es; cbn [andb];
      [destruct (set_mem string_dec (peripheral_address p) (map d_address devices)) eqn:Em;
       cbn [negb]|].
    + (* already listed *)
      apply set_mem_In in Em.
      destruct (IH devices Hnd) as (more & Hrun & Hnd' & Hall & Hcover & Hfirst).
      exists more. repeat match goal with |- _ /\ _ => split end; auto.
      * eapply Forall_impl; [|exact Hall].
        intros d (q & Hq & Hd & Hs). exists q. split; [right; exact Hq | auto].
      * intros q [<-|Hq] Hs; [|apply Hcover; assumption].
        rewrite map_app. apply in_or_app. left. exact Em.
      * intros pre q post Heq Hs Hnew Hpre. destruct pre as [|p' pre].
        -- injection Heq as <- _. contradiction.
        -- injection Heq as <- Heq. apply (Hfirst pre q post Heq Hs Hnew).
           intros q' Hq'. apply Hpre. right. exact Hq'.
    + (* entered *)
      assert (Hnew : ~ In (peripheral_address p) (map d_address devices)).
      { intros Hin. apply set_mem_In in Hin. congruence. }
      assert (Hnd1 : NoDup (map d_address (devices ++ [entry p]))).
      { rewrite map_app. apply NoDup_app; [exact Hnd | repeat constructor; intros [] |].
        intros a Ha [<-|[]]. apply Hnew. exact Ha. }
      destruct (IH (devices ++ [entry p]) Hnd1) as (more & Hrun & Hnd' & Hall & Hcover & Hfirst).
      exists (entry p :: more).
      replace (devices ++ entry p :: more) with ((devices ++ [entry p]) ++ more)
        by (rewrite <- app_assoc; reflexivity).
      repeat match goal with |- _ /\ _ => split end; auto.
      * constructor.
        -- exists p. split; [left; reflexivity | auto].
        -- eapply Forall_impl; [|exact Hall].
           intros d (q & Hq & Hd & Hs). exists q. split; [right; exact Hq | auto].
      * intros q [<-|Hq] Hs; [|apply Hcover; assumption].
        rewrite !map_app. apply in_or_app. left. apply in_or_app. right. left. reflexivity.
      * intros pre q post Heq Hs Hnq Hpre. destruct pre as [|p' pre].
        -- injection Heq as <- _. left. reflexivity.
        -- injection Heq as <- Heq. right. apply (Hfirst pre q post Heq Hs).
           ++ rewrite map_app. intros Hin. apply in_app_or in Hin.
              destruct Hin as [Hin|[Hin|[]]]; [contradiction|].
              apply (Hpre p (or_introl eq_refl) Es). exact Hin.
           ++ intros q' Hq'. apply Hpre. right. exact Hq'.
    + (* not a Shelly *)
      destruct (IH devices Hnd) as (more & Hrun & Hnd' & Hall & Hcover & Hfirst).
      exists more. repeat match goal with |- _ /\ _ => split end; auto.
      * eapply Forall_impl; [|exact Hall].
        intros d (q & Hq & Hd & Hs). exists q. split; [right; exact Hq | auto].
      * intros q [<-|Hq] Hs; [congruence | apply Hcover; assumption].
      * intros pre q post Heq Hs Hnew Hpre. destruct pre as [|p' pre].
        -- injection Heq as <- _. congruence.
        -- injection Heq as <- Heq. apply (Hfirst pre q post Heq Hs Hnew).
           intros q' Hq'. apply Hpre. right. exact Hq'.
Qed.

(** X4.  The list [scanForDevices] resolves with holds each address once:
    no two entries share their (lower-case) address.  Every entry is made
    from a discovered peripheral whose advertised name matches /shelly/i,
    every discovered peripheral with such a name has its address in the
    list, and the entry of an address is the first such peripheral seen with
    it.  Peripherals without address and id all have the address [''], so
    at most one of them is listed. *)
Theorem scanForDevices_lists_each_address_once (discovered : list Peripheral) :
  let devices := scanForDevices discovered in
  NoDup (map d_address devices) /\
  (forall d, In d devices ->
             exists p, In p discovered /\ d = entry p /\
                       shelly_test (advertisedName p) = true) /\
  (forall p, In p discovered -> shelly_test (advertisedName p) = true ->
             In (peripheral_address p) (map d_address devices)) /\
  (forall pre p post,
     discovered = pre ++ p :: post ->
     shelly_test (advertisedName p) = true ->
     (forall q, In q pre -> shelly_test (advertisedName q) = true ->
                peripheral_address q <> peripheral_address p) ->
     In (entry p) devices).
Proof.
  destruct (scan_fold discovered [] (NoDup_nil _))
    as (more & Hrun & Hnd & Hall & Hcover & Hfirst).
  assert (E : scanForDevices discovered = more) by exact (f_equal fst Hrun).
  cbv zeta. rewrite E. cbn [app map] in *.
  repeat match goal with |- _ /\ _ => split end; auto.
  - intros d Hd. rewrite Forall_forall in Hall. apply Hall. exact Hd.
  - intros pre p post Heq Hs Hpre. apply (Hfirst pre p post Heq Hs); [intros []|exact Hpre].
Qed.

Lemma find_first {A} (f : A -> bool) (l : list A) :
  match find f l with
  | Some x => f x = true /\
              exists pre post, l = pre ++ x :: post /\ Forall (fun y => f y = false) pre
  | None => Forall (fun y => f y = false) l
  end.
Proof.
  induction l as [|a l IH]; [constructor|].
  cbn [find]. destruct (f a) eqn:E.
  - split; [exact E|]. exists [], l. split; [reflexivity | constructor].
  - destruct (find f l) as [x|].
    + destruct IH as (Hx & pre & post & -> & Hpre). split; [exact Hx|].
      exists (a :: pre), post. split; [reflexivity | constructor; assumption].
    + constructor; assumption.
Qed.

(** X5.  [discoverShelly] resolves with the first discovered peripheral
    that passes the listener's test, and rejects (the timeout) exactly when
    none does.  When an address or a name is given, the resolved peripheral
    has that address, compared in lower case, or exactly that advertised
    name; a peripheral that only looks like a Shelly is not taken.  When
    neither is given (an empty string counts as not given), the resolved
    peripheral's advertised name matches /shelly/i. *)
Theorem discoverShelly_resolves_first_match (args : Args) (discovered : list Peripheral) :
  match discoverShelly args discovered with
  | Some p =>
      (exists pre post,
         discovered = pre ++ p :: post /\
         Forall (fun q => discover_matches args q = false) pre) /\
      (if given (a_address args) || given (a_name args) then
         (given (a_address args) = true /\
          peripheral_address p = String_toLowerCase (or_text (a_address args) "")) \/
         (given (a_name args) = true /\
          advertisedName p = or_text (a_name args) "")
       else shelly_test (advertisedName p) = true)
  | None => Forall (fun q => discover_matches args q = false) discovered
  end.
Proof.
  unfold discoverShelly.
  pose proof (find_first (discover_matches args) discovered) as H.
  destruct (find (discover_matches args) discovered) as [p|]; [|exact H].
  destruct H as (Hp & Hfirst). split; [exact Hfirst|].
  unfold discover_matches in Hp.
  destruct (given (a_address args)) eqn:Ea; destruct (given (a_name args)) eqn:En;
    cbn [andb orb negb] in *.
  - rewrite ?orb_false_r in Hp. apply orb_true_iff in Hp.
    destruct Hp as [Hp|Hp]; apply String.eqb_eq in Hp; auto.
  - rewrite ?orb_false_r in Hp. apply String.eqb_eq in Hp. auto.
  - rewrite ?orb_false_r in Hp. apply String.eqb_eq in Hp. auto.
  - exact Hp.
Qed.

(** ** The characteristics *)

Lemma Map_get_set {V} (k k' : string) (v : V) (m : list (string * V)) :
  Map_get k (Map_set k' v m) = if String.eqb k' k then Some v else Map_get k m.
Proof.
  induction m as [|[k0 v0] m IH]; cbn [Map_set Map_get].
  - destruct (String.eqb k' k); reflexivity.
  - destruct (String.eqb k0 k') eqn:E0; cbn [Map_get].
    + apply String.eqb_eq in E0. subst k0. destruct (String.eqb k' k); reflexivity.
    + rewrite IH. destruct (String.eqb k0 k) eqn:E1; [|reflexivity].
      apply String.eqb_eq in E1. subst k0. rewrite String.eqb_sym, E0. reflexivity.
Qed.

Lemma find_last {A} (f : A -> bool) (l : list A) (a : A) :
  find f (rev (a :: l)) =
  match find f (rev l) with
  | Some x => Some x
  | None => if f a then Some a else None
  end.
Proof.
  cbn [rev]. induction (rev l) as [|b r IH]; cbn [app find]; [reflexivity|].
  destruct (f b); [reflexivity | exact IH].
Qed.

Section Lookup.

Variable Characteristic : Type.
Variable uuid : Characteristic -> string.

Lemma findChars_fold (uuids : list string) (u : string) (characteristics : list Characteristic) :
  forall map,
    Map_get u
      (fold_left (fun map ch => if includes uuids (uuid ch)
                                then Map_set (uuid ch) ch map else map)
                 characteristics map) =
    if includes uuids u then
      match find (fun ch => String.eqb (uuid ch) u) (rev characteristics) with
      | Some ch => Some ch
      | None => Map_get u map
      end
    else Map_get u map.
Proof.
  induction characteristics as [|c rest IH]; intros map.
  - cbn [fold_left rev find]. destruct (includes uuids u); reflexivity.
  - cbn [fold_left]. rewrite IH, find_last.
    assert (Hstep : Map_get u (if includes uuids (uuid c)
                               then Map_set (uuid c) c map else map) =
                    if String.eqb (uuid c) u && includes uuids u
                    then Some c else Map_get u map).
    { destruct (String.eqb (uuid c) u) eqn:E; cbn [andb].
      - apply String.eqb_eq in E. subst u.
        destruct (includes uuids (uuid c)); [|reflexivity].
        rewrite Map_get_set, String.eqb_refl. reflexivity.
      - destruct (includes uuids (uuid c)); [|reflexivity].
        rewrite Map_get_set, E. reflexivity. }
    rewrite Hstep.
    destruct (includes uuids u); [|rewrite andb_false_r; reflexivity].
    destruct (find _ (rev rest)) as [x|]; [reflexivity|].
    rewrite andb_true_r. destruct (String.eqb (uuid c) u); reflexivity.
Qed.

(** X6.  The map [findCharsByUuid] builds answers a lookup with the last of
    the characteristics that has the UUID, when the UUID is one of those
    asked for, and with nothing otherwise: a characteristic listed again
    replaces the earlier one, and a UUID that was not asked for is never in
    the map.  UUIDs are compared as they are, capital letters included. *)
Theorem findCharsByUuid_keeps_last (characteristics : list Characteristic)
    (uuids : list string) (u : string) :
  Map_get u (findCharsByUuid Characteristic uuid characteristics uuids) =
  if includes uuids u
  then find (fun ch => String.eqb (uuid ch) u) (rev characteristics)
  else None.
Proof.
  unfold findCharsByUuid. rewrite findChars_fold. cbn [Map_get].
  destruct (includes uuids u); [|reflexivity].
  destruct (find _ (rev characteristics)); reflexivity.
Qed.

Lemma find_uuid_none (u : string) (l : list Characteristic) :
  find (fun ch => String.eqb (uuid ch) u) l = None <-> ~ In u (map uuid l).
Proof.
  induction l as [|c l IH]; cbn [find map In]; [tauto|].
  destruct (String.eqb (uuid c) u) eqn:E.
  - apply String.eqb_eq in E. split; [discriminate | intros H; exfalso; apply H; auto].
  - apply String.eqb_neq in E. rewrite IH. tauto.
Qed.

Lemma find_uuid_some (u : string) (l : list Characteristic) (c : Characteristic) :
  find (fun ch => String.eqb (uuid ch) u) l = Some c -> uuid c = u /\ In c l.
Proof.
  intros H. apply find_some in H. destruct H as [Hin H].
  apply String.eqb_eq in H. auto.
Qed.

Lemma UUIDs_distinct :
  UUID_DATA <> UUID_TXCTL /\ UUID_DATA <> UUID_RXCTL /\ UUID_TXCTL <> UUID_RXCTL.
Proof. repeat split; intros H; vm_compute in H; discriminate H. Qed.

Lemma required_lookup (characteristics : list Characteristic) (u : string) :
  includes [UUID_DATA; UUID_TXCTL; UUID_RXCTL] u = true ->
  Map_get u (findCharsByUuid Characteristic uuid characteristics
                             [UUID_DATA; UUID_TXCTL; UUID_RXCTL]) =
  find (fun ch => String.eqb (uuid ch) u) (rev characteristics).
Proof.
  intros H. unfold findCharsByUuid. rewrite findChars_fold, H. cbn [Map_get].
  destruct (find _ (rev characteristics)); reflexivity.
Qed.

(** X7.  The check of lines 235-249 fails exactly when one of the three
    UUIDs (data, TX_CTL, RX_CTL) is the UUID of none of the discovered
    characteristics, whatever else is discovered and in whatever order.
    When it passes, the three characteristics it yields are discovered ones
    that have exactly these UUIDs, so no characteristic plays two roles. *)
Theorem required_characteristics_found_iff (characteristics : list Characteristic) :
  (required_characteristics Characteristic uuid characteristics = None <->
   exists u, In u [UUID_DATA; UUID_TXCTL; UUID_RXCTL] /\
             ~ In u (map uuid characteristics)) /\
  (forall dataChar txCtlChar rxCtlChar,
     required_characteristics Characteristic uuid characteristics =
       Some (dataChar, txCtlChar, rxCtlChar) ->
     (In dataChar characteristics /\ uuid dataChar = UUID_DATA) /\
     (In txCtlChar characteristics /\ uuid txCtlChar = UUID_TXCTL) /\
     (In rxCtlChar characteristics /\ uuid rxCtlChar = UUID_RXCTL) /\
     dataChar <> txCtlChar /\ dataChar <> rxCtlChar /\ txCtlChar <> rxCtlChar).
Proof.
  unfold required_characteristics. cbv zeta.
  rewrite !required_lookup by reflexivity.
  pose proof (find_uuid_none UUID_DATA (rev characteristics)) as Nd.
  pose proof (find_uuid_none UUID_TXCTL (rev characteristics)) as Nt.
  pose proof (find_uuid_none UUID_RXCTL (rev characteristics)) as Nr.
  pose proof (find_uuid_some UUID_DATA (rev characteristics)) as Sd.
  pose proof (find_uuid_some UUID_TXCTL (rev characteristics)) as St.
  pose proof (find_uuid_some UUID_RXCTL (rev characteristics)) as Sr.
  assert (Hin : forall u, In u (map uuid (rev characteristics)) <->
                          In u (map uuid characteristics)).
  { intros u. rewrite map_rev. symmetry. apply in_rev. }
  rewrite Hin in Nd, Nt, Nr.
  destruct (find (fun ch => String.eqb (uuid ch) UUID_DATA) (rev characteristics))
    as [d|] eqn:Ed;
    [destruct (find (fun ch => String.eqb (uuid ch) UUID_TXCTL) (rev characteristics))
       as [t|] eqn:Et;
     [destruct (find (fun ch => String.eqb (uuid ch) UUID_RXCTL) (rev characteristics))
        as [r|] eqn:Er|]|].
  - destruct (Sd d eq_refl) as [Hd1 Hd2]. destruct (St t eq_refl) as [Ht1 Ht2].
    destruct (Sr r eq_refl) as [Hr1 Hr2]. apply in_rev in Hd2, Ht2, Hr2.
    split.
    + split; [discriminate|]. intros (u & [<-|[<-|[<-|[]]]] & Hu); exfalso.
      * apply Hu. rewrite <- Hd1. apply in_map. exact Hd2.
      * apply Hu. rewrite <- Ht1. apply in_map. exact Ht2.
      * apply Hu. rewrite <- Hr1. apply in_map. exact Hr2.
    + intros ? ? ? [= <- <- <-].
      destruct UUIDs_distinct as (D1 & D2 & D3).
      split; [split; assumption|]. split; [split; assumption|].
      split; [split; assumption|]. split; [|split].
      * intros E. apply D1. rewrite <- Hd1, <- Ht1, E. reflexivity.
      * intros E. apply D2. rewrite <- Hd1, <- Hr1, E. reflexivity.
      * intros E. apply D3. rewrite <- Ht1, <- Hr1, E. reflexivity.
  - split.
    + split; [intros _|reflexivity]. exists UUID_RXCTL. split; [right; right; left; reflexivity|].
      apply Nr. reflexivity.
    + discriminate.
  - split.
    + split; [intros _|reflexivity]. exists UUID_TXCTL. split; [right; left; reflexivity|].
      apply Nt. reflexivity.
    + discriminate.
  - split.
    + split; [intros _|reflexivity]. exists UUID_DATA. split; [left; reflexivity|].
      apply Nd. reflexivity.
    + discriminate.
Qed.

End Lookup.

(** ** The selection menu *)

(** X8.  Whatever is typed, [promptUserSelection] resolves with the
    peripheral of a listed device, with a custom address, or with [null],
    and with [null] only when the list is empty.  A number [c] between 1 and
    the number of devices selects the [c]-th device; the number after the
    last one asks for an address, which is trimmed; every other answer (no
    number at all, 0, a negative number, a number beyond the menu) selects
    the first device. *)
Theorem promptUserSelection_stays_in_menu
    (devices : list Device) (answer customAddress : string) :
  let n := Z.of_nat (List.length devices) in
  let choice := parseInt (String_trim answer) in
  match promptUserSelection devices answer customAddress with
  | Chosen p =>
      exists d,
        In d devices /\ p = d_peripheral d /\
        match choice with
        | Some c =>
            if (1 <=? c) && (c <=? n)
            then nth_error devices (Z.to_nat (c - 1)) = Some d
            else c <> n + 1 /\ nth_error devices 0 = Some d
        | None => nth_error devices 0 = Some d
        end
  | CustomAddress a => choice = Some (n + 1) /\ a = String_trim customAddress
  | NoDevice =>
      devices = [] /\
      match choice with Some c => c <> n + 1 | None => True end
  end.
Proof.
  cbv zeta. unfold promptUserSelection.
  assert (Hfirst : forall (Q : Prop),
            Q ->
            match match devices with
                  | d :: _ => Chosen (d_peripheral d)
                  | [] => NoDevice
                  end with
            | Chosen p => exists d, In d devices /\ p = d_peripheral d /\
                                    (Q /\ nth_error devices 0 = Some d)
            | CustomAddress a => False
            | NoDevice => devices = [] /\ Q
            end).
  { intros Q HQ. destruct devices as [|d rest]; [auto|].
    exists d. split; [left; reflexivity|]. auto. }
  destruct (parseInt (String_trim answer)) as [c|].
  - destruct ((1 <=? c) && (c <=? Z.of_nat (List.length devices))) eqn:Ein.
    + apply andb_true_iff in Ein. destruct Ein as [E1 E2].
      apply Z.leb_le in E1, E2.
      destruct (nth_error devices (Z.to_nat (c - 1))) as [d|] eqn:En.
      * exists d. split; [eapply nth_error_In; exact En|]. auto.
      * exfalso. apply nth_error_None in En. lia.
    + destruct (c =? Z.of_nat (List.length devices) + 1) eqn:Ec.
      * apply Z.eqb_eq in Ec. subst c. auto.
      * apply Z.eqb_neq in Ec.
        specialize (Hfirst (c <> Z.of_nat (List.length devices) + 1) Ec).
        destruct devices as [|d rest]; [exact Hfirst|].
        destruct Hfirst as (d' & H1 & H2 & H3). exists d'. auto.
  - specialize (Hfirst True I).
    destruct devices as [|d rest]; [exact Hfirst|].
    destruct Hfirst as (d' & H1 & H2 & _ & H3). exists d'. auto.
Qed.

(** *** The numbers of the menu *)

Lemma digits_numeral_acc (d : Decimal.uint) :
  forall acc : positive,
    digits 10 (numeral d) (Some (Z.pos acc)) = Some (Z.pos (Pos.of_uint_acc d acc)).
Proof.
  unfold numeral.
  induction d as [|d IH|d IH|d IH|d IH|d IH|d IH|d IH|d IH|d IH|d IH]; intros acc;
    [reflexivity|..];
    cbn [NilEmpty.string_of_uint list_ascii_of_string digits Pos.of_uint_acc];
    match goal with
    | |- context [digit_value 10 ?c] =>
        let v := eval vm_compute in (digit_value 10 c) in
        change (digit_value 10 c) with v
    end;
    cbv beta iota; rewrite <- IH; f_equal; f_equal; lia.
Qed.

Lemma digits_numeral (d : Decimal.uint) :
  digits 10 (numeral d) (Some 0) = Some (Z.of_N (Pos.of_uint d)).
Proof.
  unfold numeral.
  induction d as [|d IH|d IH|d IH|d IH|d IH|d IH|d IH|d IH|d IH|d IH];
    [reflexivity|exact IH|..];
    cbn [NilEmpty.string_of_uint list_ascii_of_string digits Pos.of_uint];
    match goal with
    | |- context [digit_value 10 ?c] =>
        let v := eval vm_compute in (digit_value 10 c) in
        change (digit_value 10 c) with v
    end;
    cbv beta iota; apply (digits_numeral_acc d).
Qed.

Lemma numeral_digits (d : Decimal.uint) : Forall (fun c => is_digit c = true) (numeral d).
Proof.
  unfold numeral.
  induction d as [|d IH|d IH|d IH|d IH|d IH|d IH|d IH|d IH|d IH|d IH];
    cbn [NilEmpty.string_of_uint list_ascii_of_string]; constructor;
    solve [reflexivity | exact IH].
Qed.

Lemma numeral_nonempty (d : Decimal.uint) : d <> Decimal.Nil -> numeral d <> [].
Proof. destruct d; intros H; [contradiction H; reflexivity|..]; discriminate. Qed.

Lemma digits_from_nothing (s : list ascii) :
  s <> [] -> Forall (fun c => is_digit c = true) s ->
  digits 10 s None = digits 10 s (Some 0).
Proof.
  destruct s as [|c s]; [congruence|]. intros _ H. inversion H as [|? ? Hc _]. subst.
  cbn [digits]. unfold is_digit in Hc.
  destruct (digit_value 10 c) as [v|]; [|discriminate]. reflexivity.
Qed.

Lemma strip_one_digit (ps : list (list ascii)) (c : ascii) (s : list ascii) :
  digit_free ps = true -> is_digit c = true -> strip_one ps (c :: s) = None.
Proof.
  intros Hps Hc. induction ps as [|p ps IH]; [reflexivity|].
  cbn [digit_free forallb] in Hps. apply andb_true_iff in Hps. destruct Hps as [Hp Hps].
  cbn [strip_one]. destruct p as [|d p]; [discriminate|].
  cbn [strip_prefix]. destruct (Ascii.eqb d c) eqn:E.
  - apply Ascii.eqb_eq in E. subst d. rewrite Hc in Hp. discriminate.
  - apply IH. exact Hps.
Qed.

Lemma strip_all_digit (ps : list (list ascii)) (fuel : nat) (s : list ascii) :
  digit_free ps = true ->
  match s with c :: _ => is_digit c = true | [] => True end ->
  strip_all fuel ps s = s.
Proof.
  intros Hps Hs. destruct fuel; [reflexivity|]. cbn [strip_all].
  destruct s as [|c s].
  - assert (H : strip_one ps [] = None).
    { clear Hs. induction ps as [|p ps IH]; [reflexivity|].
      cbn [digit_free forallb] in Hps. apply andb_true_iff in Hps. destruct Hps as [Hp Hps].
      cbn [strip_one]. destruct p; [discriminate|]. cbn [strip_prefix]. apply IH. exact Hps. }
    rewrite H. reflexivity.
  - rewrite strip_one_digit by assumption. reflexivity.
Qed.

Lemma String_trim_digits (text : string) :
  Forall (fun c => is_digit c = true) (list_ascii_of_string text) ->
  String_trim text = text.
Proof.
  intros H. unfold String_trim, trimEnd, trimStart.
  rewrite (strip_all_digit WhiteSpace); [|reflexivity|].
  - rewrite strip_all_digit; [|reflexivity|].
    + rewrite rev_involutive. apply string_of_list_ascii_of_string.
    + apply Forall_rev in H. destruct (rev (list_ascii_of_string text)); [exact I|].
      inversion H. assumption.
  - destruct (list_ascii_of_string text); [exact I|]. inversion H. assumption.
Qed.

Lemma parseInt_digits (s : string) :
  list_ascii_of_string s <> [] ->
  Forall (fun c => is_digit c = true) (list_ascii_of_string s) ->
  parseInt s = match digits 10 (list_ascii_of_string s) (Some 0) with
               | Some v => Some v
               | None => None
               end.
Proof.
  intros Hne Hall. unfold parseInt, trimStart.
  rewrite (strip_all_digit WhiteSpace); [|reflexivity|].
  2:{ destruct (list_ascii_of_string s); [exact I|]. inversion Hall. assumption. }
  rewrite <- (digits_from_nothing _ Hne Hall).
  destruct (list_ascii_of_string s) as [|c l]; [congruence|].
  inversion Hall as [|? ? Hc Hl]. subst.
  assert (Hsign : Ascii.eqb c "-" = false /\ Ascii.eqb c "+" = false).
  { split; destruct (Ascii.eqb c _) eqn:E; try reflexivity;
      apply Ascii.eqb_eq in E; subst c; discriminate Hc. }
  destruct Hsign as [-> ->]. cbn [fst snd].
  assert (Hradix : match l with
                   | x :: rest =>
                       Ascii.eqb c "0" && (Ascii.eqb x "x" || Ascii.eqb x "X") = false
                   | [] => True
                   end).
  { destruct l as [|x rest]; [exact I|]. inversion Hl as [|? ? Hx _]. subst.
    apply andb_false_iff. right.
    destruct (Ascii.eqb x "x") eqn:E1; [apply Ascii.eqb_eq in E1; subst x; discriminate Hx|].
    destruct (Ascii.eqb x "X") eqn:E2; [apply Ascii.eqb_eq in E2; subst x; discriminate Hx|].
    reflexivity. }
  destruct l as [|x rest].
  - cbn [fst snd]. destruct (digits 10 [c] None) as [v|]; [|reflexivity].
    f_equal. lia.
  - rewrite Hradix. cbn [fst snd].
    destruct (digits 10 (c :: x :: rest) None) as [v|]; [|reflexivity].
    f_equal. lia.
Qed.

(** What the menu prints for a positive number is read back as that
    number. *)
Lemma parseInt_string_of_Z (k : Z) :
  0 < k -> String_trim (string_of_Z k) = string_of_Z k /\ parseInt (string_of_Z k) = Some k.
Proof.
  intros Hk. destruct k as [|p|p]; try lia.
  unfold string_of_Z. cbn [Z.to_int NilZero.string_of_int].
  pose proof (Unsigned.to_uint_nonnil p) as Hnn.
  assert (Hs : NilZero.string_of_uint (Pos.to_uint p) = NilEmpty.string_of_uint (Pos.to_uint p)).
  { unfold NilZero.string_of_uint. destruct (Pos.to_uint p); [contradiction Hnn|..]; reflexivity. }
  rewrite Hs.
  pose proof (numeral_digits (Pos.to_uint p)) as Hd.
  pose proof (numeral_nonempty (Pos.to_uint p) Hnn) as Hne.
  unfold numeral in *. split.
  - apply String_trim_digits. exact Hd.
  - rewrite (parseInt_digits _ Hne Hd).
    pose proof (digits_numeral (Pos.to_uint p)) as Hv. unfold numeral in Hv.
    rewrite Hv, DecimalPos.Unsigned.of_to. reflexivity.
Qed.

(** X9.  The menu and its reader agree: typing the number the menu shows
    in front of a device (the device's index plus one, in decimal) selects
    that device, and typing the number of the last line asks for a custom
    address. *)
Theorem menu_number_selects_its_device
    (devices : list Device) (i : nat) (d : Device) (customAddress : string) :
  nth_error devices i = Some d ->
  promptUserSelection devices (string_of_Z (Z.of_nat i + 1)) customAddress
    = Chosen (d_peripheral d) /\
  promptUserSelection devices (string_of_Z (Z.of_nat (List.length devices) + 1)) customAddress
    = CustomAddress (String_trim customAddress).
Proof.
  intros Hd.
  assert (Hi : (i < List.length devices)%nat) by (apply nth_error_Some; congruence).
  unfold promptUserSelection. split.
  - destruct (parseInt_string_of_Z (Z.of_nat i + 1) ltac:(lia)) as [-> ->].
    replace ((1 <=? Z.of_nat i + 1) && (Z.of_nat i + 1 <=? Z.of_nat (List.length devices)))
      with true by (symmetry; apply andb_true_iff; split; apply Z.leb_le; lia).
    replace (Z.to_nat (Z.of_nat i + 1 - 1)) with i by lia.
    rewrite Hd. reflexivity.
  - destruct (parseInt_string_of_Z (Z.of_nat (List.length devices) + 1) ltac:(lia)) as [-> ->].
    replace ((1 <=? Z.of_nat (List.length devices) + 1) &&
             (Z.of_nat (List.length devices) + 1 <=? Z.of_nat (List.length devices)))
      with false by (symmetry; apply andb_false_iff; right; apply Z.leb_gt; lia).
    rewrite Z.eqb_refl. reflexivity.
Qed.

Lemma menu_number_selects_its_device_witness :
  nth_error (scanForDevices [kitchen_plug; hallway_dimmer]) 1 = Some (entry hallway_dimmer) /\
  promptUserSelection (scanForDevices [kitchen_plug; hallway_dimmer]) "2" ""
    = Chosen hallway_dimmer.
Proof.
  assert (H : nth_error (scanForDevices [kitchen_plug; hallway_dimmer]) 1
              = Some (entry hallway_dimmer)) by reflexivity.
  split; [exact H|].
  exact (proj1 (menu_number_selects_its_device _ 1 _ "" H)).
Defined.

(** ** The params typed at the prompt *)

Lemma nonempty_false (s : string) : nonempty s = false <-> s = "".
Proof. unfold nonempty. rewrite negb_false_iff. apply String.eqb_eq. Qed.

Lemma white_only_empty : white_only "".
Proof. constructor. Qed.

(** X10.  How the params text reaches the request.  At the prompt, a text
    that is empty or white space only gives [{}] and is not parsed; any
    other text is parsed as it was typed, untrimmed.  On the command line
    the value of [--params] is parsed whenever it is given, white space or
    not, and [null] stands for its absence.  When the parser rejects the
    text, [tryParseJson] throws and no request is made.  When it yields a
    value, the [params] member of the request is that value if it is truthy
    and [{}] if it is [null], [false], [0] or [""]: the argument
    [currentParams || {}] of the call is always truthy, so the same default
    inside [sendRpcAndReceive] never replaces what [main] passes. *)
Theorem prompted_params_reach_the_request
    (JSON_parse : string -> string + JSON) (p : string) (paramsArg : option string)
    (id : Z) (method : string) :
  match promptedParams JSON_parse p with
  | None => ~ white_only p /\ exists message, JSON_parse p = inl message
  | Some v => (white_only p /\ v = JObj []) \/ (~ white_only p /\ JSON_parse p = inr v)
  end /\
  match initialParamsObject JSON_parse paramsArg with
  | None => exists t message, paramsArg = Some t /\ t <> "" /\ JSON_parse t = inl message
  | Some v =>
      (given paramsArg = false /\ v = JNull) \/
      (exists t, paramsArg = Some t /\ t <> "" /\ JSON_parse t = inr v)
  end /\
  (forall v,
     truthy (call_params v) = true /\
     params_or_empty (Some (call_params v)) = call_params v /\
     requestObject id method (Some (call_params v)) =
     JObj [ ("id", JNum id); ("src", JStr "user_1"); ("method", JStr method);
            ("params", if truthy v then v else JObj []) ]).
Proof.
  split; [|split].
  - unfold promptedParams.
    destruct (nonempty p && nonempty (String_trim p)) eqn:E.
    + apply andb_true_iff in E. destruct E as [E1 E2].
      assert (Hw : ~ white_only p).
      { intros H. apply String_trim_empty in H. apply nonempty_false in H. congruence. }
      unfold tryParseJson. rewrite E1.
      destruct (JSON_parse p) as [message|v].
      * split; [exact Hw | exists message; reflexivity].
      * right. auto.
    + left. split; [|reflexivity].
      apply andb_false_iff in E. destruct E as [E|E]; apply nonempty_false in E.
      * subst p. exact white_only_empty.
      * apply String_trim_empty. exact E.
  - unfold initialParamsObject, tryParseJson, given.
    destruct paramsArg as [t|]; [|left; auto].
    destruct (nonempty t) eqn:E; [|left; auto].
    assert (Ht : t <> "") by (intros ->; discriminate E).
    destruct (JSON_parse t) as [message|v] eqn:Ep.
    + exists t, message. auto.
    + right. exists t. auto.
  - intros v. unfold requestObject, params_or_empty, call_params.
    destruct (truthy v) eqn:E; cbn [truthy]; rewrite ?E; auto.
Qed.

(** ** The length codec, both ways *)

Lemma byteZ_inj (a b : byte) : byteZ a = byteZ b -> a = b.
Proof.
  unfold byteZ. intros H. apply N2Z.inj in H.
  apply (f_equal Byte.of_N) in H. rewrite !Byte.of_to_N in H. congruence.
Qed.

(** X11.  The two length codecs are inverse to each other.  A length in the
    range of an unsigned 32-bit number is written as four bytes from which
    it is read back, whatever follows them; outside that range writing
    fails.  Conversely what is read from a buffer of at least four bytes is
    in that range, and writing it gives back the buffer's first four
    bytes; a shorter buffer cannot be read. *)
Theorem length_codec_round_trip (n : Z) (b rest : bytes) :
  (writeUInt32BE n = None <-> ~ (0 <= n < 2 ^ 32)) /\
  (writeUInt32BE n = Some b ->
   List.length b = 4%nat /\ readUInt32BE (b ++ rest) = Some n) /\
  (readUInt32BE b = Some n -> writeUInt32BE n = Some (firstn 4 b)) /\
  (readUInt32BE b = None <-> blen b < 4).
Proof.
  split; [|split; [|split]].
  - unfold writeUInt32BE.
    destruct ((0 <=? n) && (n <? 2 ^ 32)) eqn:E.
    + apply andb_true_iff in E. destruct E as [E1 E2].
      apply Z.leb_le in E1. apply Z.ltb_lt in E2. split; [discriminate | lia].
    + apply andb_false_iff in E. split; [|reflexivity]. intros _ [H1 H2].
      destruct E as [E|E]; [apply Z.leb_gt in E | apply Z.ltb_ge in E]; lia.
  - intros Hw.
    assert (Hn : 0 <= n < 2 ^ 32).
    { unfold writeUInt32BE in Hw. destruct ((0 <=? n) && (n <? 2 ^ 32)) eqn:E; [|discriminate].
      apply andb_true_iff in E. destruct E as [E1 E2].
      apply Z.leb_le in E1. apply Z.ltb_lt in E2. lia. }
    destruct (writeUInt32BE_sum n Hn) as (b0 & b1 & b2 & b3 & Hw' & Hsum).
    rewrite Hw' in Hw. injection Hw as <-. split; [reflexivity|].
    cbn [app]. rewrite readUInt32BE_sum, Hsum. reflexivity.
  - intros Hr. pose proof (readUInt32BE_range b n Hr) as Hn.
    destruct b as [|b0 [|b1 [|b2 [|b3 tail]]]]; try discriminate Hr.
    rewrite readUInt32BE_sum in Hr. injection Hr as Hr.
    destruct (writeUInt32BE_sum n Hn) as (c0 & c1 & c2 & c3 & Hw & Hsum).
    rewrite Hw. cbn [firstn].
    pose proof (byteZ_range b0). pose proof (byteZ_range b1).
    pose proof (byteZ_range b2). pose proof (byteZ_range b3).
    pose proof (byteZ_range c0). pose proof (byteZ_range c1).
    pose proof (byteZ_range c2). pose proof (byteZ_range c3).
    assert (E0 : byteZ c0 = byteZ b0) by lia.
    assert (E1 : byteZ c1 = byteZ b1) by lia.
    assert (E2 : byteZ c2 = byteZ b2) by lia.
    assert (E3 : byteZ c3 = byteZ b3) by lia.
    apply byteZ_inj in E0, E1, E2, E3. subst. reflexivity.
  - unfold blen. destruct b as [|b0 [|b1 [|b2 [|b3 tail]]]]; cbn [List.length readUInt32BE];
      split; intros H; try reflexivity; try discriminate H; try lia.
Qed.

(** ** Relations every step of the exchange keeps *)

Section Keeping.

Variable R : State -> State -> Prop.
Hypothesis R_refl : forall s, R s s.
Hypothesis R_trans : forall a b c, R a b -> R b c -> R a c.

Lemma keeps_ret {A} (a : A) : preserves R (ret a).
Proof using R_refl R_trans. intros s. apply R_refl. Qed.

Lemma keeps_raise {A} (e : Error) : preserves R (@raise A e).
Proof using R_refl R_trans. intros s. apply R_refl. Qed.

Lemma keeps_out_of_fuel {A} : preserves R (@out_of_fuel A).
Proof using R_refl R_trans. intros s. apply R_refl. Qed.

Lemma keeps_lift_opt {A} (o : option A) : preserves R (lift_opt o).
Proof using R_refl R_trans. destruct o; intros s; apply R_refl. Qed.

Lemma keeps_Date_now : preserves R Date_now.
Proof using R_refl R_trans. intros s. apply R_refl. Qed.

Lemma keeps_get_expectedLength : preserves R get_expectedLength.
Proof using R_refl R_trans. intros s. apply R_refl. Qed.

Lemma keeps_bind {A B} (m : M A) (k : A -> M B) :
  preserves R m -> (forall a, preserves R (k a)) -> preserves R (bind m k).
Proof using R_refl R_trans.
  intros Hm Hk s. unfold bind. specialize (Hm s).
  destruct (m s) as [[a|e|] s1]; cbn [snd] in *; try exact Hm.
  eapply R_trans; [exact Hm | apply Hk].
Qed.

Lemma keeps_try_catch {A} (m : M A) (h : Error -> M A) :
  preserves R m -> (forall e, preserves R (h e)) -> preserves R (try_catch m h).
Proof using R_refl R_trans.
  intros Hm Hh s. unfold try_catch. specialize (Hm s).
  destruct (m s) as [[a|e|] s1]; cbn [snd] in *; try exact Hm.
  eapply R_trans; [exact Hm | apply Hh].
Qed.

End Keeping.

(** Splits a goal [preserves R m] along the structure of [m]. *)
Ltac keeps :=
  repeat first
    [ solve [auto]
    | apply keeps_ret; assumption
    | apply keeps_raise; assumption
    | apply keeps_out_of_fuel; assumption
    | apply keeps_lift_opt; assumption
    | apply keeps_Date_now; assumption
    | apply keeps_get_expectedLength; assumption
    | apply keeps_bind; [assumption | assumption | | intros ?]
    | apply keeps_try_catch; [assumption | assumption | | intros ?]
    | match goal with
      | |- preserves _ (if ?b then _ else _) => destruct b
      | |- preserves _ (match ?x with _ => _ end) => destruct x
      | |- preserves _ (let _ := _ in _) => cbv zeta
      end
    | solve [auto] ].

Section Kept.

Variable peer : Peer.
Variable R : State -> State -> Prop.
Hypothesis R_refl : forall s, R s s.
Hypothesis R_trans : forall a b c, R a b -> R b c -> R a c.
Hypothesis R_suspend : forall a ms, preserves R (suspend peer a ms).

Lemma keeps_sleep (ms : Z) : preserves R (sleep peer ms).
Proof using R_refl R_trans R_suspend. unfold sleep. keeps. Qed.

Lemma keeps_readCharacteristic (c : Chan) : preserves R (readCharacteristic peer c).
Proof using R_refl R_trans R_suspend. unfold readCharacteristic. keeps. Qed.

Lemma keeps_char_write (c : Chan) (data : bytes) (w : bool) :
  preserves R (char_write peer c data w).
Proof using R_refl R_trans R_suspend. unfold char_write. keeps. Qed.

Lemma keeps_write_chunks (fuel : nat) (w : bool) (gap : Z) (mtu : nat) (buf : bytes) :
  forall offset,
    preserves R (write_chunks peer fuel (fun c => char_write peer DataChar c w)
                              gap mtu buf offset).
Proof using R_refl R_trans R_suspend.
  pose proof keeps_sleep. pose proof keeps_char_write.
  induction fuel as [|fuel IH]; intros offset; cbn [write_chunks]; keeps.
Qed.

Lemma keeps_send_frame (fuel : nat) (req : bytes) (settle : Z) (w : bool)
    (gap : Z) (mtu : nat) :
  preserves R (send_frame peer fuel req settle
                          (fun c => char_write peer DataChar c w) gap mtu).
Proof using R_refl R_trans R_suspend.
  pose proof keeps_sleep. pose proof keeps_char_write. pose proof keeps_write_chunks.
  unfold send_frame, writeWithResponse. keeps.
Qed.

Lemma keeps_send_primary (fuel : nat) (method : string) (paramsObject : option JSON) :
  preserves R (send_primary peer fuel method paramsObject).
Proof using R_refl R_trans R_suspend.
  unfold send_primary, writeWithResponse.
  apply keeps_bind; [assumption | assumption | keeps | intros id; apply keeps_send_frame].
Qed.

Lemma keeps_send_retry (fuel : nat) (method : string) (paramsObject : option JSON) :
  preserves R (send_retry peer fuel method paramsObject).
Proof using R_refl R_trans R_suspend.
  unfold send_retry.
  apply keeps_bind; [assumption | assumption | keeps | intros id; apply keeps_send_frame].
Qed.

Lemma keeps_drain (fuel : nat) :
  forall len drained deadline, preserves R (drain peer fuel len drained deadline).
Proof using R_refl R_trans R_suspend.
  pose proof keeps_readCharacteristic.
  induction fuel as [|fuel IH]; intros len drained deadline; cbn [drain]; keeps.
Qed.

Lemma keeps_flushChannels (fuel : nat) : preserves R (flushChannels peer fuel).
Proof using R_refl R_trans R_suspend.
  pose proof keeps_readCharacteristic. pose proof keeps_drain.
  unfold flushChannels. keeps.
Qed.

Lemma keeps_read_once (received : bytes) (ce : Z) : preserves R (read_once peer received ce).
Proof using R_refl R_trans R_suspend.
  pose proof keeps_readCharacteristic. pose proof keeps_sleep.
  unfold read_once. keeps.
Qed.

Lemma keeps_read_loop (fuel : nat) (bestEffort : bool) (startedData maxDurationMs : Z) :
  forall received ce,
    preserves R (read_loop peer fuel bestEffort startedData maxDurationMs received ce).
Proof using R_refl R_trans R_suspend.
  pose proof keeps_read_once.
  induction fuel as [|fuel IH]; intros received ce; cbn [read_loop]; keeps.
Qed.

Lemma keeps_receive (fuel : nat) (received : bytes) : preserves R (receive peer fuel received).
Proof using R_refl R_trans R_suspend.
  pose proof keeps_read_loop. unfold receive. keeps.
Qed.

Hypothesis R_set_expectedLength : forall v, preserves R (set_expectedLength v).

Lemma keeps_poll_primary (left : nat) : preserves R (poll_primary peer left).
Proof using R_refl R_trans R_suspend R_set_expectedLength.
  pose proof keeps_readCharacteristic. pose proof keeps_sleep.
  induction left as [|left IH]; cbn [poll_primary]; unfold poll_primary_once; keeps.
Qed.

Lemma keeps_poll_retry (left : nat) : preserves R (poll_retry peer left).
Proof using R_refl R_trans R_suspend R_set_expectedLength.
  pose proof keeps_readCharacteristic. pose proof keeps_sleep.
  induction left as [|left IH]; cbn [poll_retry]; unfold poll_retry_once; keeps.
Qed.

Lemma keeps_resend (fuel : nat) (method : string) (paramsObject : option JSON) :
  preserves R (resend peer fuel method paramsObject).
Proof using R_refl R_trans R_suspend R_set_expectedLength.
  pose proof keeps_send_retry. pose proof keeps_poll_retry.
  unfold resend. keeps.
Qed.

Lemma keeps_retry_if_silent (fuel : nat) (method : string) (paramsObject : option JSON)
    (received : bytes) :
  preserves R (retry_if_silent peer fuel method paramsObject received).
Proof using R_refl R_trans R_suspend R_set_expectedLength.
  pose proof keeps_resend. unfold retry_if_silent. keeps.
Qed.

End Kept.

(** ** What the whole exchange does to the trace *)

Section Phases.

Variable peer : Peer.
Variable JSON_parse : string -> string + JSON.
Variable P : Action -> Prop.
Hypothesis P_read : forall c, P (ARead c).
Hypothesis P_sleep : forall ms, P (ASleep ms).
Hypothesis P_write : forall c d w, P (AWrite c d w).
Hypothesis P_subscribe : P ASubscribe.

Lemma send_frame_evolves (fuel : nat) (req : bytes) (settle : Z) (w : bool)
    (gap : Z) (mtu : nat) :
  0 <= settle -> 0 <= gap ->
  preserves (evolves P)
    (send_frame peer fuel req settle (fun c => char_write peer DataChar c w) gap mtu).
Proof.
  intros Hsettle Hgap.
  assert (Hwc : preserves (evolves P)
                  (write_chunks peer fuel (fun c => char_write peer DataChar c w)
                                gap mtu req 0)).
  { apply write_chunks_evolves; auto. intros c. pres. }
  unfold send_frame. pres.
Qed.

Lemma attempt_primary_evolves (fuel : nat) (method : string) (paramsObject : option JSON) :
  preserves (evolves P) (attempt_primary peer fuel method paramsObject).
Proof.
  pose proof (flushChannels_evolves peer P P_read fuel) as Hflush.
  pose proof (poll_primary_evolves peer P P_read P_sleep 30) as Hpoll.
  assert (Hsend : preserves (evolves P) (send_primary peer fuel method paramsObject)).
  { unfold send_primary. apply preserves_bind; [pres|]. intros id.
    apply send_frame_evolves; lia. }
  unfold attempt_primary.
  apply preserves_bind; [exact Hflush | intros _].
  apply preserves_bind; [pres | intros _].
  apply preserves_bind; [pres | intros _].
  apply preserves_bind; [exact Hsend | intros _]. exact Hpoll.
Qed.

Lemma retry_if_silent_evolves (fuel : nat) (method : string) (paramsObject : option JSON)
    (received : bytes) :
  preserves (evolves P) (retry_if_silent peer fuel method paramsObject received).
Proof.
  pose proof (poll_retry_evolves peer P P_read P_sleep 20) as Hpoll.
  assert (Hsend : preserves (evolves P) (send_retry peer fuel method paramsObject)).
  { unfold send_retry. apply preserves_bind; [pres|]. intros id.
    apply send_frame_evolves; lia. }
  unfold retry_if_silent, resend.
  apply preserves_bind; [pres | intros el]. destruct (_ && _); [|pres].
  apply preserves_bind; [pres | intros _].
  apply preserves_bind; [exact Hsend | intros _].
  apply preserves_bind; [exact Hpoll | intros _]. pres.
Qed.

(** Lines 251-392: everything before the subscription is torn down. *)
Lemma gather_evolves (fuel : nat) (method : string) (paramsObject : option JSON) :
  preserves (evolves P)
    (attempt_primary peer fuel method paramsObject ;;
     received <- retry_if_silent peer fuel method paramsObject [] ;;
     receive peer fuel received).
Proof.
  apply preserves_bind; [apply attempt_primary_evolves | intros _].
  apply preserves_bind; [apply retry_if_silent_evolves | intros received].
  apply (receive_evolves peer P P_read P_sleep).
Qed.

Hypothesis P_unsubscribe : P AUnsubscribe.
Hypothesis P_error : forall text, P (AConsoleError text).

Lemma exchange_evolves (fuel : nat) (method : string) (paramsObject : option JSON) :
  preserves (evolves P) (exchange peer JSON_parse fuel method paramsObject).
Proof.
  unfold exchange, transfer, unsubscribeRxNotify.
  apply preserves_bind; [|intros received; apply decode_response_evolves; exact P_error].
  apply preserves_bind; [apply attempt_primary_evolves | intros _].
  apply preserves_bind; [apply retry_if_silent_evolves | intros received].
  apply preserves_bind; [apply (receive_evolves peer P P_read P_sleep) | intros received'].
  pres.
Qed.

End Phases.

(** X12.  [sendRpcAndReceive] disconnects whenever it has connected, and
    then as the last thing it does: when the connection is refused the run
    throws with the connect attempt as its only action, and no disconnect;
    when it is established, every run that returns or throws has performed
    the pause of 500 ms and the service discovery and ends with the one
    disconnect of the [finally] block, whatever happened in between. *)
Theorem sendRpcAndReceive_disconnects_last
    (peer : Peer) (JSON_parse : string -> string + JSON) (fuel : nat)
    (method : string) (paramsObject : option JSON) (s : State) :
  let run := sendRpcAndReceive peer JSON_parse fuel method paramsObject s in
  if r_ok (peer (awaits s)) then
    fst run = OutOfFuel \/
    exists mid,
      trace (snd run) =
        trace s ++ [AConnect; ASleep 500; ADiscoverServices] ++ mid ++ [ADisconnect] /\
      Forall in_session mid
  else
    fst run = Raise IoError /\ trace (snd run) = trace s ++ [AConnect].
Proof.
  cbv zeta. unfold sendRpcAndReceive.
  rewrite (bind_ret_eq (suspend peer AConnect 0) _ s _ _ eq_refl).
  destruct (r_ok (peer (awaits s))) eqn:Eok; cbn [negb]; [|split; reflexivity].
  set (s1 := snd (suspend peer AConnect 0 s)).
  assert (Ht1 : trace s1 = trace s ++ [AConnect]) by reflexivity.
  unfold try_finally.
  rewrite (bind_ret_eq (sleep peer 500) _ s1 tt _ eq_refl).
  set (s2 := snd (suspend peer (ASleep 500) 500 s1)).
  rewrite (bind_ret_eq (suspend peer ADiscoverServices 0) _ s2 _ _ eq_refl).
  set (rest := if negb (r_ok (peer (awaits s2))) then _ else _).
  match goal with |- context [rest ?st] => set (s3 := st) end.
  assert (Ht3 : trace s3 = trace s ++ [AConnect; ASleep 500; ADiscoverServices]).
  { subst s3 s2. cbn [suspend snd trace]. rewrite Ht1, <- !app_assoc. reflexivity. }
  assert (Hrest : preserves (evolves in_session) rest).
  { subst rest.
    pose proof (exchange_evolves peer JSON_parse in_session) as Hex.
    destruct (negb _); [pres|]. destruct (negb _); [pres|].
    apply preserves_bind; [apply preserves_suspend; [split; discriminate | lia]|].
    intros chars.
    destruct (negb _); [pres|]. destruct (negb _); [pres|].
    apply Hex; intros; split; discriminate. }
  specialize (Hrest s3). destruct Hrest as (_ & _ & mid & Hmid & Hall).
  destruct (rest s3) as [[v|e|] s4]; cbn [fst snd] in *.
  - right. exists mid. split; [|exact Hall].
    cbn [disconnect trace]. rewrite Hmid, Ht3, <- !app_assoc. reflexivity.
  - right. exists mid. split; [|exact Hall].
    cbn [disconnect trace]. rewrite Hmid, Ht3, <- !app_assoc. reflexivity.
  - left. reflexivity.
Qed.

(** X13.  A discovery that does not yield the Shelly service and its three
    characteristics ends the run at once: the error of the failed step is
    thrown (a discovery error, a missing service, or missing
    characteristics), nothing is read, written or subscribed to, nothing is
    retried, and the connection is closed. *)
Theorem discovery_failure_is_final
    (peer : Peer) (JSON_parse : string -> string + JSON) (fuel : nat)
    (method : string) (paramsObject : option JSON) (s : State) :
  let svcs := peer (awaits s + 2)%nat in
  let chars := peer (awaits s + 3)%nat in
  let run := sendRpcAndReceive peer JSON_parse fuel method paramsObject s in
  r_ok (peer (awaits s)) = true ->
  r_ok svcs && r_found svcs && r_ok chars && r_found chars = false ->
  fst run = Raise (if negb (r_ok svcs) then IoError
                   else if negb (r_found svcs) then ServiceNotFound
                   else if negb (r_ok chars) then IoError
                   else CharacteristicsMissing) /\
  trace (snd run) =
    trace s ++ [AConnect; ASleep 500; ADiscoverServices] ++
    (if r_ok svcs && r_found svcs then [ADiscoverCharacteristics] else []) ++
    [ADisconnect].
Proof.
  cbv zeta. intros Hok Hfail. unfold sendRpcAndReceive.
  rewrite (bind_ret_eq (suspend peer AConnect 0) _ s _ _ eq_refl), Hok. cbn [negb].
  set (s1 := snd (suspend peer AConnect 0 s)).
  unfold try_finally.
  rewrite (bind_ret_eq (sleep peer 500) _ s1 tt _ eq_refl).
  set (s2 := snd (suspend peer (ASleep 500) 500 s1)).
  rewrite (bind_ret_eq (suspend peer ADiscoverServices 0) _ s2 _ _ eq_refl).
  change (awaits s2) with (S (S (awaits s))).
  replace (S (S (awaits s))) with (awaits s + 2)%nat by lia.
  set (rest := if negb (r_ok _) then _ else _).
  match goal with |- context [rest ?st] => set (s3 := st) end.
  subst rest.
  assert (Ht3 : trace s3 = trace s ++ [AConnect; ASleep 500; ADiscoverServices]).
  { subst s3 s2 s1. cbn [suspend snd trace]. rewrite <- !app_assoc. reflexivity. }
  assert (Ha3 : awaits s3 = (awaits s + 3)%nat) by (subst s3 s2 s1; cbn [suspend snd awaits]; lia).
  destruct (r_ok (peer (awaits s + 2)%nat)); cbn [negb andb] in *;
    [|split; [reflexivity | cbn [raise snd disconnect trace]; rewrite Ht3, <- !app_assoc;
                            reflexivity]].
  destruct (r_found (peer (awaits s + 2)%nat)); cbn [negb andb] in *;
    [|split; [reflexivity | cbn [raise snd disconnect trace]; rewrite Ht3, <- !app_assoc;
                            reflexivity]].
  rewrite (bind_ret_eq (suspend peer ADiscoverCharacteristics 0) _ s3 _ _ eq_refl).
  rewrite Ha3.
  destruct (r_ok (peer (awaits s + 3)%nat)); cbn [negb andb] in *;
    [|split; [reflexivity | cbn [raise suspend snd disconnect trace];
                            rewrite Ht3, <- !app_assoc; reflexivity]].
  rewrite Hfail. cbn [negb].
  split; [reflexivity | cbn [raise suspend snd disconnect trace];
                        rewrite Ht3, <- !app_assoc; reflexivity].
Qed.

Lemma discovery_failure_is_final_witness :
  r_ok (foreign_device 0%nat) = true /\
  r_found (foreign_device 2%nat) = false /\
  fst (sendRpcAndReceive foreign_device reject_all 10 "Shelly.GetStatus" None initial)
    = Raise ServiceNotFound /\
  trace (snd (sendRpcAndReceive foreign_device reject_all 10 "Shelly.GetStatus" None initial))
    = [AConnect; ASleep 500; ADiscoverServices; ADisconnect].
Proof.
  split; [reflexivity|]. split; [reflexivity|].
  exact (discovery_failure_is_final foreign_device reject_all 10 "Shelly.GetStatus" None
           initial eq_refl eq_refl).
Defined.

(** ** The subscription *)

Lemma subscribed_alike_refl (s : State) : subscribed_alike s s.
Proof. reflexivity. Qed.

Lemma subscribed_alike_trans (a b c : State) :
  subscribed_alike a b -> subscribed_alike b c -> subscribed_alike a c.
Proof. unfold subscribed_alike. congruence. Qed.

Lemma subscribed_alike_suspend (peer : Peer) (a : Action) (ms : Z) :
  preserves subscribed_alike (suspend peer a ms).
Proof. intros s. reflexivity. Qed.

Lemma subscribed_alike_set_expectedLength (v : Z) :
  preserves subscribed_alike (set_expectedLength v).
Proof. intros s. reflexivity. Qed.

(** [transfer] by its phases. *)
Lemma transfer_stages (peer : Peer) (fuel : nat) (method : string)
    (paramsObject : option JSON) (s : State) :
  transfer peer fuel method paramsObject s =
  match subscribe_phase peer fuel s with
  | (Ret _, s1) =>
      match traffic_phase peer fuel method paramsObject s1 with
      | (Ret received, s2) => (Ret received, snd (unsubscribeRxNotify s2))
      | (Raise e, s2) => (Raise e, s2)
      | (OutOfFuel, s2) => (OutOfFuel, s2)
      end
  | (Raise e, s1) => (Raise e, s1)
  | (OutOfFuel, s1) => (OutOfFuel, s1)
  end.
Proof.
  unfold transfer, attempt_primary, subscribe_phase, traffic_phase, bind.
  destruct (flushChannels peer fuel s) as [[[]|e|] sA]; try reflexivity.
  cbv [set_expectedLength].
  match goal with |- context [subscribeNotifications peer ?st] =>
    destruct (subscribeNotifications peer st) as [[[]|e|] sC] end; try reflexivity.
  destruct (send_primary peer fuel method paramsObject sC) as [[[]|e|] sD];
    [|reflexivity|reflexivity].
  set (polled := poll_primary peer 30 sD).
  destruct polled as [[[]|e|] sE]; [|reflexivity|reflexivity].
  destruct (retry_if_silent peer fuel method paramsObject [] sE) as [[r|e|] sF];
    [|reflexivity|reflexivity].
  destruct (receive peer fuel r sF) as [[r'|e|] sG]; reflexivity.
Qed.

Lemma subscribe_phase_footprint (peer : Peer) (fuel : nat) (s : State) :
  evolves (fun a => no_write a /\ not_unsubscribe a) s (snd (subscribe_phase peer fuel s)) /\
  (forall s1, subscribe_phase peer fuel s = (Ret tt, s1) -> listening s1 = true).
Proof.
  split.
  - revert s. change (preserves (evolves (fun a => no_write a /\ not_unsubscribe a))
                                (subscribe_phase peer fuel)).
    unfold subscribe_phase.
    apply preserves_bind;
      [apply flushChannels_evolves; intros; split; [reflexivity | discriminate] | intros _].
    apply preserves_bind; [pres | intros _].
    unfold subscribeNotifications.
    apply preserves_bind; [apply preserves_suspend; [split; [reflexivity | discriminate] | lia]|].
    intros r. pres.
  - intros s1 H. unfold subscribe_phase in H.
    apply bind_ret_inv in H. destruct H as ([] & sA & _ & H).
    apply bind_ret_inv in H. destruct H as ([] & sB & _ & H).
    unfold subscribeNotifications in H. mrun_in H.
    destruct (r_ok (peer (awaits sB))); [|discriminate].
    injection H as <-. reflexivity.
Qed.

Lemma traffic_phase_footprint (peer : Peer) (fuel : nat) (method : string)
    (paramsObject : option JSON) (s : State) :
  evolves not_unsubscribe s (snd (traffic_phase peer fuel method paramsObject s)) /\
  listening (snd (traffic_phase peer fuel method paramsObject s)) = listening s.
Proof.
  split.
  - revert s. change (preserves (evolves not_unsubscribe)
                                (traffic_phase peer fuel method paramsObject)).
    assert (Hr : forall c, not_unsubscribe (ARead c)) by (intros; discriminate).
    assert (Hs : forall ms, not_unsubscribe (ASleep ms)) by (intros; discriminate).
    assert (Hw : forall c d w, not_unsubscribe (AWrite c d w)) by (intros; discriminate).
    unfold traffic_phase.
    apply preserves_bind; [|intros _].
    { unfold send_primary. apply preserves_bind; [pres | intros id].
      apply send_frame_evolves; auto; lia. }
    apply preserves_bind; [apply poll_primary_evolves; assumption | intros _].
    apply preserves_bind; [apply retry_if_silent_evolves; assumption | intros received].
    apply receive_evolves; assumption.
  - revert s. change (preserves subscribed_alike
                                (traffic_phase peer fuel method paramsObject)).
    pose proof subscribed_alike_refl as Hrefl.
    pose proof subscribed_alike_trans as Htrans.
    pose proof (subscribed_alike_suspend peer) as Hsus.
    pose proof subscribed_alike_set_expectedLength as Hset.
    unfold traffic_phase.
    apply keeps_bind; [assumption | assumption | apply keeps_send_primary; assumption |].
    intros _.
    apply keeps_bind; [assumption | assumption | apply keeps_poll_primary; assumption |].
    intros _.
    apply keeps_bind; [assumption | assumption | apply keeps_retry_if_silent; assumption |].
    intros received. apply keeps_receive; assumption.
Qed.

(** X14.  The notification handler is removed exactly when the read loop
    has come to its end.  A [transfer] that returns has torn the
    subscription down as its last action and only then.  One that throws (a
    rejected write, say) never does: and if it got as far as a write, the
    handler is still installed when the exception leaves [transfer], which
    is where [sendRpcAndReceive] disconnects. *)
Theorem subscription_ends_only_on_completion
    (peer : Peer) (fuel : nat) (method : string) (paramsObject : option JSON) (s : State) :
  let run := transfer peer fuel method paramsObject s in
  exists ext,
    trace (snd run) = trace s ++ ext /\
    match fst run with
    | Ret _ =>
        listening (snd run) = false /\
        exists before, ext = before ++ [AUnsubscribe] /\ Forall not_unsubscribe before
    | Raise _ =>
        Forall not_unsubscribe ext /\
        (Exists (fun a => is_write a = true) ext -> listening (snd run) = true)
    | OutOfFuel => Forall not_unsubscribe ext
    end.
Proof.
  cbv zeta. rewrite transfer_stages.
  destruct (subscribe_phase_footprint peer fuel s) as [(_ & _ & e1 & E1 & F1) Hl1].
  destruct (subscribe_phase peer fuel s) as [[[]|e|] s1]; cbn [fst snd] in *.
  - specialize (Hl1 s1 eq_refl).
    destruct (traffic_phase_footprint peer fuel method paramsObject s1)
      as [(_ & _ & e2 & E2 & F2) Hl2].
    assert (F12 : Forall not_unsubscribe (e1 ++ e2)).
    { apply Forall_app. split; [|exact F2].
      eapply Forall_impl; [|exact F1]. intros a [_ H]. exact H. }
    destruct (traffic_phase peer fuel method paramsObject s1) as [[r|e|] s2];
      cbn [fst snd] in *.
    + exists ((e1 ++ e2) ++ [AUnsubscribe]). split.
      * cbn [unsubscribeRxNotify]. mrun. rewrite E2, E1, <- !app_assoc. reflexivity.
      * split; [reflexivity|]. exists (e1 ++ e2). auto.
    + exists (e1 ++ e2). split; [rewrite E2, E1, <- app_assoc; reflexivity|].
      split; [exact F12|]. intros _. congruence.
    + exists (e1 ++ e2). split; [rewrite E2, E1, <- app_assoc; reflexivity | exact F12].
  - exists e1. split; [exact E1|]. split.
    + eapply Forall_impl; [|exact F1]. intros a [_ H]. exact H.
    + intros Hex. exfalso. apply Exists_exists in Hex. destruct Hex as (a & Hin & Ha).
      rewrite Forall_forall in F1. destruct (F1 a Hin) as [Hno _].
      unfold no_write in Hno. congruence.
  - exists e1. split; [exact E1|].
    eapply Forall_impl; [|exact F1]. intros a [_ H]. exact H.
Qed.

(** ** What the read loop gathers *)

Lemma chunk_bytes_empty (d : option bytes) : chunk_length d = 0 -> chunk_bytes d = [].
Proof.
  destruct d as [[|b c]|]; try reflexivity.
  unfold chunk_length, blen. cbn [List.length]. lia.
Qed.

(** One pass of the read loop: what it adds to the trace and to the bytes
    gathered. *)
Lemma read_once_gathers (peer : Peer) (received : bytes) (ce : Z) (s : State) :
  exists st s1 ext,
    read_once peer received ce s = (Ret st, s1) /\
    trace s1 = trace s ++ ext /\
    awaits s1 = (awaits s + List.length ext)%nat /\
    Forall read_or_pause ext /\
    fst st = received ++ payloads peer (awaits s) ext /\
    forall k, payloads peer (awaits s) (ext ++ k) =
              payloads peer (awaits s) ext ++ payloads peer (awaits s1) k.
Proof.
  pose proof (read_once_cases peer received ce s) as H. cbv zeta in H.
  unfold reply_payload, after_read in *.
  assert (Hr : read_or_pause (ARead DataChar)) by (left; reflexivity).
  assert (Hp : forall ms, read_or_pause (ASleep ms)) by (intros ms; right; exists ms; reflexivity).
  destruct (r_read (peer (awaits s))) as [|d] eqn:Er.
  - do 2 eexists. exists [ARead DataChar; ASleep 250]. split; [exact H|].
    cbn [suspend snd trace awaits fst payloads List.length app]. unfold reply_payload.
    rewrite Er, <- app_assoc, !app_nil_r.
    repeat match goal with |- _ /\ _ => split end; auto; try lia; try reflexivity.
    all: try (intros k; replace (awaits s + 2)%nat with (S (S (awaits s))) by lia;
              reflexivity).
  - destruct (0 <? chunk_length d) eqn:E.
    + do 2 eexists. exists [ARead DataChar]. split; [exact H|].
      cbn [suspend snd trace awaits fst payloads List.length app]. unfold reply_payload.
      rewrite Er, !app_nil_r.
      repeat match goal with |- _ /\ _ => split end; auto; try lia; try reflexivity.
      all: try (intros k; replace (awaits s + 1)%nat with (S (awaits s)) by lia;
                reflexivity).
    + apply Z.ltb_ge in E.
      assert (Hd : chunk_bytes d = []).
      { apply chunk_bytes_empty. destruct d; unfold chunk_length, blen in *; lia. }
      do 2 eexists. exists [ARead DataChar; ASleep (backoff (ce + 1))]. split; [exact H|].
      cbn [suspend snd trace awaits fst payloads List.length app]. unfold reply_payload.
      rewrite Er, Hd, <- app_assoc, !app_nil_r.
      repeat match goal with |- _ /\ _ => split end; auto; try lia; try reflexivity.
      all: try (intros k; replace (awaits s + 2)%nat with (S (S (awaits s))) by lia;
                reflexivity).
Qed.

Lemma read_loop_gathers (peer : Peer) (bestEffort : bool) (startedData maxDurationMs : Z)
    (fuel : nat) :
  forall received ce s,
    exists ext,
      trace (snd (read_loop peer fuel bestEffort startedData maxDurationMs received ce s))
        = trace s ++ ext /\
      awaits (snd (read_loop peer fuel bestEffort startedData maxDurationMs received ce s))
        = (awaits s + List.length ext)%nat /\
      Forall read_or_pause ext /\
      forall response,
        fst (read_loop peer fuel bestEffort startedData maxDurationMs received ce s)
          = Ret response ->
        response = received ++ payloads peer (awaits s) ext.
Proof.
  assert (Hdone : forall (o : Outcome bytes) received s,
            (forall response, o = Ret response -> response = received) ->
            exists ext,
              trace (snd (o, s)) = trace s ++ ext /\
              awaits (snd (o, s)) = (awaits s + List.length ext)%nat /\
              Forall read_or_pause ext /\
              forall response, fst (o, s) = Ret response ->
                               response = received ++ payloads peer (awaits s) ext).
  { intros o received s Ho. exists []. cbn [fst snd List.length payloads].
    rewrite !app_nil_r, Nat.add_0_r. auto. }
  induction fuel as [|fuel IH]; intros received ce s.
  - apply Hdone. discriminate.
  - rewrite read_loop_S.
    destruct (_ || _); [|apply Hdone; congruence].
    destruct (_ <? _); [apply Hdone; congruence|].
    destruct (read_once_gathers peer received ce s)
      as (st & s1 & e1 & Hone & Ht1 & Ha1 & Hf1 & Hst & Hsplit).
    rewrite Hone.
    destruct (IH (fst st) (snd st) s1) as (e2 & Ht2 & Ha2 & Hf2 & Hres).
    exists (e1 ++ e2). rewrite Ht2, Ha2, Ht1, Ha1, length_app, <- app_assoc.
    repeat match goal with |- _ /\ _ => split end; auto; try lia.
    + apply Forall_app. auto.
    + intros response Hr. rewrite (Hres response Hr), Hst, Hsplit, <- app_assoc.
      reflexivity.
Qed.

(** X15.  The bytes the read loop returns are the bytes it started with
    followed by what its reads of the data characteristic were answered
    with, in the order of the reads: nothing is dropped, repeated or
    reordered, and a failed or empty read adds nothing.  The loop does
    nothing but read the data characteristic and pause. *)
Theorem read_loop_accumulates_in_order
    (peer : Peer) (fuel : nat) (bestEffort : bool) (startedData maxDurationMs : Z)
    (received : bytes) (consecutiveEmpty : Z) (s : State) :
  let run := read_loop peer fuel bestEffort startedData maxDurationMs
                       received consecutiveEmpty s in
  exists ext,
    trace (snd run) = trace s ++ ext /\
    awaits (snd run) = (awaits s + List.length ext)%nat /\
    Forall read_or_pause ext /\
    forall response,
      fst run = Ret response -> response = received ++ payloads peer (awaits s) ext.
Proof. apply read_loop_gathers. Qed.

(** ** The polling loops *)

Lemma polls_S (pause : Z) (k : nat) :
  polls pause (S k) = [ARead RxCtlChar; ASleep pause] ++ polls pause k.
Proof. reflexivity. Qed.

Lemma poll_primary_bounded (peer : Peer) (left : nat) :
  forall s,
    exists k,
      (k <= left)%nat /\
      fst (poll_primary peer left s) = Ret tt /\
      (trace (snd (poll_primary peer left s)) = trace s ++ polls 250 k \/
       ((k < left)%nat /\
        trace (snd (poll_primary peer left s)) = trace s ++ polls 250 k ++ [ARead RxCtlChar] /\
        0 < expectedLength (snd (poll_primary peer left s)))).
Proof.
  induction left as [|left IH]; intros s.
  - exists 0%nat. cbn [poll_primary ret fst snd polls repeat List.concat].
    rewrite app_nil_r. auto.
  - cbn [poll_primary].
    rewrite (bind_ret_eq get_expectedLength _ s (expectedLength s) s eq_refl).
    destruct (expectedLength s =? 0).
    2:{ exists 0%nat. cbn [ret fst snd polls repeat List.concat]. rewrite app_nil_r.
        split; [lia | auto]. }
    pose proof (poll_primary_once_cases peer s) as Hc. cbv zeta in Hc.
    set (s1 := after_read peer RxCtlChar s) in *.
    assert (Ht1 : trace s1 = trace s ++ [ARead RxCtlChar]) by reflexivity.
    assert (Hgo : forall t, trace t = trace s1 ->
              exists k,
                (k <= S left)%nat /\
                fst ((sleep peer 250 ;; poll_primary peer left) t) = Ret tt /\
                (trace (snd ((sleep peer 250 ;; poll_primary peer left) t))
                   = trace s ++ polls 250 k \/
                 ((k < S left)%nat /\
                  trace (snd ((sleep peer 250 ;; poll_primary peer left) t))
                    = trace s ++ polls 250 k ++ [ARead RxCtlChar] /\
                  0 < expectedLength (snd ((sleep peer 250 ;; poll_primary peer left) t))))).
    { intros t Ht.
      rewrite (bind_ret_eq (sleep peer 250) _ t tt _ eq_refl).
      match goal with |- context [poll_primary peer left ?st] => set (t2 := st) end.
      assert (Ht2 : trace t2 = trace s ++ polls 250 1).
      { subst t2. cbn [suspend snd trace]. rewrite Ht, Ht1, <- app_assoc. reflexivity. }
      destruct (IH t2) as (k & Hk & Hret & Htr). exists (S k).
      split; [lia|]. split; [exact Hret|]. rewrite polls_S.
      destruct Htr as [Htr|(Hk' & Htr & Hel)]; [left | right].
      - rewrite Htr, Ht2, <- !app_assoc. reflexivity.
      - split; [lia|]. split; [|exact Hel]. rewrite Htr, Ht2, <- !app_assoc. reflexivity. }
    assert (Hquiet : poll_primary_once peer s = (Ret false, s1) ->
              exists k,
                (k <= S left)%nat /\
                fst ((stop <- poll_primary_once peer ;;
                      if (stop : bool) then ret tt
                      else sleep peer 250 ;; poll_primary peer left) s) = Ret tt /\
                (trace (snd ((stop <- poll_primary_once peer ;;
                              if (stop : bool) then ret tt
                              else sleep peer 250 ;; poll_primary peer left) s))
                   = trace s ++ polls 250 k \/
                 ((k < S left)%nat /\
                  trace (snd ((stop <- poll_primary_once peer ;;
                               if (stop : bool) then ret tt
                               else sleep peer 250 ;; poll_primary peer left) s))
                    = trace s ++ polls 250 k ++ [ARead RxCtlChar] /\
                  0 < expectedLength
                        (snd ((stop <- poll_primary_once peer ;;
                               if (stop : bool) then ret tt
                               else sleep peer 250 ;; poll_primary peer left) s))))).
    { intros H. rewrite (bind_ret_eq _ _ s false s1 H). apply Hgo. reflexivity. }
    destruct (r_read (peer (awaits s))) as [|[b|]]; try (apply Hquiet; exact Hc).
    destruct (4 <=? blen b); [|apply Hquiet; exact Hc].
    destruct (readUInt32BE b) as [v|]; [|apply Hquiet; exact Hc].
    destruct (0 <? v) eqn:Ev.
    2:{ rewrite (bind_ret_eq _ _ s false _ Hc). apply Hgo. reflexivity. }
    apply Z.ltb_lt in Ev. rewrite (bind_ret_eq _ _ s true _ Hc).
    exists 0%nat. split; [lia|]. split; [reflexivity|].
    right. split; [lia|]. split; [|exact Ev].
    cbn [ret snd with_expectedLength trace polls repeat List.concat app]. exact Ht1.
Qed.

Lemma poll_retry_bounded (peer : Peer) (left : nat) :
  forall s,
    exists k,
      (k <= left)%nat /\
      fst (poll_retry peer left s) = Ret tt /\
      trace (snd (poll_retry peer left s)) = trace s ++ polls 100 k.
Proof.
  induction left as [|left IH]; intros s.
  - exists 0%nat. cbn [poll_retry ret fst snd polls repeat List.concat].
    rewrite app_nil_r. auto.
  - cbn [poll_retry].
    rewrite (bind_ret_eq get_expectedLength _ s (expectedLength s) s eq_refl).
    destruct (expectedLength s =? 0).
    2:{ exists 0%nat. cbn [ret fst snd polls repeat List.concat]. rewrite app_nil_r.
        split; [lia | auto]. }
    destruct (poll_retry_once_returns peer s) as (s1 & H1).
    assert (Ht1 : trace s1 = trace s ++ [ARead RxCtlChar]).
    { revert H1. unfold poll_retry_once. mrun.
      destruct (r_read (peer (awaits s))) as [|[b|]]; mrun;
        try (intros [= <-]; reflexivity).
      destruct (4 <=? blen b); mrun; try (intros [= <-]; reflexivity).
      destruct (readUInt32BE b); mrun; intros [= <-]; reflexivity. }
    rewrite (bind_ret_eq _ _ s tt s1 H1).
    rewrite (bind_ret_eq (sleep peer 100) _ s1 tt _ eq_refl).
    match goal with |- context [poll_retry peer left ?st] => set (s2 := st) end.
    destruct (IH s2) as (k & Hk & Hret & Htr). exists (S k).
    split; [lia|]. split; [exact Hret|].
    rewrite Htr, polls_S. subst s2. cbn [suspend snd trace].
    rewrite Ht1, <- !app_assoc. reflexivity.
Qed.

(** X16.  Polling for the response length is bounded and cannot fail: a
    polling loop with [left] iterations (30 after the first transmission, 20
    after the resend) never throws and reads RX_CTL at most [left] times.
    The first loop pauses 250 ms after each read that told nothing and is
    left without a pause at the first read of a positive length; the loop
    of the resend pauses 100 ms after every read.  Nothing else is done:
    no write, no read of the data characteristic. *)
Theorem polling_is_bounded (peer : Peer) (left : nat) (s : State) :
  (exists k,
     (k <= left)%nat /\
     fst (poll_primary peer left s) = Ret tt /\
     (trace (snd (poll_primary peer left s)) = trace s ++ polls 250 k \/
      ((k < left)%nat /\
       trace (snd (poll_primary peer left s)) = trace s ++ polls 250 k ++ [ARead RxCtlChar] /\
       0 < expectedLength (snd (poll_primary peer left s))))) /\
  (exists k,
     (k <= left)%nat /\
     fst (poll_retry peer left s) = Ret tt /\
     trace (snd (poll_retry peer left s)) = trace s ++ polls 100 k).
Proof.
  split; [apply poll_primary_bounded | apply poll_retry_bounded].
Qed.

(** ** A whole exchange, end to end *)

Lemma counted_refl (s : State) : counted s s.
Proof. exists []. rewrite app_nil_r. cbn [List.length]. split; [reflexivity | lia]. Qed.

Lemma counted_trans (a b c : State) : counted a b -> counted b c -> counted a c.
Proof.
  intros (e1 & T1 & A1) (e2 & T2 & A2). exists (e1 ++ e2).
  rewrite T2, T1, A2, A1, length_app, <- app_assoc. split; [reflexivity | lia].
Qed.

Lemma counted_suspend (peer : Peer) (a : Action) (ms : Z) :
  preserves counted (suspend peer a ms).
Proof. intros s. exists [a]. cbn [suspend snd trace awaits List.length]. split; [reflexivity | lia]. Qed.

Lemma counted_set_expectedLength (v : Z) : preserves counted (set_expectedLength v).
Proof.
  intros s. exists []. cbn [set_expectedLength snd trace awaits List.length].
  rewrite app_nil_r. split; [reflexivity | lia].
Qed.

Lemma length_kept_refl (peer : Peer) (s : State) : length_kept peer s s.
Proof. split; [apply Nat.le_refl | reflexivity]. Qed.

Lemma length_kept_trans (peer : Peer) (a b c : State) :
  length_kept peer a b -> length_kept peer b c -> length_kept peer a c.
Proof.
  intros [A1 E1] [A2 E2]. split; [lia|]. intros Hq.
  rewrite E2, E1; [reflexivity | exact Hq |]. intros n Hn. apply Hq. lia.
Qed.

Lemma length_kept_suspend (peer : Peer) (a : Action) (ms : Z) :
  preserves (length_kept peer) (suspend peer a ms).
Proof.
  intros s. split; [cbn [suspend snd awaits]; lia|]. intros Hq.
  apply suspend_keeps_length. apply Hq. apply Nat.le_refl.
Qed.

Lemma chunk_writes_length (w : bool) (gap : Z) (cs : list bytes) :
  List.length (chunk_writes w gap cs) = (2 * List.length cs)%nat.
Proof.
  induction cs as [|c cs IH]; [reflexivity|].
  unfold chunk_writes in *. cbn [flat_map app List.length]. rewrite IH. lia.
Qed.

Lemma tx_count_chunk_writes (w : bool) (gap : Z) (cs : list bytes) :
  tx_count (chunk_writes w gap cs) = 0%nat.
Proof.
  apply tx_count_not_tx. unfold chunk_writes. induction cs as [|c cs IH]; [constructor|].
  cbn [flat_map app]. repeat constructor. exact IH.
Qed.

(** The first transmission against a peer that acknowledges it: the state it
    leaves. *)
Lemma send_primary_completes (peer : Peer) (fuel : nat) (method : string)
    (paramsObject : option JSON) (s : State) :
  let req := requestBytes (clock s) method paramsObject in
  acknowledges peer (awaits s) ->
  blen req < 2 ^ 32 -> (List.length req < fuel)%nat ->
  exists lenBuf s',
    writeUInt32BE (blen req) = Some lenBuf /\
    send_primary peer fuel method paramsObject s = (Ret tt, s') /\
    trace s' = trace s ++ AWrite TxCtlChar lenBuf false :: ASleep 1000 ::
                          chunk_writes false 15 (chunks 20 req) /\
    awaits s' = (awaits s + 2 + 2 * List.length (chunks 20 req))%nat /\
    listening s' = listening s /\
    clock s + 1000 <= clock s' /\
    (no_length_notified peer (awaits s) -> expectedLength s' = expectedLength s).
Proof.
  intros req Hack Hlen Hfuel.
  destruct (send_frame_trace peer fuel req 1000 false 15 20 s ltac:(lia) Hlen Hfuel Hack)
    as (lenBuf & s' & Hw & Hrun & Htr & Hl).
  assert (Hsend : send_primary peer fuel method paramsObject s = (Ret tt, s'))
    by (rewrite send_primary_frame; exact Hrun).
  exists lenBuf, s'. split; [exact Hw|]. split; [exact Hsend|]. split; [exact Htr|].
  pose proof (keeps_send_primary peer counted counted_refl counted_trans (counted_suspend peer)
                fuel method paramsObject s) as (ext & Hext & Haw).
  pose proof (keeps_send_primary peer (length_kept peer) (length_kept_refl peer)
                (length_kept_trans peer) (length_kept_suspend peer)
                fuel method paramsObject s) as [_ Hkept].
  rewrite Hsend in Hext, Haw, Hkept. cbn [snd] in *.
  rewrite Htr in Hext. apply app_inv_head in Hext. subst ext.
  cbn [List.length] in Haw. rewrite chunk_writes_length in Haw.
  split; [lia|]. split; [exact Hl|]. split; [|exact Hkept].
  eapply send_frame_settles; [|exact Hrun]. lia.
Qed.






(** The flush and the subscription against a peer that has nothing pending
    and accepts the subscription. *)
Lemma subscribe_phase_completes (peer : Peer) (fuel : nat) (s : State) :
  pending_length (peer (awaits s)) = 0 ->
  r_ok (peer (S (awaits s))) = true ->
  Forall short_read (r_notify (peer (S (awaits s)))) ->
  exists s1,
    subscribe_phase peer fuel s = (Ret tt, s1) /\
    trace s1 = trace s ++ [ARead RxCtlChar; ASubscribe] /\
    awaits s1 = (awaits s + 2)%nat /\
    clock s1 = first_id peer s /\
    listening s1 = true /\
    expectedLength s1 = 0.
Proof.
  intros Hidle Hok Hquiet. unfold subscribe_phase.
  rewrite (bind_ret_eq _ _ s tt _ (flushChannels_idle peer fuel s Hidle)).
  set (sA := after_read peer RxCtlChar s).
  rewrite (bind_ret_eq (set_expectedLength 0) _ sA tt _ eq_refl).
  unfold subscribeNotifications. mrun. subst sA.
  cbn [after_read suspend snd awaits clock listening trace expectedLength].
  rewrite Hok. mrun. eexists. split; [reflexivity|].
  cbn [trace awaits clock listening expectedLength].
  repeat match goal with |- _ /\ _ => split end; try reflexivity.
  - rewrite <- app_assoc. reflexivity.
  - lia.
  - destruct (listening s); [|reflexivity]. apply fold_left_onData_short. exact Hquiet.
Qed.

(** [attempt_primary] by its phases. *)
Lemma attempt_primary_stages (peer : Peer) (fuel : nat) (method : string)
    (paramsObject : option JSON) (s s1 s2 : State) :
  subscribe_phase peer fuel s = (Ret tt, s1) ->
  send_primary peer fuel method paramsObject s1 = (Ret tt, s2) ->
  attempt_primary peer fuel method paramsObject s = poll_primary peer 30 s2.
Proof.
  unfold subscribe_phase, attempt_primary. intros H1 H2.
  apply bind_ret_inv in H1. destruct H1 as ([] & sA & HA & H1).
  apply bind_ret_inv in H1. destruct H1 as ([] & sB & HB & HC).
  rewrite (bind_ret_eq _ _ s tt sA HA), (bind_ret_eq _ _ sA tt sB HB),
    (bind_ret_eq _ _ sB tt s1 HC), (bind_ret_eq _ _ s1 tt s2 H2).
  reflexivity.
Qed.




(** ** An exchange with a peer that never answers *)

Lemma unresponsive_later (peer : Peer) (from n : nat) :
  unresponsive peer from -> (from <= n)%nat -> unresponsive peer n.
Proof. intros H Hn m Hm. apply H. lia. Qed.

Lemma unresponsive_acknowledges (peer : Peer) (from : nat) :
  unresponsive peer from -> acknowledges peer from.
Proof. intros H n Hn. apply H. exact Hn. Qed.

Lemma unresponsive_quiet (peer : Peer) (from : nat) :
  unresponsive peer from -> no_length_notified peer from.
Proof. intros H n Hn. destruct (H n Hn) as (_ & _ & ->). constructor. Qed.

Lemma unresponsive_read (peer : Peer) (from : nat) :
  unresponsive peer from ->
  r_read (peer from) = ReadFail \/ r_read (peer from) = ReadData None \/
  r_read (peer from) = ReadData (Some []).
Proof.
  intros H. destruct (H from (Nat.le_refl _)) as (_ & Hno & _). unfold no_data in Hno.
  destruct (r_read (peer from)) as [|[b|]]; auto.
  right. right. apply Z.eqb_eq in Hno. unfold chunk_length, blen in Hno.
  destruct b; [reflexivity | cbn [List.length] in Hno; lia].
Qed.

Lemma unresponsive_pending (peer : Peer) (from : nat) :
  unresponsive peer from -> pending_length (peer from) = 0.
Proof.
  intros H. unfold pending_length.
  destruct (unresponsive_read peer from H) as [-> | [-> | ->]]; reflexivity.
Qed.

Lemma unresponsive_after_read (peer : Peer) (c : Chan) (s : State) :
  unresponsive peer (awaits s) ->
  expectedLength (after_read peer c s) = expectedLength s.
Proof.
  intros H. unfold after_read. apply suspend_keeps_length.
  apply (unresponsive_quiet peer (awaits s) H). apply Nat.le_refl.
Qed.

(** A poll of a peer that has nothing to say tells nothing. *)
Lemma poll_once_unanswered (peer : Peer) (s : State) :
  unresponsive peer (awaits s) ->
  poll_primary_once peer s = (Ret false, after_read peer RxCtlChar s) /\
  poll_retry_once peer s = (Ret tt, after_read peer RxCtlChar s).
Proof.
  intros H. pose proof (poll_primary_once_cases peer s) as Hc. cbv zeta in Hc.
  unfold poll_retry_once, after_read in *. mrun.
  destruct (unresponsive_read peer (awaits s) H) as [E | [E | E]]; rewrite E in *;
    split; try exact Hc; reflexivity.
Qed.

Lemma polls_length (pause : Z) (k : nat) : List.length (polls pause k) = (2 * k)%nat.
Proof.
  induction k as [|k IH]; [reflexivity|].
  rewrite polls_S, length_app, IH. cbn [List.length]. lia.
Qed.

Lemma polls_quiet (pause : Z) (k : nat) :
  tx_count (polls pause k) = 0%nat /\ data_written (polls pause k) = [].
Proof.
  induction k as [|k [IH1 IH2]]; [split; reflexivity|].
  rewrite polls_S, tx_count_app, data_written_app, IH1, IH2. split; reflexivity.
Qed.

Lemma poll_primary_unanswered (peer : Peer) (left : nat) :
  forall s,
    unresponsive peer (awaits s) -> expectedLength s = 0 ->
    exists s',
      poll_primary peer left s = (Ret tt, s') /\
      trace s' = trace s ++ polls 250 left /\
      awaits s' = (awaits s + 2 * left)%nat /\
      listening s' = listening s /\
      expectedLength s' = 0 /\
      clock s + 250 * Z.of_nat left <= clock s'.
Proof.
  induction left as [|left IH]; intros s Hun Hel.
  - exists s. cbn [poll_primary ret polls repeat List.concat]. rewrite app_nil_r.
    repeat match goal with |- _ /\ _ => split end; auto; lia.
  - cbn [poll_primary].
    rewrite (bind_ret_eq get_expectedLength _ s (expectedLength s) s eq_refl), Hel.
    cbn [Z.eqb].
    destruct (poll_once_unanswered peer s Hun) as [Hone _].
    rewrite (bind_ret_eq _ _ s false _ Hone).
    set (s1 := after_read peer RxCtlChar s).
    assert (Hel1 : expectedLength s1 = 0)
      by (subst s1; rewrite unresponsive_after_read; assumption).
    rewrite (bind_ret_eq (sleep peer 250) _ s1 tt _ eq_refl).
    match goal with |- context [poll_primary peer left ?st] => set (s2 := st) end.
    assert (Ha2 : awaits s2 = (awaits s + 2)%nat) by (subst s2 s1; cbn; lia).
    assert (Hel2 : expectedLength s2 = 0).
    { subst s2. cbn [expectedLength]. rewrite Hel1.
      destruct (Hun (awaits s1)) as (_ & _ & ->); [subst s1; cbn; lia|].
      destruct (listening s1); reflexivity. }
    destruct (IH s2) as (s' & Hrun & Htr & Haw & Hl & Hel' & Hclk).
    { apply (unresponsive_later peer (awaits s)); [exact Hun | lia]. }
    { exact Hel2. }
    exists s'. split; [exact Hrun|]. rewrite Htr, Haw, Hl, polls_S.
    repeat match goal with |- _ /\ _ => split end; auto.
    + subst s2 s1. cbn [after_read suspend snd trace]. rewrite <- !app_assoc. reflexivity.
    + lia.
    + assert (clock s + 250 <= clock s2) by (subst s2 s1; cbn; lia). lia.
Qed.

Lemma poll_retry_unanswered (peer : Peer) (left : nat) :
  forall s,
    unresponsive peer (awaits s) -> expectedLength s = 0 ->
    exists s',
      poll_retry peer left s = (Ret tt, s') /\
      trace s' = trace s ++ polls 100 left /\
      awaits s' = (awaits s + 2 * left)%nat /\
      listening s' = listening s /\
      expectedLength s' = 0 /\
      clock s + 100 * Z.of_nat left <= clock s'.
Proof.
  induction left as [|left IH]; intros s Hun Hel.
  - exists s. cbn [poll_retry ret polls repeat List.concat]. rewrite app_nil_r.
    repeat match goal with |- _ /\ _ => split end; auto; lia.
  - cbn [poll_retry].
    rewrite (bind_ret_eq get_expectedLength _ s (expectedLength s) s eq_refl), Hel.
    cbn [Z.eqb].
    destruct (poll_once_unanswered peer s Hun) as [_ Hone].
    rewrite (bind_ret_eq _ _ s tt _ Hone).
    set (s1 := after_read peer RxCtlChar s).
    assert (Hel1 : expectedLength s1 = 0)
      by (subst s1; rewrite unresponsive_after_read; assumption).
    rewrite (bind_ret_eq (sleep peer 100) _ s1 tt _ eq_refl).
    match goal with |- context [poll_retry peer left ?st] => set (s2 := st) end.
    assert (Ha2 : awaits s2 = (awaits s + 2)%nat) by (subst s2 s1; cbn; lia).
    assert (Hel2 : expectedLength s2 = 0).
    { subst s2. cbn [expectedLength]. rewrite Hel1.
      destruct (Hun (awaits s1)) as (_ & _ & ->); [subst s1; cbn; lia|].
      destruct (listening s1); reflexivity. }
    destruct (IH s2) as (s' & Hrun & Htr & Haw & Hl & Hel' & Hclk).
    { apply (unresponsive_later peer (awaits s)); [exact Hun | lia]. }
    { exact Hel2. }
    exists s'. split; [exact Hrun|]. rewrite Htr, Haw, Hl, polls_S.
    repeat match goal with |- _ /\ _ => split end; auto.
    + subst s2 s1. cbn [after_read suspend snd trace]. rewrite <- !app_assoc. reflexivity.
    + lia.
    + assert (clock s + 100 <= clock s2) by (subst s2 s1; cbn; lia). lia.
Qed.

(** The read loop against a peer that has nothing to read gives up when its
    time has passed, with the bytes it started with. *)
Lemma read_loop_unanswered (peer : Peer) (bestEffort : bool)
    (startedData maxDurationMs : Z) (fuel : nat) :
  forall received ce s,
    unresponsive peer (awaits s) -> 0 <= ce ->
    (Z.to_nat (maxDurationMs - (clock s - startedData) + 1) + 1 <= fuel)%nat ->
    exists s',
      read_loop peer fuel bestEffort startedData maxDurationMs received ce s
        = (Ret received, s') /\
      keeps_reading bestEffort startedData maxDurationMs received s' = false.
Proof.
  induction fuel as [|fuel IH]; intros received ce s Hun Hce Hfuel; [lia|].
  destruct (keeps_reading bestEffort startedData maxDurationMs received s) eqn:Hk.
  2:{ exists s. split; [apply read_loop_stops; exact Hk | exact Hk]. }
  pose proof (keeps_reading_within_budget _ _ _ _ _ Hk) as Hin.
  pose proof (read_once_cases peer received ce s) as Hone. cbv zeta in Hone.
  pose proof (backoff_range (ce + 1) ltac:(lia)) as Hb.
  assert (Hnext : forall ce' ms s1,
            0 <= ce' -> 200 <= ms ->
            read_once peer received ce s =
              (Ret (received, ce'), snd (suspend peer (ASleep ms) ms s1)) ->
            awaits s1 = S (awaits s) -> clock s <= clock s1 ->
            exists s',
              read_loop peer (S fuel) bestEffort startedData maxDurationMs received ce s
                = (Ret received, s') /\
              keeps_reading bestEffort startedData maxDurationMs received s' = false).
  { intros ce' ms s1 Hce' Hms Hrun Haw Hclk.
    rewrite (read_loop_continues peer fuel _ _ _ _ _ _ _ _ Hk Hrun). cbn [fst snd].
    apply IH; [|exact Hce'|].
    - apply (unresponsive_later peer (awaits s)); [exact Hun|].
      cbn [suspend snd awaits]. lia.
    - cbn [suspend snd clock]. lia. }
  destruct (unresponsive_read peer (awaits s) Hun) as [E | [E | E]]; rewrite E in Hone.
  - apply (Hnext ce 250 (after_read peer DataChar s)); auto; try lia.
    unfold after_read. cbn [suspend snd clock]. lia.
  - cbn [chunk_length Z.ltb Z.compare] in Hone.
    apply (Hnext (ce + 1) (backoff (ce + 1)) (after_read peer DataChar s)); auto; try lia.
    unfold after_read. cbn [suspend snd clock]. lia.
  - cbn [chunk_length blen List.length Z.of_nat Z.ltb Z.compare] in Hone.
    apply (Hnext (ce + 1) (backoff (ce + 1)) (after_read peer DataChar s)); auto; try lia.
    unfold after_read. cbn [suspend snd clock]. lia.
Qed.

(** The resend against a peer that acknowledges it: the state it leaves. *)
Lemma send_retry_completes (peer : Peer) (fuel : nat) (method : string)
    (paramsObject : option JSON) (s : State) :
  let req := requestBytes (clock s) method paramsObject in
  acknowledges peer (awaits s) ->
  blen req < 2 ^ 32 -> (List.length req < fuel)%nat ->
  exists lenBuf s',
    writeUInt32BE (blen req) = Some lenBuf /\
    send_retry peer fuel method paramsObject s = (Ret tt, s') /\
    trace s' = trace s ++ AWrite TxCtlChar lenBuf false :: ASleep 500 ::
                          chunk_writes false 25 (chunks 20 req) /\
    awaits s' = (awaits s + 2 + 2 * List.length (chunks 20 req))%nat /\
    listening s' = listening s /\
    clock s + 500 <= clock s' /\
    (no_length_notified peer (awaits s) -> expectedLength s' = expectedLength s).
Proof.
  intros req Hack Hlen Hfuel.
  destruct (send_frame_trace peer fuel req 500 false 25 20 s ltac:(lia) Hlen Hfuel Hack)
    as (lenBuf & s' & Hw & Hrun & Htr & Hl).
  assert (Hsend : send_retry peer fuel method paramsObject s = (Ret tt, s'))
    by (rewrite send_retry_frame; exact Hrun).
  exists lenBuf, s'. split; [exact Hw|]. split; [exact Hsend|]. split; [exact Htr|].
  pose proof (keeps_send_retry peer counted counted_refl counted_trans (counted_suspend peer)
                fuel method paramsObject s) as (ext & Hext & Haw).
  pose proof (keeps_send_retry peer (length_kept peer) (length_kept_refl peer)
                (length_kept_trans peer) (length_kept_suspend peer)
                fuel method paramsObject s) as [_ Hkept].
  rewrite Hsend in Hext, Haw, Hkept. cbn [snd] in *.
  rewrite Htr in Hext. apply app_inv_head in Hext. subst ext.
  cbn [List.length] in Haw. rewrite chunk_writes_length in Haw.
  split; [lia|]. split; [exact Hl|]. split; [|exact Hkept].
  eapply send_frame_settles; [|exact Hrun]. lia.
Qed.

(** X18.  An exchange with a peer that acknowledges everything and never
    has anything to read or to notify is given up with the empty-response
    error, whatever the parser is, after exactly this: the flush read, the
    subscription, the first transmission, thirty polls 250 ms apart, the
    second transmission with a new id taken at least 8.5 s after the first,
    twenty polls 100 ms apart, a best-effort read loop that only reads and
    pauses, and the end of the subscription.  The run takes at least 16
    seconds. *)
Theorem unresponsive_peer_is_given_up_on
    (peer : Peer) (JSON_parse : string -> string + JSON) (fuel : nat)
    (method : string) (paramsObject : option JSON) (s : State) :
  let req1 := requestBytes (first_id peer s) method paramsObject in
  let id2 := clock (snd (attempt_primary peer fuel method paramsObject s)) in
  let req2 := requestBytes id2 method paramsObject in
  unresponsive peer (awaits s) ->
  blen req1 < 2 ^ 32 -> (List.length req1 < fuel)%nat ->
  blen req2 < 2 ^ 32 -> (List.length req2 < fuel)%nat ->
  (Z.to_nat 5002 <= fuel)%nat ->
  exists len1 len2 loop s',
    exchange peer JSON_parse fuel method paramsObject s = (Raise EmptyResponse, s') /\
    trace s' =
      trace s ++ [ARead RxCtlChar; ASubscribe; AWrite TxCtlChar len1 false; ASleep 1000] ++
      chunk_writes false 15 (chunks MTU_CHUNK req1) ++ polls 250 30 ++
      [AWrite TxCtlChar len2 false; ASleep 500] ++
      chunk_writes false 25 (chunks MTU_CHUNK req2) ++ polls 100 20 ++
      loop ++ [AUnsubscribe] /\
    Forall read_or_pause loop /\
    first_id peer s + 8500 <= id2 /\
    16000 <= clock s' - clock s /\
    listening s' = false.
Proof.
  intros req1 id2 req2 Hun Hlen1 Hfuel1 Hlen2 Hfuel2 Hfuel.
  change MTU_CHUNK with 20%nat.
  pose proof (unresponsive_acknowledges peer _ Hun) as Hack.
  pose proof (unresponsive_quiet peer _ Hun) as Hq.
  (* the flush and the subscription *)
  destruct (subscribe_phase_completes peer fuel s (unresponsive_pending peer _ Hun))
    as (s1 & Hsub & Ht1 & Ha1 & Hc1 & Hl1 & He1).
  { apply Hack. lia. }
  { apply Hq. lia. }
  assert (Hclk1 : clock s <= clock s1) by (rewrite Hc1; unfold first_id; lia).
  (* the first transmission *)
  assert (Hack1 : acknowledges peer (awaits s1)) by (intros n Hn; apply Hack; lia).
  assert (Hq1 : no_length_notified peer (awaits s1)) by (intros n Hn; apply Hq; lia).
  destruct (send_primary_completes peer fuel method paramsObject s1)
    as (len1 & s2 & Hw1 & Hsend1 & Ht2 & Ha2 & Hl2 & Hc2 & He2); try assumption;
    try (rewrite Hc1; assumption).
  rewrite Hc1 in Ht2, Ha2, Hc2. fold req1 in Ht2, Ha2.
  specialize (He2 Hq1). rewrite He1 in He2.
  (* thirty polls *)
  destruct (poll_primary_unanswered peer 30 s2) as (s3 & Hpoll & Ht3 & Ha3 & Hl3 & He3 & Hc3);
    [apply (unresponsive_later peer (awaits s)); [exact Hun | lia] | exact He2 |].
  assert (Hattempt : attempt_primary peer fuel method paramsObject s = (Ret tt, s3)).
  { rewrite (attempt_primary_stages peer fuel method paramsObject s s1 s2 Hsub Hsend1).
    exact Hpoll. }
  assert (Hid2 : id2 = clock s3) by (subst id2; rewrite Hattempt; reflexivity).
  clearbody id2. subst id2.
  (* the resend *)
  set (s3' := mkState (clock s3) (awaits s3) (listening s3) 0 (trace s3)).
  destruct (send_retry_completes peer fuel method paramsObject s3')
    as (len2 & s4 & Hw2 & Hsend2 & Ht4 & Ha4 & Hl4 & Hc4 & He4); try assumption.
  { intros n Hn. apply Hack. subst s3'. cbn [awaits] in Hn. lia. }
  cbn [clock] in Ht4, Ha4, Hc4. fold req2 in Ht4, Ha4.
  cbn [s3' awaits trace listening expectedLength] in Ht4, Ha4, Hl4, Hc4, He4.
  assert (He4' : expectedLength s4 = 0).
  { apply He4. intros n Hn. apply Hq. lia. }
  destruct (poll_retry_unanswered peer 20 s4) as (s5 & Hpoll2 & Ht5 & Ha5 & Hl5 & He5 & Hc5);
    [apply (unresponsive_later peer (awaits s)); [exact Hun | lia] | exact He4' |].
  assert (Hretry : retry_if_silent peer fuel method paramsObject [] s3 = (Ret [], s5)).
  { rewrite retry_if_silent_cases, He3. cbn [Z.eqb blen List.length Z.of_nat andb].
    unfold resend. rewrite (bind_ret_eq (set_expectedLength 0) _ s3 tt s3' eq_refl).
    rewrite (bind_ret_eq _ _ s3' tt s4 Hsend2), (bind_ret_eq _ _ s4 tt s5 Hpoll2).
    reflexivity. }
  (* the read loop *)
  destruct (read_loop_unanswered peer true (clock s5) 5000 fuel [] 0 s5)
    as (s6 & Hloop & Hexit).
  { apply (unresponsive_later peer (awaits s)); [exact Hun | lia]. }
  { lia. }
  { replace (5000 - (clock s5 - clock s5) + 1) with 5001 by lia. lia. }
  apply keeps_reading_false in Hexit.
  destruct (read_loop_gathers peer true (clock s5) 5000 fuel [] 0 s5)
    as (loop & Ht6 & _ & Hall & _).
  rewrite Hloop in Ht6. cbn [snd] in Ht6.
  assert (Hreceive : receive peer fuel [] s5 = (Ret [], s6)).
  { unfold receive.
    rewrite (bind_ret_eq get_expectedLength _ s5 (expectedLength s5) s5 eq_refl), He5.
    rewrite (bind_ret_eq Date_now _ s5 (clock s5) s5 eq_refl). exact Hloop. }
  assert (Htransfer : transfer peer fuel method paramsObject s =
                      (Ret [], snd (unsubscribeRxNotify s6))).
  { unfold transfer.
    rewrite (bind_ret_eq _ _ s tt s3 Hattempt), (bind_ret_eq _ _ s3 [] s5 Hretry),
      (bind_ret_eq _ _ s5 [] s6 Hreceive).
    reflexivity. }
  change (Z.of_nat 30) with 30 in Hc3. change (Z.of_nat 20) with 20 in Hc5.
  change (clock s3') with (clock s3) in Hc4.
  exists len1, len2, loop, (snd (unsubscribeRxNotify s6)).
  split; [|split; [|split; [exact Hall|split; [|split; [|reflexivity]]]]].
  - unfold exchange. rewrite (bind_ret_eq _ _ s [] _ Htransfer). reflexivity.
  - cbn [unsubscribeRxNotify]. mrun.
    rewrite Ht6, Ht5, Ht4, Ht3, Ht2, Ht1, <- !app_assoc. reflexivity.
  - lia.
  - cbn [unsubscribeRxNotify]. mrun. lia.
Qed.

Lemma silent_unresponsive (from : nat) : unresponsive silent from.
Proof. intros n _. repeat split. Qed.

Lemma unresponsive_peer_is_given_up_on_witness :
  unresponsive silent 0 /\
  exists s',
    exchange silent reject_all (Z.to_nat 5002) "Shelly.GetStatus" None initial
      = (Raise EmptyResponse, s') /\
    tx_count (trace s') = 2%nat /\
    16000 <= clock s' - clock initial.
Proof.
  split; [apply silent_unresponsive|].
  destruct (unresponsive_peer_is_given_up_on silent reject_all (Z.to_nat 5002)
              "Shelly.GetStatus" None initial)
    as (len1 & len2 & loop & s' & Hrun & Htr & Hall & _ & Hclk & _).
  - apply silent_unresponsive.
  - vm_compute. reflexivity.
  - apply Nat.ltb_lt. vm_compute. reflexivity.
  - vm_compute. reflexivity.
  - apply Nat.ltb_lt. vm_compute. reflexivity.
  - apply Nat.le_refl.
  - exists s'. split; [exact Hrun|]. split; [|exact Hclk].
    rewrite Htr, !tx_count_app, !tx_count_chunk_writes.
    rewrite (proj1 (polls_quiet 250 30)), (proj1 (polls_quiet 100 20)).
    rewrite (tx_count_not_tx loop).
    + reflexivity.
    + eapply Forall_impl; [|exact Hall]. intros a [-> | [ms ->]]; reflexivity.
Defined.

(** ** The service, and the peripheral [main] connects to *)

Lemma lower_keeps_hyphen (u : string) :
  In "-"%char (list_ascii_of_string u) ->
  In "-"%char (list_ascii_of_string (String_toLowerCase u)).
Proof.
  induction u as [|c u IH]; [intros []|].
  cbn [String_toLowerCase list_ascii_of_string]. intros [-> | H]; [left; reflexivity|].
  right. apply IH. exact H.
Qed.

Lemma TARGET_SERVICE_lower : String_toLowerCase TARGET_SERVICE = TARGET_SERVICE.
Proof. vm_compute. reflexivity. Qed.

Lemma TARGET_SERVICE_plain : ~ In "-"%char (list_ascii_of_string TARGET_SERVICE).
Proof.
  unfold TARGET_SERVICE. intros H.
  pose proof (normalizeUuid_chars SHELLY_GATT_SERVICE_UUID "-"%char) as Hc.
  destruct (Hc H) as [Hneq _]. apply Hneq. reflexivity.
Qed.

(** X19.  The Shelly service is looked up without regard to the case of
    the letters but with regard to hyphens: the service taken is the first
    one whose UUID in lower case is the target UUID, so a UUID reported in
    capital letters is accepted, and one reported with hyphens never is. *)
Theorem find_service_ignores_case_only (services : list string) :
  match find_service services with
  | Some u =>
      String_toLowerCase u = TARGET_SERVICE /\
      exists pre post,
        services = pre ++ u :: post /\
        Forall (fun v => String_toLowerCase v <> TARGET_SERVICE) pre
  | None => Forall (fun v => String_toLowerCase v <> TARGET_SERVICE) services
  end /\
  (forall u, In u services -> String_toLowerCase u = TARGET_SERVICE ->
             find_service services <> None) /\
  (forall u, find_service services = Some u ->
             ~ In "-"%char (list_ascii_of_string u)).
Proof.
  unfold find_service. rewrite TARGET_SERVICE_lower.
  pose proof (find_first (fun u => String.eqb (String_toLowerCase u) TARGET_SERVICE) services)
    as H.
  assert (Hneq : forall l,
            Forall (fun y => String.eqb (String_toLowerCase y) TARGET_SERVICE = false) l ->
            Forall (fun v => String_toLowerCase v <> TARGET_SERVICE) l).
  { intros l. apply Forall_impl. intros v Hv. apply String.eqb_neq. exact Hv. }
  destruct (find _ services) as [u|].
  - destruct H as (Hu & pre & post & Hs & Hpre). apply String.eqb_eq in Hu.
    split; [|split].
    + split; [exact Hu|]. exists pre, post. split; [exact Hs | apply Hneq; exact Hpre].
    + discriminate.
    + intros v [= <-] Hin. apply lower_keeps_hyphen in Hin. rewrite Hu in Hin.
      exact (TARGET_SERVICE_plain Hin).
  - split; [apply Hneq; exact H|]. split; [|discriminate].
    intros u Hin Hu _. rewrite Forall_forall in H. specialize (H u Hin).
    apply String.eqb_neq in H. contradiction.
Qed.

Lemma scanForDevices_entries (scanned : list Peripheral) (d : Device) :
  In d (scanForDevices scanned) ->
  exists p, In p scanned /\ d = entry p /\ shelly_test (advertisedName p) = true.
Proof.
  destruct (scan_fold scanned [] (NoDup_nil _)) as (more & Hrun & _ & Hall & _).
  assert (E : scanForDevices scanned = more) by exact (f_equal fst Hrun).
  rewrite E. rewrite Forall_forall in Hall. apply Hall.
Qed.

Lemma promptUserSelection_chosen (devices : list Device) (answer customAddress : string)
    (p : Peripheral) :
  promptUserSelection devices answer customAddress = Chosen p ->
  exists d, In d devices /\ p = d_peripheral d.
Proof.
  unfold promptUserSelection.
  assert (Hfirst : match devices with
                   | d :: _ => Chosen (d_peripheral d)
                   | [] => NoDevice
                   end = Chosen p -> exists d, In d devices /\ p = d_peripheral d).
  { destruct devices as [|d rest]; [discriminate|]. intros [= <-].
    exists d. split; [left; reflexivity | reflexivity]. }
  destruct (parseInt (String_trim answer)) as [c|]; [|exact Hfirst].
  destruct (_ && _).
  - destruct (nth_error devices (Z.to_nat (c - 1))) as [d|] eqn:En; [|discriminate].
    intros [= <-]. exists d. split; [eapply nth_error_In; exact En | reflexivity].
  - destruct (_ =? _); [discriminate | exact Hfirst].
Qed.

Lemma promptUserSelection_null (devices : list Device) (answer customAddress : string) :
  promptUserSelection devices answer customAddress = NoDevice -> devices = [].
Proof.
  unfold promptUserSelection.
  assert (Hfirst : match devices with
                   | d :: _ => Chosen (d_peripheral d)
                   | [] => NoDevice
                   end = NoDevice -> devices = []).
  { destruct devices; [reflexivity | discriminate]. }
  destruct (parseInt (String_trim answer)) as [c|]; [|exact Hfirst].
  destruct ((1 <=? c) && (c <=? Z.of_nat (List.length devices))) eqn:Ein.
  - apply andb_true_iff in Ein. destruct Ein as [E1 E2]. apply Z.leb_le in E1, E2.
    destruct (nth_error devices (Z.to_nat (c - 1))) as [d|] eqn:En; [discriminate|].
    apply nth_error_None in En. lia.
  - destruct (_ =? _); [discriminate | exact Hfirst].
Qed.

Lemma promptUserSelection_custom (devices : list Device) (answer customAddress c : string) :
  promptUserSelection devices answer customAddress = CustomAddress c ->
  c = String_trim customAddress.
Proof.
  unfold promptUserSelection.
  assert (Hfirst : match devices with
                   | d :: _ => Chosen (d_peripheral d)
                   | [] => NoDevice
                   end = CustomAddress c -> c = String_trim customAddress).
  { destruct devices; discriminate. }
  destruct (parseInt (String_trim answer)) as [k|]; [|exact Hfirst].
  destruct ((1 <=? k) && (k <=? Z.of_nat (List.length devices))).
  - destruct (nth_error devices (Z.to_nat (k - 1))); discriminate.
  - destruct (k =? Z.of_nat (List.length devices) + 1); [|exact Hfirst].
    intros [= <-]. reflexivity.
Qed.

(** X20.  The peripheral [main] goes on with.  With [--scan], or with
    neither an address nor a name, the choice is made from the menu and an
    address or name given on the command line plays no part.  A peripheral
    taken from the menu is one the scan listed, so its advertised name
    matches /shelly/i; one found for a custom address is the first
    discovered peripheral that has that address, trimmed and in lower case.
    Without [--scan] and with an address or a name, the peripheral is the
    first discovered one that the listener's test accepts: none of those
    discovered before it passes the test.  The scan times out only when no
    discovered peripheral passes.  The selection is never [null]; but a
    custom address that is empty leaves [main] with the object
    [{ customAddress: '' }] in place of a peripheral. *)
Theorem main_connects_to_what_was_chosen
    (args : Args) (scanned discovered : list Peripheral) (answer customAddress : string) :
  let menu := a_scan args || (negb (given (a_address args)) && negb (given (a_name args))) in
  let target := main_peripheral args scanned discovered answer customAddress in
  let custom := String_toLowerCase (String_trim customAddress) in
  (menu = true ->
   target = main_peripheral (set_scan no_args) scanned discovered answer customAddress) /\
  match target with
  | Connect p =>
      if menu then
        (In p scanned /\ shelly_test (advertisedName p) = true) \/
        (String_trim customAddress <> "" /\
         peripheral_address p = custom /\
         exists pre post,
           discovered = pre ++ p :: post /\
           Forall (fun q => peripheral_address q <> custom) pre)
      else
        discover_matches args p = true /\
        exists pre post,
          discovered = pre ++ p :: post /\
          Forall (fun q => discover_matches args q = false) pre
  | NoDevicesFound => menu = true /\ scanForDevices scanned = []
  | ScanTimeout =>
      if menu then
        String_trim customAddress <> "" /\
        Forall (fun q => peripheral_address q <> custom) discovered
      else Forall (fun q => discover_matches args q = false) discovered
  | NotAPeripheral c => menu = true /\ c = "" /\ String_trim customAddress = ""
  | NullSelection => False
  end.
Proof.
  cbv zeta. unfold main_peripheral.
  destruct (a_scan args || (negb (given (a_address args)) && negb (given (a_name args))))
    eqn:Emenu.
  - split; [intros _; reflexivity|].
    destruct (scanForDevices scanned) as [|d0 rest] eqn:Edev; [auto|].
    rewrite <- Edev.
    destruct (promptUserSelection (scanForDevices scanned) answer customAddress)
      as [p|c|] eqn:Esel.
    + left. apply promptUserSelection_chosen in Esel. destruct Esel as (d & Hin & ->).
      apply scanForDevices_entries in Hin. destruct Hin as (q & Hq & -> & Hs).
      split; [exact Hq | exact Hs].
    + pose proof (promptUserSelection_custom _ _ _ _ Esel) as Hc.
      destruct (nonempty c) eqn:Ec.
      * assert (Hne : String_trim customAddress <> "").
        { intros H. rewrite <- Hc in H. rewrite H in Ec. discriminate Ec. }
        assert (Htest : forall q,
                   discover_matches (mkArgs (Some c) None None None false) q =
                   String.eqb (peripheral_address q) (String_toLowerCase c)).
        { intros q. unfold discover_matches. cbn [a_address a_name given or_text].
          rewrite Ec. cbn [andb orb negb]. rewrite !orb_false_r. reflexivity. }
        assert (Hnone : forall l,
                   Forall (fun q => discover_matches (mkArgs (Some c) None None None false) q
                                    = false) l ->
                   Forall (fun q => peripheral_address q <>
                                    String_toLowerCase (String_trim customAddress)) l).
        { intros l. apply Forall_impl. intros q Hq. rewrite Htest in Hq.
          apply String.eqb_neq in Hq. rewrite <- Hc. exact Hq. }
        pose proof (find_first (discover_matches (mkArgs (Some c) None None None false))
                               discovered) as Hf.
        unfold discoverShelly.
        destruct (find _ discovered) as [p|].
        -- destruct Hf as (Hm & pre & post & Hd & Hpre). right.
           split; [exact Hne|]. split.
           ++ rewrite Htest in Hm. apply String.eqb_eq in Hm. rewrite <- Hc. exact Hm.
           ++ exists pre, post. split; [exact Hd | apply Hnone; exact Hpre].
        -- split; [exact Hne | apply Hnone; exact Hf].
      * apply nonempty_false in Ec. subst c. auto.
    + apply promptUserSelection_null in Esel. congruence.
  - split; [discriminate|].
    pose proof (find_first (discover_matches args) discovered) as Hf.
    unfold discoverShelly.
    destruct (find _ discovered) as [p|]; [|exact Hf].
    destruct Hf as (Hm & pre & post & Hd & Hpre).
    split; [exact Hm|]. exists pre, post. split; [exact Hd | exact Hpre].
Qed.
